(** * pstack: DWARF stream reader, line program, call-frame unwinder

    A shallow embedding of the parts of [dwarf.cc] and [dwarf.h] that the
    specification speaks about, together with the properties checked
    against them.

    Conventions of the embedding.
    - [uintmax_t], [Elf_Addr], [Elf_Off] and [size_t] are 64-bit unsigned
      ([ELF_BITS] is 64 in [libpstack/elf.h]): a [Z] kept in [0, 2^64) by
      [u64].  [intmax_t] is a [Z] kept in [-2^63, 2^63) by [s64].  [int] and
      [unsigned] are the 32-bit [s32] and [u32].
    - A call can end in four ways: it returns, it throws the [Exception]
      of [libpstack/util.h], it calls [abort()], or it runs into
      behaviour the language leaves undefined (shifting an [int] by 32 or
      more, dividing by zero, [top()] of an empty [std::stack], indexing an
      array outside its bounds).  [outcome] keeps the four apart.
    - The [while] loops of the source whose trip count the input decides
      are given a step budget (a [nat]); the straight-line code and the
      loops with a bound of their own are not. *)

From Stdlib Require Import ZArith List Lia Bool.
From Stdlib Require Strings.Byte.
From stdpp Require Import base numbers list gmap.

Import ListNotations.
Local Open Scope Z_scope.

(** ** Machine integers *)

Definition u8 (x : Z) : Z := x mod 2^8.
Definition u16 (x : Z) : Z := x mod 2^16.
Definition u32 (x : Z) : Z := x mod 2^32.
Definition u64 (x : Z) : Z := x mod 2^64.

(** Two's complement reading of the low [w] bits. *)
Definition signed (w : Z) (x : Z) : Z :=
  let m := x mod 2^w in
  if m <? 2^(w-1) then m else m - 2^w.

Definition s8 (x : Z) : Z := signed 8 x.
Definition s16 (x : Z) : Z := signed 16 x.
Definition s32 (x : Z) : Z := signed 32 x.
Definition s64 (x : Z) : Z := signed 64 x.

(** ** Outcomes of a call *)

Inductive outcome (A : Type) : Type :=
| Ok (a : A)      (* the call returns *)
| Throw           (* an Exception propagates to the caller *)
| Abort           (* abort(): the process is terminated *)
| Undef           (* undefined behaviour *)
| OutOfFuel.      (* the step budget of a modelled loop ran out; says
                     nothing about the program *)

Arguments Ok {A} a.
Arguments Throw {A}.
Arguments Abort {A}.
Arguments Undef {A}.
Arguments OutOfFuel {A}.

Definition obind {A B : Type} (m : outcome A) (k : A -> outcome B) : outcome B :=
  match m with
  | Ok a => k a
  | Throw => Throw
  | Abort => Abort
  | Undef => Undef
  | OutOfFuel => OutOfFuel
  end.

Definition returns {A : Type} (m : outcome A) : bool :=
  match m with Ok _ => true | _ => false end.

(** ** The byte store behind a reader ([Reader] of libpstack/util.h)

    [Reader::read(off, count, ptr)] is virtual; [readObj] throws when fewer
    than the requested bytes come back.  A store is modelled by the byte it
    holds at each offset, if any; the offset is the 64-bit pattern of the
    [off_t] argument. *)

Definition Reader : Type := Z -> option Byte.byte.

Definition byteZ (b : Byte.byte) : Z := Z.of_N (Byte.to_N b).

Definition zbyte (z : Z) : Byte.byte :=
  match Byte.of_N (Z.to_N (z mod 256)) with
  | Some b => b
  | None => Byte.x00
  end.

(** A store that holds [data] from offset [base] on (a MemReader or a file). *)
Definition bytesAt (base : Z) (data : list Z) : Reader :=
  fun o => if o <? base then None
           else zbyte <$> (data !! Z.to_nat (o - base)).

(** [readObj(off, buf, count)]: all [count] bytes or an exception. *)
Fixpoint readObj (rd : Reader) (o : Z) (count : nat) : outcome (list Z) :=
  match count with
  | O => Ok []
  | S n =>
      match rd o with
      | None => Throw
      | Some b => obind (readObj rd (u64 (o + 1)) n) (fun bs => Ok (byteZ b :: bs))
      end
  end.

(** ** DWARFReader: a cursor over a slice of a store *)

Record DWARFReader : Type := mkReader {
  io : Reader;
  off : Z;
  rend : Z;          (* the field [end] *)
  addrLen : Z;
  rversion : Z       (* the field [version] *)
}.

Definition ELF_BITS : Z := 64.

(** [DWARFReader(io, version, off, size)] *)
Definition newReader (rd : Reader) (ver o size : Z) : DWARFReader :=
  mkReader rd (u64 o) (u64 (o + size)) (ELF_BITS / 8) ver.

Definition setOffset (r : DWARFReader) (o : Z) : DWARFReader :=
  mkReader (io r) (u64 o) (rend r) (addrLen r) (rversion r).

Definition skip (r : DWARFReader) (amount : Z) : DWARFReader :=
  setOffset r (off r + amount).

Definition empty (r : DWARFReader) : bool := off r =? rend r.

Definition setVersion (r : DWARFReader) (v : Z) : DWARFReader :=
  mkReader (io r) (off r) (rend r) (addrLen r) v.

Definition setAddrLen (r : DWARFReader) (a : Z) : DWARFReader :=
  mkReader (io r) (off r) (rend r) a (rversion r).

(** Reading methods take the cursor and give the value with the advanced
    cursor. *)
Definition M (A : Type) : Type := DWARFReader -> outcome (A * DWARFReader).

Definition ret {A : Type} (a : A) : M A := fun r => Ok (a, r).

Definition bind {A B : Type} (m : M A) (k : A -> M B) : M B :=
  fun r => obind (m r) (fun '(a, r') => k a r').

Declare Scope reader_scope.
Delimit Scope reader_scope with reader.
Notation "'let*' x ':=' m 'in' k" := (bind m (fun x => k))
  (at level 10, x pattern, m at level 100, k at level 200) : reader_scope.
Local Open Scope reader_scope.

(** [io->readObj(off, buf, n); off += n] *)
Definition take (n : nat) : M (list Z) :=
  fun r => obind (readObj (io r) (off r) n)
                 (fun bs => Ok (bs, skip r (Z.of_nat n))).

(** [rc = rc << 8 | p[-i]] from the last byte read down to the first. *)
Definition le_combine (bs : list Z) : Z :=
  fold_right (fun b rc => u64 (Z.lor (Z.shiftl rc 8) b)) 0 bs.

(** [DWARFReader::getuint(len)] *)
Definition getuint (len : Z) : M Z :=
  fun r =>
    if 16 <? len then Throw
    else if len <? 0 then Undef
    else bind (take (Z.to_nat len)) (fun bs => ret (le_combine bs)) r.

(** [DWARFReader::getu32()]: [q[0] | q[1] << 8 | q[2] << 16 | q[3] << 24] *)
Definition getu32 : M Z :=
  let* bs := take 4 in
  match bs with
  | [q0; q1; q2; q3] =>
      ret (u32 (Z.lor (Z.lor (Z.lor q0 (Z.shiftl q1 8)) (Z.shiftl q2 16))
                      (Z.shiftl q3 24)))
  | _ => fun _ => Undef
  end.

(** [DWARFReader::getu16()] *)
Definition getu16 : M Z :=
  let* bs := take 2 in
  match bs with
  | [q0; q1] => ret (u16 (Z.lor q0 (Z.shiftl q1 8)))
  | _ => fun _ => Undef
  end.

(** [DWARFReader::getu8()] *)
Definition getu8 : M Z :=
  let* bs := take 1 in
  match bs with
  | [q] => ret q
  | _ => fun _ => Undef
  end.

(** [DWARFReader::gets8()] *)
Definition gets8 : M Z :=
  let* q := getu8 in ret (s8 q).

(** [DWARFReader::getstring()].

    [for (len = 0;; ++len) { read c; off += 1; if (c == 0) break; s << c;
      if (len > 2000) abort(); }]

    The countdown [k] is [2001 - len]: the test [len > 2000] succeeds
    exactly when [k] has reached zero. *)
Fixpoint getstring_loop (k : nat) (rd : Reader) (o : Z) (s : list Z)
  : outcome (list Z * Z) :=
  match rd o with
  | None => Throw
  | Some c =>
      let o' := u64 (o + 1) in
      if byteZ c =? 0 then Ok (s, o')
      else
        let s' := s ++ [byteZ c] in
        match k with
        | O => Abort
        | S k' => getstring_loop k' rd o' s'
        end
  end.

Definition getstring : M (list Z) :=
  fun r => obind (getstring_loop 2001 (io r) (off r) [])
                 (fun '(s, o') => Ok (s, setOffset r o')).

(** [DWARFReader::getuleb128shift(&shift, isSigned)].

    [for (result = 0, *shift = 0;;) { readObj(off++, &byte);
       result |= (byte & 0x7f) << *shift; *shift += 7;
       if ((byte & 0x80) == 0) break; }
     isSigned = (byte & 0x40) != 0;]

    [(byte & 0x7f) << *shift] is a shift of an [int]: its value is the
    32-bit two's complement one, widened (with its sign) to [uintmax_t] by
    the [|=]; a shift count of 32 or more is undefined.  The countdown [k]
    is the number of groups whose shift count is still below 32, that is
    [shift = 7 * (5 - k)]. *)
Fixpoint getuleb128shift_loop (k : nat) (rd : Reader) (o result shift : Z)
  : outcome ((Z * Z * bool) * Z) :=
  match rd o with
  | None => Throw
  | Some b =>
      let byte := byteZ b in
      let o' := u64 (o + 1) in
      match k with
      | O => Undef
      | S k' =>
          let result' :=
            Z.lor result (u64 (s32 (Z.shiftl (Z.land byte 0x7f) shift))) in
          let shift' := shift + 7 in
          if Z.land byte 0x80 =? 0
          then Ok ((result', shift', negb (Z.land byte 0x40 =? 0)), o')
          else getuleb128shift_loop k' rd o' result' shift'
      end
  end.

Definition getuleb128shift : M (Z * Z * bool) :=
  fun r => obind (getuleb128shift_loop 5 (io r) (off r) 0 0)
                 (fun '(v, o') => Ok (v, setOffset r o')).

(** [DWARFReader::getuleb128()] *)
Definition getuleb128 : M Z :=
  let* (result, _, _) := getuleb128shift in ret result.

(** [DWARFReader::getsleb128()]:
    [if (isSigned) result |= - ((uintmax_t)1 << shift);] *)
Definition getsleb128 : M Z :=
  let* (result, shift, isSigned) := getuleb128shift in
  ret (s64 (if isSigned : bool
            then Z.lor result (u64 (- Z.shiftl 1 shift))
            else result)).

(** [DWARFReader::getlength()] *)
Definition getlength : M Z :=
  let* length := getu32 in
  if 0xfffffff0 <=? length then
    if length =? 0xffffffff then getuint 8
    else ret 0
  else ret length.

(** ** Line-number program ([DwarfLineInfo::build]) *)

(** Modelled from the spec: the enumerators of [dwarf/line_s.h] and
    [dwarf/line_e.h], which are not among the sources; they carry the
    values the DWARF standard assigns to the opcodes the specification
    names. *)

Definition DW_LNS_copy : Z := 1.
Definition DW_LNS_advance_pc : Z := 2.
Definition DW_LNS_advance_line : Z := 3.
Definition DW_LNS_set_file : Z := 4.
Definition DW_LNS_set_column : Z := 5.
Definition DW_LNS_negate_stmt : Z := 6.
Definition DW_LNS_set_basic_block : Z := 7.
Definition DW_LNS_const_add_pc : Z := 8.
Definition DW_LNS_fixed_advance_pc : Z := 9.

Definition DW_LNE_end_sequence : Z := 1.
Definition DW_LNE_set_address : Z := 2.
Definition DW_LNE_set_discriminator : Z := 4.

(** [struct DwarfLineState].  [file] points into the [files] vector; the
    embedding keeps the index of the entry it points to.  The three flags
    are one-bit fields. *)
Record DwarfLineState : Type := mkLineState {
  st_addr : Z;
  st_file : Z;
  st_line : Z;
  st_column : Z;
  is_stmt : Z;
  basic_block : Z;
  end_sequence : Z
}.

(** What the loop of [build] uses of [DwarfLineInfo], of the locals decoded
    from the header and of the unit. *)
Record DwarfLineInfo : Type := mkLineInfo {
  default_is_stmt : Z;     (* int, read with getu8 *)
  opcode_base : Z;         (* uint8_t *)
  min_insn_length : Z;     (* int, read with getu8 *)
  line_base : Z;           (* int, read with gets8 *)
  line_range : Z;          (* int, read with getu8 *)
  unit_addrlen : Z         (* unit->addrlen *)
}.

(** [DwarfLineState::reset(li)] *)
Definition reset (li : DwarfLineInfo) : DwarfLineState :=
  {| st_addr := 0;
     st_file := 1;
     st_line := 1;
     st_column := 0;
     is_stmt := default_is_stmt li mod 2;
     basic_block := 0;
     end_sequence := 0 |}.

Definition set_addr (st : DwarfLineState) (a : Z) : DwarfLineState :=
  mkLineState a (st_file st) (st_line st) (st_column st) (is_stmt st)
              (basic_block st) (end_sequence st).
Definition set_file (st : DwarfLineState) (f : Z) : DwarfLineState :=
  mkLineState (st_addr st) f (st_line st) (st_column st) (is_stmt st)
              (basic_block st) (end_sequence st).
Definition set_line (st : DwarfLineState) (l : Z) : DwarfLineState :=
  mkLineState (st_addr st) (st_file st) l (st_column st) (is_stmt st)
              (basic_block st) (end_sequence st).
Definition set_column (st : DwarfLineState) (c : Z) : DwarfLineState :=
  mkLineState (st_addr st) (st_file st) (st_line st) c (is_stmt st)
              (basic_block st) (end_sequence st).
Definition set_is_stmt (st : DwarfLineState) (b : Z) : DwarfLineState :=
  mkLineState (st_addr st) (st_file st) (st_line st) (st_column st) b
              (basic_block st) (end_sequence st).
Definition set_basic_block (st : DwarfLineState) (b : Z) : DwarfLineState :=
  mkLineState (st_addr st) (st_file st) (st_line st) (st_column st)
              (is_stmt st) b (end_sequence st).
Definition set_end_sequence (st : DwarfLineState) (b : Z) : DwarfLineState :=
  mkLineState (st_addr st) (st_file st) (st_line st) (st_column st)
              (is_stmt st) (basic_block st) b.

(** The state of the loop: the registers and the matrix built so far
    ([dwarfStateAddRow] appends a copy of the registers). *)
Definition LineVM : Type := (DwarfLineState * list DwarfLineState)%type.

Definition dwarfStateAddRow (vm : LineVM) : LineVM :=
  (vm.1, vm.2 ++ [vm.1]).

Definition fail {A : Type} (o : outcome (A * DWARFReader)) : M A := fun _ => o.

(** One trip through the body of [while (r.getOffset() < end)]. *)
Definition lineStep (li : DwarfLineInfo) (vm : LineVM) : M LineVM :=
  let '(state, matrix) := vm in
  let* c := getu8 in
  if opcode_base li <=? c then
    (* Special opcode *)
    let c := u32 (c - opcode_base li) in
    if line_range li =? 0 then fail Undef else
    let addrIncr := s32 (c / line_range li) in
    let lineIncr := s32 (c mod line_range li + line_base li) in
    let state := set_addr state (u64 (st_addr state + addrIncr * min_insn_length li)) in
    let state := set_line state (u32 (st_line state + lineIncr)) in
    let '(state, matrix) := dwarfStateAddRow (state, matrix) in
    ret (set_basic_block state 0, matrix)
  else if c =? 0 then
    (* Extended opcode *)
    let* len := getuleb128 in
    let len := s32 len in
    let* code := getu8 in
    if code =? DW_LNE_end_sequence then
      let state := set_end_sequence state 1 in
      let '(_, matrix) := dwarfStateAddRow (state, matrix) in
      ret (reset li, matrix)
    else if code =? DW_LNE_set_address then
      let* a := getuint (unit_addrlen li) in
      ret (set_addr state a, matrix)
    else if code =? DW_LNE_set_discriminator then
      let* _ := getuleb128 in
      ret (state, matrix)
    else fail Abort
  else
    (* Standard opcode *)
    if c =? DW_LNS_const_add_pc then
      if line_range li =? 0 then fail Undef else
      ret (set_addr state
             (u64 (st_addr state
                   + ((255 - opcode_base li) / line_range li) * min_insn_length li)),
           matrix)
    else if c =? DW_LNS_advance_pc then
      let* n := getuleb128 in
      ret (set_addr state (u64 (st_addr state + u64 (n * min_insn_length li))), matrix)
    else if c =? DW_LNS_fixed_advance_pc then
      let* n := getu16 in
      ret (set_addr state (u64 (st_addr state + n * min_insn_length li)), matrix)
    else if c =? DW_LNS_advance_line then
      let* n := getsleb128 in
      ret (set_line state (u32 (st_line state + n)), matrix)
    else if c =? DW_LNS_set_file then
      let* n := getuleb128 in
      ret (set_file state n, matrix)
    else if c =? DW_LNS_copy then
      let '(state, matrix) := dwarfStateAddRow (state, matrix) in
      ret (set_basic_block state 0, matrix)
    else if c =? DW_LNS_set_column then
      let* n := getuleb128 in
      ret (set_column state (u32 n), matrix)
    else if c =? DW_LNS_negate_stmt then
      ret (set_is_stmt state (if is_stmt state =? 0 then 1 else 0), matrix)
    else if c =? DW_LNS_set_basic_block then
      ret (set_basic_block state 1, matrix)
    else fail Abort.

(** [while (r.getOffset() < end) { ... }], [fuel] trips at most. *)
Fixpoint lineLoop (fuel : nat) (li : DwarfLineInfo) (endoff : Z) (vm : LineVM)
  : M LineVM :=
  fun r =>
    if off r <? endoff then
      match fuel with
      | O => OutOfFuel
      | S fuel' => bind (lineStep li vm) (lineLoop fuel' li endoff) r
      end
    else Ok (vm, r).

(** [DwarfLineState state(this);] followed by the loop. *)
Definition lineProgram (fuel : nat) (li : DwarfLineInfo) (endoff : Z) : M LineVM :=
  lineLoop fuel li endoff (reset li, []).

(** ** Call frame information: rows, CIEs, FDEs *)

Definition MAXREG : Z := 128.
Definition DWARF_MAXREG : Z := 128.

Inductive DwarfRegisterType : Type :=
| UNDEF | SAME | OFFSET | VAL_OFFSET | EXPRESSION | VAL_EXPRESSION | REG | ARCH.

#[global] Instance DwarfRegisterType_eq_dec : EqDecision DwarfRegisterType.
Proof. solve_decision. Defined.

(** [struct DwarfRegisterUnwind]: a type and a union.  The members [same],
    [offset], [reg] and [arch] of the union and [expression.offset] share
    the first word, [expression.length] is the second. *)
Record DwarfRegisterUnwind : Type := mkUnwind {
  type : DwarfRegisterType;
  u_word0 : Z;
  u_word1 : Z
}.

Definition u_offset (x : DwarfRegisterUnwind) : Z := u_word0 x.
Definition u_reg (x : DwarfRegisterUnwind) : Z := u_word0 x.
Definition u_expression_offset (x : DwarfRegisterUnwind) : Z := u_word0 x.
Definition u_expression_length (x : DwarfRegisterUnwind) : Z := u_word1 x.

Definition set_type (x : DwarfRegisterUnwind) (t : DwarfRegisterType) :=
  mkUnwind t (u_word0 x) (u_word1 x).
Definition set_u_offset (x : DwarfRegisterUnwind) (v : Z) :=
  mkUnwind (type x) v (u_word1 x).
Definition set_u_expression (x : DwarfRegisterUnwind) (o len : Z) :=
  mkUnwind (type x) o len.

(** [struct DwarfCallFrame] *)
Record DwarfCallFrame : Type := mkFrame {
  registers : list DwarfRegisterUnwind;    (* MAXREG of them *)
  cfaReg : Z;                              (* int *)
  cfaValue : DwarfRegisterUnwind
}.

(** [DwarfCallFrame::DwarfCallFrame()].  The constructor writes the types
    only; the unions start out indeterminate and hold 0 here. *)
Definition newCallFrame : DwarfCallFrame :=
  {| registers := replicate (Z.to_nat MAXREG) (mkUnwind UNDEF 0 0);
     cfaReg := 0;
     cfaValue := mkUnwind UNDEF 0 0 |}.

(** [a[i]] and [a[i] = v] on an array of [MAXREG] elements; an index
    outside the array is undefined. *)
Definition arrayGet {A : Type} (a : list A) (i : Z) : outcome A :=
  if (0 <=? i) && (i <? MAXREG) then
    match a !! Z.to_nat i with
    | Some x => Ok x
    | None => Undef
    end
  else Undef.

Definition arraySet {A : Type} (a : list A) (i : Z) (v : A) : outcome (list A) :=
  if (0 <=? i) && (i <? MAXREG) && (Z.to_nat i <? length a)%nat
  then Ok (<[Z.to_nat i := v]> a)
  else Undef.

(** [frame.registers[reg] = f(frame.registers[reg])] *)
Definition updReg (frame : DwarfCallFrame) (reg : Z)
    (f : DwarfRegisterUnwind -> DwarfRegisterUnwind) : outcome DwarfCallFrame :=
  obind (arrayGet (registers frame) reg) (fun x =>
  obind (arraySet (registers frame) reg (f x)) (fun regs =>
  Ok (mkFrame regs (cfaReg frame) (cfaValue frame)))).

Definition set_cfaReg (frame : DwarfCallFrame) (r : Z) : DwarfCallFrame :=
  mkFrame (registers frame) r (cfaValue frame).
Definition set_cfaValue (frame : DwarfCallFrame) (v : DwarfRegisterUnwind)
  : DwarfCallFrame :=
  mkFrame (registers frame) (cfaReg frame) v.

(** [enum DwarfCFAInstruction] of dwarf.h *)
Definition DW_CFA_advance_loc : Z := 0x40.
Definition DW_CFA_offset : Z := 0x80.
Definition DW_CFA_restore : Z := 0xc0.
Definition DW_CFA_nop : Z := 0.
Definition DW_CFA_set_loc : Z := 1.
Definition DW_CFA_advance_loc1 : Z := 0x02.
Definition DW_CFA_advance_loc2 : Z := 0x03.
Definition DW_CFA_advance_loc4 : Z := 0x04.
Definition DW_CFA_offset_extended : Z := 0x05.
Definition DW_CFA_restore_extended : Z := 0x06.
Definition DW_CFA_undefined : Z := 0x07.
Definition DW_CFA_same_value : Z := 0x08.
Definition DW_CFA_register : Z := 0x09.
Definition DW_CFA_remember_state : Z := 0x0a.
Definition DW_CFA_restore_state : Z := 0x0b.
Definition DW_CFA_def_cfa : Z := 0x0c.
Definition DW_CFA_def_cfa_register : Z := 0x0d.
Definition DW_CFA_def_cfa_offset : Z := 0x0e.
Definition DW_CFA_def_cfa_expression : Z := 0x0f.
Definition DW_CFA_expression : Z := 0x10.
Definition DW_CFA_def_cfa_sf : Z := 0x12.
Definition DW_CFA_def_cfa_offset_sf : Z := 0x13.
Definition DW_CFA_val_expression : Z := 0x16.

(** What [execInsns] and the unwinder use of [struct DwarfCIE]. *)
Record DwarfCIE : Type := mkCIE {
  codeAlign : Z;         (* unsigned *)
  dataAlign : Z;         (* int *)
  rar : Z;               (* int *)
  cie_instructions : Z;  (* the field [instructions] *)
  cie_end : Z            (* the field [end] *)
}.

(** [struct DwarfFDE]; [cie] points to an element of the [cies] map. *)
Record DwarfFDE : Type := mkFDE {
  cie : DwarfCIE;
  iloc : Z;
  irange : Z;
  fde_instructions : Z;
  fde_end : Z
}.

Definition lift {A : Type} (o : outcome A) : M A :=
  fun r => obind o (fun a => Ok (a, r)).

Definition getOffset : M Z := fun r => Ok (off r, r).
Definition getAddrLen : M Z := fun r => Ok (addrLen r, r).
Definition skipM (amount : Z) : M unit := fun r => Ok (tt, skip r amount).

(** The variables of the loop of [execInsns]: the row, the stack of
    remembered rows and the address reached. *)
Record CFAState : Type := mkCFA {
  frame : DwarfCallFrame;
  stack : list DwarfCallFrame;
  addr : Z
}.

Definition withFrame (s : CFAState) (f : DwarfCallFrame) : CFAState :=
  mkCFA f (stack s) (addr s).
Definition withAddr (s : CFAState) (a : Z) : CFAState :=
  mkCFA (frame s) (stack s) a.

(** One trip through the body of the [while] of [DwarfCIE::execInsns]. *)
Definition execInsn (c : DwarfCIE) (dframe : DwarfCallFrame) (s : CFAState)
  : M CFAState :=
  let* rawOp := getu8 in
  let reg := Z.land rawOp 0x3f in
  let op := Z.land rawOp 0xc0 in
  if op =? DW_CFA_advance_loc then
    ret (withAddr s (u64 (addr s + u32 (reg * codeAlign c))))
  else if op =? DW_CFA_offset then
    let* offset := getuleb128 in
    let* f := lift (updReg (frame s) reg (fun x =>
                set_u_offset (set_type x OFFSET) (u64 (offset * dataAlign c)))) in
    ret (withFrame s f)
  else if op =? DW_CFA_restore then
    let* d := lift (arrayGet (registers dframe) reg) in
    let* f := lift (updReg (frame s) reg (fun _ => d)) in
    ret (withFrame s f)
  else
    let op := Z.land rawOp 0x3f in
    if op =? DW_CFA_nop then ret s
    else if op =? DW_CFA_set_loc then
      let* n := getAddrLen in
      let* a := getuint n in
      ret (withAddr s a)
    else if op =? DW_CFA_advance_loc1 then
      let* d := getu8 in
      ret (withAddr s (u64 (addr s + u32 (d * codeAlign c))))
    else if op =? DW_CFA_advance_loc2 then
      let* d := getu16 in
      ret (withAddr s (u64 (addr s + u32 (d * codeAlign c))))
    else if op =? DW_CFA_advance_loc4 then
      let* d := getu32 in
      ret (withAddr s (u64 (addr s + u32 (d * codeAlign c))))
    else if op =? DW_CFA_offset_extended then
      let* reg := getuleb128 in
      let reg := s32 reg in
      let* offset := getuleb128 in
      let* f := lift (updReg (frame s) reg (fun x =>
                  set_u_offset (set_type x OFFSET) (u64 (offset * dataAlign c)))) in
      ret (withFrame s f)
    else if op =? DW_CFA_restore_extended then
      let* reg := getuleb128 in
      let reg := s32 reg in
      let* d := lift (arrayGet (registers dframe) reg) in
      let* f := lift (updReg (frame s) reg (fun _ => d)) in
      ret (withFrame s f)
    else if op =? DW_CFA_undefined then
      let* reg := getuleb128 in
      let* f := lift (updReg (frame s) (s32 reg) (fun x => set_type x UNDEF)) in
      ret (withFrame s f)
    else if op =? DW_CFA_same_value then
      let* reg := getuleb128 in
      let* f := lift (updReg (frame s) (s32 reg) (fun x => set_type x SAME)) in
      ret (withFrame s f)
    else if op =? DW_CFA_register then
      let* reg := getuleb128 in
      let* reg2 := getuleb128 in
      let* f := lift (updReg (frame s) (s32 reg) (fun x =>
                  set_u_offset (set_type x REG) (u64 (s32 reg2)))) in
      ret (withFrame s f)
    else if op =? DW_CFA_remember_state then
      ret (mkCFA (frame s) (frame s :: stack s) (addr s))
    else if op =? DW_CFA_restore_state then
      match stack s with
      | [] => fail Undef
      | f :: rest => ret (mkCFA f rest (addr s))
      end
    else if op =? DW_CFA_def_cfa then
      let* reg := getuleb128 in
      let* offset := getuleb128 in
      let f := set_cfaReg (frame s) (s32 reg) in
      ret (withFrame s
             (set_cfaValue f (set_u_offset (set_type (cfaValue f) OFFSET) offset)))
    else if op =? DW_CFA_def_cfa_sf then
      let* reg := getuleb128 in
      let* offset := getsleb128 in
      let f := set_cfaReg (frame s) (s32 reg) in
      ret (withFrame s
             (set_cfaValue f (set_u_offset (set_type (cfaValue f) OFFSET)
                                           (u64 (offset * dataAlign c)))))
    else if op =? DW_CFA_def_cfa_register then
      let* reg := getuleb128 in
      let f := set_cfaReg (frame s) (s32 reg) in
      ret (withFrame s (set_cfaValue f (set_type (cfaValue f) OFFSET)))
    else if op =? DW_CFA_def_cfa_offset then
      let* offset := getuleb128 in
      let f := frame s in
      ret (withFrame s
             (set_cfaValue f (set_u_offset (set_type (cfaValue f) OFFSET) offset)))
    else if op =? DW_CFA_def_cfa_offset_sf then
      let* offset := getuleb128 in
      let f := frame s in
      ret (withFrame s
             (set_cfaValue f (set_u_offset (set_type (cfaValue f) OFFSET)
                                           (u64 (offset * dataAlign c)))))
    else if op =? DW_CFA_val_expression then
      let* reg := getuleb128 in
      let* _ := lift (arrayGet (registers (frame s)) (s32 reg)) in
      let* len := getuleb128 in
      let* o := getOffset in
      let* f := lift (updReg (frame s) (s32 reg) (fun x =>
                  set_u_expression (set_type x VAL_EXPRESSION) o len)) in
      let* _ := skipM len in
      ret (withFrame s f)
    else if op =? DW_CFA_expression then
      let* reg := getuleb128 in
      let* offset := getuleb128 in
      let* o := getOffset in
      let* f := lift (updReg (frame s) (s32 reg) (fun x =>
                  set_u_expression (set_type x EXPRESSION) o offset)) in
      let* _ := skipM offset in
      ret (withFrame s f)
    else if op =? DW_CFA_def_cfa_expression then
      let* offset := getuleb128 in
      let* o := getOffset in
      let f := frame s in
      let* _ := skipM offset in
      ret (withFrame s
             (set_cfaValue f (set_u_expression (set_type (cfaValue f) EXPRESSION)
                                               o offset)))
    else fail Abort.

(** [while (!r.empty() && addr <= wantAddr) { ... }] *)
Fixpoint execLoop (fuel : nat) (c : DwarfCIE) (dframe : DwarfCallFrame)
    (wantAddr : Z) (s : CFAState) : M CFAState :=
  fun r =>
    if negb (empty r) && (addr s <=? wantAddr) then
      match fuel with
      | O => OutOfFuel
      | S fuel' => bind (execInsn c dframe s) (execLoop fuel' c dframe wantAddr) r
      end
    else Ok (s, r).

(** [DwarfCIE::execInsns(r, version, addr, wantAddr)].  The call it makes
    to itself, with [addr] and [wantAddr] both 0, makes no further one. *)
Definition execInsns (fuel : nat) (c : DwarfCIE) (r : DWARFReader)
    (ver addr0 wantAddr : Z) : outcome (DwarfCallFrame * DWARFReader) :=
  let run dframe fr addr1 want rd :=
    obind (execLoop fuel c dframe want (mkCFA fr [] addr1) rd)
          (fun '(s, rd') => Ok (frame s, rd')) in
  if negb (addr0 =? 0) || negb (wantAddr =? 0) then
    let r2 := newReader (io r) ver (cie_instructions c)
                        (cie_end c - cie_instructions c) in
    obind (run newCallFrame newCallFrame 0 0 r2) (fun '(dframe, _) =>
    run dframe dframe addr0 wantAddr r)
  else run newCallFrame newCallFrame addr0 wantAddr r.

(** ** Frame sections: [DwarfFrameInfo] *)

Inductive FIType : Type := FI_DEBUG_FRAME | FI_EH_FRAME.

#[global] Instance FIType_eq_dec : EqDecision FIType.
Proof. solve_decision. Defined.

(** [struct DwarfFrameInfo].  The constructor keys [cies] by the offset at
    which the CIE's entry starts ([cieoff = reader.getOffset()] taken before
    the entry's length is read). *)
Record DwarfFrameInfo : Type := mkFrameInfo {
  fi_type : FIType;
  cies : gmap Z DwarfCIE;
  fdeList : list DwarfFDE
}.

(** [DwarfFrameInfo::isCIE(cieid)] *)
Definition isCIE (fi : DwarfFrameInfo) (cieid : Z) : bool :=
  (bool_decide (fi_type fi = FI_DEBUG_FRAME) && (cieid =? 0xffffffff))
  || (bool_decide (fi_type fi = FI_EH_FRAME) && (cieid =? 0)).

(** What a call of [decodeCIEFDEHdr] hands back: the value returned, and
    what it stored through [id] and [ciep], if it stored anything
    ([Some None] is a null pointer stored through [ciep]). *)
Record CIEFDEHdr : Type := mkHdr {
  hdr_next : Z;
  hdr_id : option Z;
  hdr_cie : option (option DwarfCIE)
}.

(** [DwarfFrameInfo::decodeCIEFDEHdr(version, r, id, type, ciep)];
    [want_cie] tells whether [ciep] is non-null. *)
Definition decodeCIEFDEHdr (fi : DwarfFrameInfo) (ver : Z) (ty : FIType)
    (want_cie : bool) : M CIEFDEHdr :=
  let* length := getlength in
  if length =? 0 then ret (mkHdr 0 None None)
  else
    let* idoff := getOffset in
    let* id := getuint (if 3 <=? ver then ELF_BITS / 8 else 4) in
    let found :=
      if negb (isCIE fi id) && want_cie
      then Some (cies fi !! (if bool_decide (ty = FI_EH_FRAME)
                             then u64 (idoff - id) else id))
      else None in
    ret (mkHdr (u64 (idoff + length)) (Some id) found).

(** [DwarfFrameInfo::findFDE(addr)] *)
Fixpoint findFDE_in (l : list DwarfFDE) (a : Z) : option DwarfFDE :=
  match l with
  | [] => None
  | fde :: rest =>
      if (iloc fde <=? a) && (a <? u64 (iloc fde + irange fde))
      then Some fde
      else findFDE_in rest a
  end.

Definition findFDE (fi : DwarfFrameInfo) (a : Z) : option DwarfFDE :=
  findFDE_in (fdeList fi) a.

(** ** Expressions ([dwarfEvalExpr]) *)

(** Modelled from the spec: the enumerators of [dwarf/ops.h], which is not
    among the sources, with the values the DWARF standard assigns to the
    operations the specification names. *)

Definition DW_OP_deref : Z := 0x06.
Definition DW_OP_const2s : Z := 0x0b.
Definition DW_OP_const4u : Z := 0x0c.
Definition DW_OP_const4s : Z := 0x0d.
Definition DW_OP_minus : Z := 0x1c.
Definition DW_OP_plus : Z := 0x22.
Definition DW_OP_breg0 : Z := 0x70.
Definition DW_OP_breg31 : Z := 0x8f.

(** [typedef struct { uintmax_t reg[DWARF_MAXREG]; } DwarfRegisters] *)
Definition DwarfRegisters : Type := list Z.

(** [dwarfGetReg(regs, regno)] and [dwarfSetReg(regs, regno, regval)] *)
Definition dwarfGetReg (regs : DwarfRegisters) (regno : Z) : outcome Z :=
  arrayGet regs regno.
Definition dwarfSetReg (regs : DwarfRegisters) (regno : Z) (regval : Z)
  : outcome DwarfRegisters :=
  arraySet regs regno regval.

(** [Elf_Addr value; io->readObj(addr, &value)]: eight bytes, the least
    significant first. *)
Definition readWord (rd : Reader) (a : Z) : outcome Z :=
  obind (readObj rd a 8) (fun bs => Ok (le_combine bs)).

(** One trip through the [while (!r.empty())] of [dwarfEvalExpr]. *)
Definition evalOp (pio : Reader) (regs : DwarfRegisters) (stk : list Z)
  : M (list Z) :=
  let* op := getu8 in
  if op =? DW_OP_deref then
    match stk with
    | [] => fail Undef
    | a :: rest => let* value := lift (readWord pio a) in ret (value :: rest)
    end
  else if op =? DW_OP_const2s then
    let* v := getu16 in ret (u64 (s16 v) :: stk)
  else if op =? DW_OP_const4u then
    let* v := getu32 in ret (v :: stk)
  else if op =? DW_OP_const4s then
    let* v := getu32 in ret (u64 (s32 v) :: stk)
  else if op =? DW_OP_minus then
    match stk with
    | top :: second :: rest => ret (u64 (second - top) :: rest)
    | _ => fail Undef
    end
  else if op =? DW_OP_plus then
    match stk with
    | top :: second :: rest => ret (u64 (second + top) :: rest)
    | _ => fail Undef
    end
  else if (DW_OP_breg0 <=? op) && (op <=? DW_OP_breg31) then
    let* offset := getsleb128 in
    let* v := lift (arrayGet regs (op - DW_OP_breg0)) in
    ret (u64 (v + offset) :: stk)
  else fail Abort.

Fixpoint evalLoop (fuel : nat) (pio : Reader) (regs : DwarfRegisters)
    (stk : list Z) : M (list Z) :=
  fun r =>
    if negb (empty r) then
      match fuel with
      | O => OutOfFuel
      | S fuel' => bind (evalOp pio regs stk) (evalLoop fuel' pio regs) r
      end
    else Ok (stk, r).

(** [dwarfEvalExpr(proc, r, frame, stack)]: the value it returns and the
    stack it leaves behind, the result popped off. *)
Definition dwarfEvalExpr (fuel : nat) (pio : Reader) (r : DWARFReader)
    (regs : DwarfRegisters) (stk : list Z) : outcome (Z * list Z) :=
  obind (evalLoop fuel pio regs stk r) (fun '(stk', _) =>
  match stk' with
  | [] => Undef
  | rv :: rest => Ok (rv, rest)
  end).

(** [DwarfInfo::getCFA(proc, frame, regs)].  [elfio] and [ver] are
    [elf->io] and [version] of the [DwarfInfo]. *)
Definition getCFA (fuel : nat) (elfio pio : Reader) (ver : Z)
    (fr : DwarfCallFrame) (regs : DwarfRegisters) : outcome Z :=
  match type (cfaValue fr) with
  | SAME | VAL_OFFSET | VAL_EXPRESSION | REG | UNDEF | ARCH => Abort
  | OFFSET =>
      obind (dwarfGetReg regs (cfaReg fr)) (fun v =>
      Ok (u64 (v + u_offset (cfaValue fr))))
  | EXPRESSION =>
      let r := newReader elfio ver (u_expression_offset (cfaValue fr))
                         (u_expression_length (cfaValue fr)) in
      obind (dwarfEvalExpr fuel pio r regs []) (fun '(_, stk) =>
      match stk with
      | [] => Undef
      | rv :: _ => Ok rv
      end)
  end.

(** ** The unwinder ([dwarfUnwind]) *)

(** What the unwinder uses of a [DwarfInfo]. *)
Record DwarfInfo : Type := mkDwarfInfo {
  di_version : Z;
  debugFrame : option DwarfFrameInfo;
  ehFrame : option DwarfFrameInfo
}.

(** An object of the process: where it is loaded, its [PT_LOAD] segments
    ([p_vaddr], [p_memsz]), its file and its [DwarfInfo]
    ([Process::getDwarf]). *)
Record LoadedObject : Type := mkObject {
  reloc : Z;
  segments : list (Z * Z);
  elfio : Reader;
  dwarf : DwarfInfo
}.

Record Process : Type := mkProcess {
  objects : list LoadedObject;
  pio : Reader                 (* [Process::io], the memory of the process *)
}.

(** [Process::findObject(addr)] of process.cc: the first object one of
    whose [PT_LOAD] segments covers the address. *)
Definition covers (a : Z) (o : LoadedObject) : bool :=
  let addrReloc := u64 (a - reloc o) in
  existsb (fun '(p_vaddr, p_memsz) =>
             (p_vaddr <=? addrReloc) && (addrReloc <? u64 (p_vaddr + p_memsz)))
          (segments o).

Definition findObject (p : Process) (a : Z) : option LoadedObject :=
  List.find (covers a) (objects p).

Section Arch.

(** [dwarf/archreg.h] is not among the sources: [dwarfIsArchReg] (the
    register numbers its [REGMAP] lines list) and [CFA_RESTORE_REGNO]
    ([None] where the header does not define it) are taken as given. *)
Variable dwarfIsArchReg : Z -> bool.
Variable CFA_RESTORE_REGNO : option Z.

(** The body of [for (i = 0; i < MAXREG; i++)] in [dwarfUnwind]. *)
Definition unwindReg (fuel : nat) (p : Process) (o : LoadedObject)
    (fr : DwarfCallFrame) (regs : DwarfRegisters) (cfa : Z)
    (newRegs : DwarfRegisters) (i : Z) : outcome DwarfRegisters :=
  if negb (dwarfIsArchReg i) then Ok newRegs
  else
    obind (arrayGet (registers fr) i) (fun unwind =>
    match type unwind with
    | UNDEF | SAME =>
        obind (dwarfGetReg regs i) (fun v => dwarfSetReg newRegs i v)
    | OFFSET =>
        obind (readWord (pio p) (u64 (cfa + u_offset unwind))) (fun reg =>
        dwarfSetReg newRegs i reg)
    | REG =>
        obind (dwarfGetReg regs (s32 (u_reg unwind))) (fun v =>
        dwarfSetReg newRegs i v)
    | VAL_EXPRESSION | EXPRESSION =>
        let reader := newReader (elfio o) (di_version (dwarf o))
                        (u_expression_offset unwind)
                        (u_expression_length unwind) in
        obind (dwarfEvalExpr fuel (pio p) reader regs [cfa]) (fun '(_, stk) =>
        match stk with
        | [] => Undef
        | val :: _ =>
            obind (if bool_decide (type unwind = EXPRESSION)
                   then readWord (pio p) val else Ok val) (fun _ =>
            dwarfSetReg newRegs i val)
        end)
    | VAL_OFFSET | ARCH => Abort
    end).

Fixpoint unwindRegs (fuel : nat) (p : Process) (o : LoadedObject)
    (fr : DwarfCallFrame) (regs : DwarfRegisters) (cfa : Z)
    (newRegs : DwarfRegisters) (idx : list Z) : outcome DwarfRegisters :=
  match idx with
  | [] => Ok newRegs
  | i :: rest =>
      obind (unwindReg fuel p o fr regs cfa newRegs i) (fun newRegs' =>
      unwindRegs fuel p o fr regs cfa newRegs' rest)
  end.

(** [dwarfUnwind(p, regs, procaddr)]: the value returned and the
    registers left in [*regs].  [newRegs] starts out indeterminate in the
    source and holds 0 here. *)
Definition dwarfUnwind (fuel : nat) (p : Process) (regs : DwarfRegisters)
    (procaddr : Z) : outcome (Z * DwarfRegisters) :=
  match findObject p procaddr with
  | None => Undef              (* members of a null object are read *)
  | Some o =>
      let objaddr := u64 (procaddr - reloc o) in
      let fde :=
        match match debugFrame (dwarf o) with
              | Some fi => findFDE fi objaddr
              | None => None
              end with
        | Some fde => Some fde
        | None =>
            match ehFrame (dwarf o) with
            | None => None
            | Some fi => findFDE fi objaddr
            end
        end in
      match fde with
      | None => Ok (0, regs)
      | Some fde =>
          let r := newReader (elfio o) (di_version (dwarf o))
                     (fde_instructions fde)
                     (fde_end fde - fde_instructions fde) in
          obind (execInsns fuel (cie fde) r (di_version (dwarf o))
                           (iloc fde) (u64 (objaddr - 1))) (fun '(fr, _) =>
          obind (getCFA fuel (elfio o) (pio p) (di_version (dwarf o)) fr regs)
                (fun cfa =>
          obind (unwindRegs fuel p o fr regs cfa
                   (replicate (Z.to_nat DWARF_MAXREG) 0)
                   (map Z.of_nat (seq 0 (Z.to_nat MAXREG)))) (fun newRegs =>
          obind (match CFA_RESTORE_REGNO with
                 | None => Ok newRegs
                 | Some n =>
                     obind (arrayGet (registers fr) n) (fun unwind =>
                     if bool_decide (type unwind = UNDEF)
                     then dwarfSetReg newRegs n cfa
                     else Ok newRegs)
                 end) (fun newRegs =>
          obind (dwarfGetReg newRegs (rar (cie fde))) (fun ra =>
          Ok (ra, newRegs))))))
      end
  end.

End Arch.

(** ** The lazily built indexes of [DwarfInfo] *)

Record DwarfARange : Type := mkARange {
  ar_start : Z;
  ar_length : Z
}.

Record DwarfARangeSet : Type := mkARangeSet {
  ars_length : Z;          (* uint32_t *)
  ars_version : Z;         (* uint16_t *)
  debugInfoOffset : Z;     (* uint32_t *)
  addrlen : Z;             (* uint8_t *)
  segdesclen : Z;          (* uint8_t *)
  ranges_of : list DwarfARange
}.

(** [while (r.getOffset() < next) { start = getuint(addrlen); length =
    getuint(addrlen); if (start == 0 && length == 0) break; push_back }] *)
Fixpoint arangeLoop (fuel : nat) (al next : Z) (acc : list DwarfARange)
  : M (list DwarfARange) :=
  fun r =>
    if off r <? next then
      match fuel with
      | O => OutOfFuel
      | S fuel' =>
          (let* start := getuint al in
           let* length := getuint al in
           if (start =? 0) && (length =? 0) then ret acc
           else arangeLoop fuel' al next (acc ++ [mkARange start length])) r
      end
    else Ok (acc, r).

(** [DwarfARangeSet::DwarfARangeSet(r)] *)
Definition newARangeSet (fuel : nat) : M DwarfARangeSet :=
  let* start := getOffset in
  let* length := getlength in
  let length := u32 length in
  let* o := getOffset in
  let next := u64 (o + length) in
  let* ver := getu16 in
  let* _ := (fun r => Ok (tt, setVersion r ver)) in
  let* dio := getu32 in
  let* al := getu8 in
  let* _ := (fun r => Ok (tt, setAddrLen r al)) in
  let* sdl := getu8 in
  let tupleLen := u32 (al * 2) in
  let* o := getOffset in
  let used := u64 (o - start) in
  if tupleLen =? 0 then fail Undef else
  let align := u32 (tupleLen - used mod tupleLen) in
  let* _ := skipM align in
  let* rs := arangeLoop fuel al next [] in
  ret (mkARangeSet length ver dio al sdl rs).

Record DwarfPubname : Type := mkPubname {
  pn_offset : Z;
  pn_name : list Z
}.

Record DwarfPubnameUnit : Type := mkPubnameUnit {
  pu_length : Z;           (* uint16_t in dwarf.h *)
  pu_version : Z;
  infoOffset : Z;
  infoLength : Z;
  pubnames_of : list DwarfPubname
}.

(** [while (r.getOffset() < next) { offset = getu32(); if (offset == 0)
    break; pubnames.push_back(DwarfPubname(r, offset)); }] *)
Fixpoint pubnameLoop (fuel : nat) (next : Z) (acc : list DwarfPubname)
  : M (list DwarfPubname) :=
  fun r =>
    if off r <? next then
      match fuel with
      | O => OutOfFuel
      | S fuel' =>
          (let* offset := getu32 in
           if offset =? 0 then ret acc
           else
             let* name := getstring in
             pubnameLoop fuel' next (acc ++ [mkPubname offset name])) r
      end
    else Ok (acc, r).

(** [DwarfPubnameUnit::DwarfPubnameUnit(r)] *)
Definition newPubnameUnit (fuel : nat) : M DwarfPubnameUnit :=
  let* length := getu32 in
  let length := u16 length in
  let* o := getOffset in
  let next := u64 (o + length) in
  let* ver := getu16 in
  let* _ := (fun r => Ok (tt, setVersion r ver)) in
  let* io_ := getu32 in
  let* il := getu32 in
  let* ps := pubnameLoop fuel next [] in
  ret (mkPubnameUnit length ver io_ il ps).

(** A section header, as far as it is used: [sh_offset] and [sh_size]. *)
Record ElfSection : Type := mkSection {
  sh_offset : Z;
  sh_size : Z
}.

Section Indexes.

(** The constructor [DwarfUnit(this, reader)] is taken as given: it reads
    the immutable parts of the [DwarfInfo] only and leaves the cursor
    behind the unit. *)
Variable DwarfUnit : Type.
Variable newDwarfUnit : M DwarfUnit.

(** The [mutable] members of [DwarfInfo] and what the accessors read
    besides ([elf->io], [version]).  A null section is [None]. *)
Record Indexes : Type := mkIndexes {
  ix_io : Reader;
  ix_version : Z;
  info : option ElfSection;
  unitsm : gmap Z DwarfUnit;
  arangesh : option ElfSection;
  aranges : list DwarfARangeSet;
  pubnamesh : option ElfSection;
  pubnameUnits : list DwarfPubnameUnit
}.

(** [while (!r.empty()) acc = step(acc)]: how the loop ends and the
    container as the loop leaves it, also when it is left by an
    exception. *)
Fixpoint fillLoop {C X : Type} (fuel : nat) (parse : M X)
    (add : DWARFReader -> X -> C -> C) (r : DWARFReader) (acc : C)
  : outcome unit * C :=
  if empty r then (Ok tt, acc)
  else
    match fuel with
    | O => (OutOfFuel, acc)
    | S fuel' =>
        match parse r with
        | Ok (x, r') => fillLoop fuel' parse add r' (add r x acc)
        | Throw => (Throw, acc)
        | Abort => (Abort, acc)
        | Undef => (Undef, acc)
        | OutOfFuel => (OutOfFuel, acc)
        end
    end.

Definition andThen {C : Type} (o : outcome unit) (c : C) : outcome C :=
  obind o (fun _ => Ok c).

(** [DwarfInfo::units()]: how the call ends and the object after it.
    [unitsm[off] = DwarfUnit(this, reader)] with [off] the offset of the
    unit in the section. *)
Definition units (fuel : nat) (d : Indexes)
  : outcome (gmap Z DwarfUnit) * Indexes :=
  match info d with
  | Some sec =>
      let reader := newReader (ix_io d) (ix_version d)
                              (sh_offset sec) (sh_size sec) in
      let '(o, m) :=
        fillLoop fuel newDwarfUnit
          (fun r u m => <[u64 (off r - sh_offset sec) := u]> m)
          reader (unitsm d) in
      (andThen o m,
       mkIndexes (ix_io d) (ix_version d)
                 (if returns o then None else info d) m
                 (arangesh d) (aranges d) (pubnamesh d) (pubnameUnits d))
  | None => (Ok (unitsm d), d)
  end.

(** [DwarfInfo::ranges()] *)
Definition ranges (fuel : nat) (d : Indexes)
  : outcome (list DwarfARangeSet) * Indexes :=
  match arangesh d with
  | Some sec =>
      let r := newReader (ix_io d) (ix_version d)
                         (sh_offset sec) (sh_size sec) in
      let '(o, l) :=
        fillLoop fuel (newARangeSet fuel) (fun _ x l => l ++ [x])
                 r (aranges d) in
      (andThen o l,
       mkIndexes (ix_io d) (ix_version d) (info d) (unitsm d)
                 (if returns o then None else arangesh d) l
                 (pubnamesh d) (pubnameUnits d))
  | None => (Ok (aranges d), d)
  end.

(** [DwarfInfo::pubnames()] *)
Definition pubnames (fuel : nat) (d : Indexes)
  : outcome (list DwarfPubnameUnit) * Indexes :=
  match pubnamesh d with
  | Some sec =>
      let r := newReader (ix_io d) (ix_version d)
                         (sh_offset sec) (sh_size sec) in
      let '(o, l) :=
        fillLoop fuel (newPubnameUnit fuel) (fun _ x l => l ++ [x])
                 r (pubnameUnits d) in
      (andThen o l,
       mkIndexes (ix_io d) (ix_version d) (info d) (unitsm d)
                 (arangesh d) (aranges d)
                 (if returns o then None else pubnamesh d) l)
  | None => (Ok (pubnameUnits d), d)
  end.

End Indexes.

Arguments mkIndexes {DwarfUnit}.
Arguments ix_io {DwarfUnit}.
Arguments ix_version {DwarfUnit}.
Arguments info {DwarfUnit}.
Arguments unitsm {DwarfUnit}.
Arguments arangesh {DwarfUnit}.
Arguments aranges {DwarfUnit}.
Arguments pubnamesh {DwarfUnit}.
Arguments pubnameUnits {DwarfUnit}.
Arguments units {DwarfUnit}.
Arguments ranges {DwarfUnit}.
Arguments pubnames {DwarfUnit}.

(** The cursor the accessors start from: [DWARFReader(elf->io, version,
    sec->sh_offset, sec->sh_size)]. *)
Definition sectionReader {U : Type} (d : Indexes U) (sec : ElfSection)
  : DWARFReader :=
  newReader (ix_io d) (ix_version d) (sh_offset sec) (sh_size sec).

(** The loop [while (!r.empty())] went through the whole section: starting
    at the cursor [r], the constructor [parse] was called at each cursor of
    [xs] in turn and gave the value beside it, each call starting where the
    one before it had left the cursor, and the last one left the cursor at
    the end. *)
Fixpoint parsedAll {X : Type} (parse : M X) (r : DWARFReader)
    (xs : list (DWARFReader * X)) : Prop :=
  match xs with
  | [] => empty r = true
  | (r0, x) :: xs' =>
      r0 = r /\ empty r = false
      /\ exists r', parse r = Ok (x, r') /\ parsedAll parse r' xs'
  end.

(** ** Vocabulary of the statements *)

(** The store holds the bytes [bs] from offset [o] on. *)
Definition holds (rd : Reader) (o : Z) (bs : list Z) : Prop :=
  forall (i : nat) (b : Z),
    bs !! i = Some b -> byteZ <$> rd (u64 (o + Z.of_nat i)) = Some b.

(** The encoders of the DWARF standard (the sources only decode).
    Unsigned: emit the low seven bits, shift right by seven, set the high
    bit of the byte when more follow.  [n] bounds the number of further
    bytes; ten bytes hold any 64-bit value. *)
Fixpoint encode_uleb128_n (n : nat) (v : Z) : list Z :=
  let byte := Z.land v 0x7f in
  let v' := Z.shiftr v 7 in
  if v' =? 0 then [byte]
  else
    match n with
    | O => [byte]
    | S n' => Z.lor byte 0x80 :: encode_uleb128_n n' v'
    end.

Definition encode_uleb128 (v : Z) : list Z := encode_uleb128_n 9 v.

(** Signed: as above with an arithmetic shift; the last byte is the one
    after which the rest is all sign and agrees with bit 6 of the byte. *)
Fixpoint encode_sleb128_n (n : nat) (v : Z) : list Z :=
  let byte := Z.land v 0x7f in
  let v' := Z.shiftr v 7 in
  if ((v' =? 0) && (Z.land byte 0x40 =? 0))
     || ((v' =? -1) && negb (Z.land byte 0x40 =? 0))
  then [byte]
  else
    match n with
    | O => [byte]
    | S n' => Z.lor byte 0x80 :: encode_sleb128_n n' v'
    end.

Definition encode_sleb128 (v : Z) : list Z := encode_sleb128_n 9 v.

(** A cursor at the start of the bytes [bs], which are all the store holds. *)
Definition readerOver (bs : list Z) : DWARFReader :=
  newReader (bytesAt 0 bs) 2 0 (Z.of_nat (length bs)).

(** The value a call returns, the cursor (or the second result) left
    aside. *)
Definition value {A B : Type} (o : outcome (A * B)) : outcome A :=
  obind o (fun '(a, _) => Ok a).

(** ** Concrete inputs used in the statements *)

(** Modelled from the spec: [dwarf/archreg.h] is not among the sources.
    For x86-64 its [REGMAP] lines list the DWARF registers 0 to 16 (7 is
    rsp, 16 the return address) and the stack pointer, 7, is the
    CFA-restoration register. *)
Definition x86_64_isArchReg (i : Z) : bool := (0 <=? i) && (i <=? 16).
Definition x86_64_CFA_RESTORE_REGNO : option Z := Some 7.

(** The eight bytes of [v], least significant first, at address [a]. *)
Definition wordBytes (v : Z) : list Z :=
  map (fun i => Z.land (Z.shiftr v (8 * Z.of_nat i)) 0xff) (seq 0 8).
Definition wordAt (a v : Z) : Reader := bytesAt a (wordBytes v).

(** A function without frame pointer: its CIE (code alignment 1, data
    alignment -8, return address in register 16) starts with
    [DW_CFA_def_cfa r7, 8; DW_CFA_offset r16, 1], its FDE covers
    0x401000 to 0x402000 and adds no instruction. *)
Definition scn_cie : DwarfCIE := mkCIE 1 (-8) 16 0x100 0x105.
Definition scn_fde : DwarfFDE := mkFDE scn_cie 0x401000 0x1000 0x120 0x120.
Definition scn_elfio : Reader := bytesAt 0x100 [0x0c; 0x07; 0x08; 0x90; 0x01].
Definition scn_object : LoadedObject :=
  mkObject 0 [(0x400000, 0x10000)] scn_elfio
           (mkDwarfInfo 2 None
              (Some (mkFrameInfo FI_EH_FRAME {[ 0xf0 := scn_cie ]} [scn_fde]))).
Definition scn_process (mem : Reader) : Process := mkProcess [scn_object] mem.
Definition scn_regs : DwarfRegisters :=
  <[7%nat := 0x7fffdff8]> (replicate 128 0).

(** An [.eh_frame] section at 0x1000 with a CIE at its start; the cursor
    stands at the entry at 0x1040, whose length is 0x14 and whose CIE_id
    is [id]. *)
Definition ehf_cie : DwarfCIE := mkCIE 1 (-8) 16 0x1011 0x1018.
Definition ehf_info : DwarfFrameInfo :=
  mkFrameInfo FI_EH_FRAME {[ 0x1000 := ehf_cie ]} [].
Definition ehf_entry (id : Z) : DWARFReader :=
  setOffset (newReader (bytesAt 0x1040 [0x14; 0; 0; 0; id; 0; 0; 0]) 2 0x1000 0x58)
            0x1040.

(** The part of the constructor of [DwarfUnit] that moves the cursor:
    [length = r.getlength(); nextoff = r.getOffset() + length; ...
     r.setOffset(nextoff)].  It stands for the constructor where a concrete
    one is needed. *)
Definition unitExtent : M Z :=
  let* length := getlength in
  let* o := getOffset in
  let* _ := (fun r => Ok (tt, setOffset r (o + length))) in
  ret length.

(** A file with three sections: [.debug_aranges] (one set with the range
    0x401000 + 0x1000), [.debug_pubnames] (one unit naming "main") and
    [.debug_info] (one unit of four bytes). *)
Definition ix_aranges_bytes : list Z :=
  [0x2c; 0; 0; 0;  2; 0;  0; 0; 0; 0;  8;  0;  0; 0; 0; 0;
   0; 0x10; 0x40; 0; 0; 0; 0; 0;   0; 0x10; 0; 0; 0; 0; 0; 0;
   0; 0; 0; 0; 0; 0; 0; 0;   0; 0; 0; 0; 0; 0; 0; 0].
Definition ix_pubnames_bytes : list Z :=
  [23; 0; 0; 0;  2; 0;  0; 0; 0; 0;  0x50; 0; 0; 0;
   0x2d; 0; 0; 0;  109; 97; 105; 110; 0;  0; 0; 0; 0].
Definition ix_info_bytes : list Z := [4; 0; 0; 0;  1; 2; 3; 4].
Definition ix_example : Indexes Z :=
  mkIndexes (bytesAt 0 (ix_aranges_bytes ++ ix_pubnames_bytes ++ ix_info_bytes)) 2
            (Some (mkSection 75 8)) ∅
            (Some (mkSection 0 48)) []
            (Some (mkSection 48 27)) [].

(** A [.debug_pubnames] section whose unit is followed by two stray bytes:
    the constructor of a second unit runs off the store. *)
Definition ix_truncated : Indexes Z :=
  mkIndexes (bytesAt 0 (ix_pubnames_bytes ++ [1; 0])) 2
            None ∅ None [] (Some (mkSection 0 29)) [].

(** ** Further parts of the sources *)

(** The [n] low bytes of [v], least significant first: what a little-endian
    writer stores for an [n]-byte integer. *)
Fixpoint leBytes (n : nat) (v : Z) : list Z :=
  match n with
  | O => []
  | S n' => Z.land v 0xff :: leBytes n' (Z.shiftr v 8)
  end.

(** The number a list of bytes stands for, least significant first. *)
Definition le_value (bs : list Z) : Z :=
  fold_right (fun b acc => b + 256 * acc) 0 bs.

(** The cursor [r] with another limit: the same store, offset, address
    size and version, [end] replaced by [e]. *)
Definition withEnd (r : DWARFReader) (e : Z) : DWARFReader :=
  mkReader (io r) (off r) e (addrLen r) (rversion r).

(** What a read gives on [r], carried over to the limit [e]. *)
Definition atEnd {A : Type} (e : Z) (o : outcome (A * DWARFReader))
  : outcome (A * DWARFReader) :=
  obind o (fun '(a, r') => Ok (a, withEnd r' e)).

(** [roundup2(val, align)] of libpstack/elf.h, on [size_t]:
    [val + (align - (val % align)) % align]. *)
Definition roundup2 (val align : Z) : outcome Z :=
  if align =? 0 then Undef
  else Ok (u64 (val + u64 (align - val mod align) mod align)).

(** [elf_hash(name)] of elf.cc.  One trip through its loop:
    [h = (h << 4) + c; if ((g = h & 0xf0000000) != 0) h ^= g >> 24;
     h &= ~g;] with [h] and [g] of type [uint32_t].  [c] is the value of
    the character as an [int] (negative for a byte above 0x7f where [char]
    is signed). *)
Definition elf_hash_step (h c : Z) : Z :=
  let h := u32 (Z.shiftl h 4 + c) in
  let g := Z.land h 0xf0000000 in
  let h := if g =? 0 then h else Z.lxor h (Z.shiftr g 24) in
  Z.land h (u32 (Z.lnot g)).

Definition elf_hash (name : list Z) : Z := fold_left elf_hash_step name 0.

(** [gMaxFrames] of process.cc *)
Definition gMaxFrames : nat := 1024.

(** How a call can end when any object may be thrown: as the calls above
    end, where [Throw] is an exception of a class derived from
    [std::exception] (as [Exception] of util.h is), or by the [throw] of
    another object (the sources also throw [const char *] and [int]). *)
Inductive thrown (A : Type) : Type :=
| Ends (o : outcome A)
| ThrowOther.

Arguments Ends {A}.
Arguments ThrowOther {A}.

Section Walker.

(** [StackFrame::unwind(p)] is not among the sources: it is taken as
    given.  It returns the caller's frame or a null pointer, or ends in
    one of the other ways. *)
Variable StackFrame : Type.
Variable frameUnwind : StackFrame -> thrown (option StackFrame).

(** The loop of [ThreadStack::unwind]:
    [for (frameCount = 0; frameCount < gMaxFrames; frameCount++, prevFrame = frame)
       { stack.push_back(prevFrame); frame = prevFrame->unwind(p);
         if (!frame) break; }]
    inside [try { } catch (const std::exception &)].  [count] is the number
    of trips still allowed.  The handler takes an exception derived from
    [std::exception] and the function returns with the frames recorded so
    far; any other object thrown has no handler and leaves the function. *)
Fixpoint walkLoop (count : nat) (prevFrame : StackFrame)
    (stack : list StackFrame) : thrown (list StackFrame) :=
  match count with
  | O => Ends (Ok stack)
  | S count' =>
      let stack := stack ++ [prevFrame] in
      match frameUnwind prevFrame with
      | Ends (Ok (Some frame)) => walkLoop count' frame stack
      | Ends (Ok None) => Ends (Ok stack)
      | Ends Throw => Ends (Ok stack)
      | Ends Abort => Ends Abort
      | Ends Undef => Ends Undef
      | Ends OutOfFuel => Ends OutOfFuel
      | ThrowOther => ThrowOther
      end
  end.

(** [ThreadStack::unwind(p, regs)], from the first frame on:
    [stack.clear()] and the loop. *)
Definition threadStackUnwind (first : StackFrame) : thrown (list StackFrame) :=
  walkLoop gMaxFrames first [].

(** The frames after [f] were each obtained from the one before it. *)
Fixpoint linked (f : StackFrame) (l : list StackFrame) : Prop :=
  match l with
  | [] => True
  | g :: l' => frameUnwind f = Ends (Ok (Some g)) /\ linked g l'
  end.

(** The walk went from [first], frame by frame and over at most [bound]
    frames, to a frame whose [unwind] ended as [e]. *)
Definition walkedTo (first : StackFrame) (bound : nat)
    (e : thrown (option StackFrame)) : Prop :=
  exists rest,
    linked first rest
    /\ (length (first :: rest) <= bound)%nat
    /\ frameUnwind (List.last rest first) = e.

End Walker.

Arguments walkLoop {StackFrame}.
Arguments threadStackUnwind {StackFrame}.
Arguments linked {StackFrame}.
Arguments walkedTo {StackFrame}.

(** What holds of the value of a call whenever the call returns. *)
Definition whenOk {A B : Type} (P : A -> Prop) (o : outcome (A * B)) : Prop :=
  match o with
  | Ok (a, _) => P a
  | _ => True
  end.

(** [rc = rc << 8 | p[-i]] on an [intmax_t] that starts at [init].  The
    shift of a negative [rc] is taken as that of its two's complement
    representation. *)
Definition se_combine (init : Z) (bs : list Z) : Z :=
  fold_right (fun b rc => s64 (Z.lor (Z.shiftl rc 8) b)) init bs.

(** [DWARFReader::getint(len)]: as [getuint], with
    [rc = (p[-1] & 0x80) ? -1 : 0] before the loop.  [p[-1]] lies before
    the array when [len] is 0. *)
Definition getint (len : Z) : M Z :=
  fun r =>
    if 16 <? len then Throw
    else if len <? 0 then Undef
    else bind (take (Z.to_nat len)) (fun bs =>
           match last bs with
           | None => fail Undef
           | Some top =>
               ret (se_combine (if Z.land top 0x80 =? 0 then 0 else -1) bs)
           end) r.

(** ** Strings and sections of an ELF file (elf.cc) *)

(** [ElfObject::readString(offset)]:
    [for (;;) { io.readObj(offset++, &c); if (c == 0) break; res += c; }].
    [offset] is an [off_t]: incrementing the largest one is undefined. *)
Fixpoint readString_loop (fuel : nat) (rd : Reader) (offset : Z) (res : list Z)
  : outcome (list Z) :=
  match fuel with
  | O => OutOfFuel
  | S fuel' =>
      if 2^63 <=? offset + 1 then Undef
      else
        match rd offset with
        | None => Throw
        | Some c =>
            if byteZ c =? 0 then Ok res
            else readString_loop fuel' rd (offset + 1) (res ++ [byteZ c])
        end
  end.

Definition readString (fuel : nat) (rd : Reader) (offset : Z) : outcome (list Z) :=
  readString_loop fuel rd offset [].

(** [ElfObject::findSectionByName(name)]: the headers are paired with their
    [sh_name]; [sectionStrings] is the offset of the section name table.
    Its declaration is not among the sources: it is taken to have the type
    of the [sh_offset] it is set from, so that
    [sectionStrings + hdr->sh_name] is a 64-bit unsigned sum, converted to
    the [off_t] that [readString] takes. *)
Fixpoint findSectionByName (fuel : nat) (rd : Reader) (sectionStrings : Z)
    (sectionHeaders : list (Z * ElfSection)) (name : list Z)
  : outcome (option ElfSection) :=
  match sectionHeaders with
  | [] => Ok None
  | (sh_name, hdr) :: rest =>
      obind (readString fuel rd (s64 (sectionStrings + sh_name))) (fun s =>
      if bool_decide (name = s) then Ok (Some hdr)
      else findSectionByName fuel rd sectionStrings rest name)
  end.

(** The three sections of [ix_example], each followed by two stray bytes
    and then by a gap in the file: every constructor that starts on the
    stray bytes runs off the store. *)
Definition ix_broken : Indexes Z :=
  mkIndexes (fun o =>
               match bytesAt 0 (ix_aranges_bytes ++ [1; 0]) o with
               | Some b => Some b
               | None =>
                   match bytesAt 100 (ix_pubnames_bytes ++ [1; 0]) o with
                   | Some b => Some b
                   | None => bytesAt 200 (ix_info_bytes ++ [1; 0]) o
                   end
               end) 2
            (Some (mkSection 200 10)) ∅
            (Some (mkSection 0 50)) []
            (Some (mkSection 100 29)) [].

(** ** From an address to source lines ([DwarfInfo::sourceFromAddr]) *)

(** The loop over the matrix of a unit:
    [for (i = begin; i != end; ++i) { if (i->end_sequence) continue;
       next = i + 1; if (i->addr <= addr && next->addr > addr) push (file, line); }].
    [next->addr] is read only when [i->addr <= addr]; behind the last row
    there is nothing to read. *)
Fixpoint matrixScan (matrix : list DwarfLineState) (a : Z) (acc : list (Z * Z))
  : outcome (list (Z * Z)) :=
  match matrix with
  | [] => Ok acc
  | i :: rest =>
      if negb (end_sequence i =? 0) then matrixScan rest a acc
      else if st_addr i <=? a then
        match rest with
        | [] => Undef
        | next :: _ =>
            if a <? st_addr next
            then matrixScan rest a (acc ++ [(st_file i, st_line i)])
            else matrixScan rest a acc
        end
      else matrixScan rest a acc
  end.

Section Source.

(** [DwarfUnit] and its constructor are taken as given, as for the
    indexes; [matrixOf u] is [u.lines.matrix]. *)
Variable DwarfUnit : Type.
Variable newDwarfUnit : M DwarfUnit.
Variable matrixOf : DwarfUnit -> list DwarfLineState.

(** [for (auto &r : rs.ranges) if (r.start <= addr && r.start + r.length > addr)
      { unitI = unitsm.find(rs.debugInfoOffset); if (unitI != end) scan }] *)
Fixpoint scanRanges (m : gmap Z DwarfUnit) (rs : DwarfARangeSet)
    (l : list DwarfARange) (a : Z) (acc : list (Z * Z)) : outcome (list (Z * Z)) :=
  match l with
  | [] => Ok acc
  | r :: rest =>
      if (ar_start r <=? a) && (a <? u64 (ar_start r + ar_length r)) then
        match m !! debugInfoOffset rs with
        | Some u =>
            obind (matrixScan (matrixOf u) a acc) (fun acc' =>
            scanRanges m rs rest a acc')
        | None => scanRanges m rs rest a acc
        end
      else scanRanges m rs rest a acc
  end.

(** [for (auto &rs : ranges())] *)
Fixpoint scanSets (m : gmap Z DwarfUnit) (sets : list DwarfARangeSet) (a : Z)
    (acc : list (Z * Z)) : outcome (list (Z * Z)) :=
  match sets with
  | [] => Ok acc
  | rs :: rest =>
      obind (scanRanges m rs (ranges_of rs) a acc) (fun acc' =>
      scanSets m rest a acc')
  end.

(** [DwarfInfo::sourceFromAddr(addr)]: how the call ends, with the pairs of
    file and line it found, and the object after it. *)
Definition sourceFromAddr (fuel : nat) (d : Indexes DwarfUnit) (a : Z)
  : outcome (list (Z * Z)) * Indexes DwarfUnit :=
  let '(o1, d1) := units newDwarfUnit fuel d in
  match o1 with
  | Ok _ =>
      let '(o2, d2) := ranges fuel d1 in
      (obind o2 (fun sets => scanSets (unitsm d2) sets a []), d2)
  | Throw => (Throw, d1)
  | Abort => (Abort, d1)
  | Undef => (Undef, d1)
  | OutOfFuel => (OutOfFuel, d1)
  end.

End Source.

(** The rows the scan reports, said directly: the rows without
    [end_sequence] whose address and the address of the row behind them
    enclose [a]. *)
Fixpoint rowsAround (matrix : list DwarfLineState) (a : Z) : list (Z * Z) :=
  match matrix with
  | i :: ((next :: _) as rest) =>
      (if (end_sequence i =? 0) && (st_addr i <=? a) && (a <? st_addr next)
       then [(st_file i, st_line i)] else [])
      ++ rowsAround rest a
  | _ => []
  end.

(** ** Layouts, for the statements about decoding *)

(** The cursor [r] reads the store [rd], stands at offset [o], and the
    store holds the bytes [bs] from there on, all below 2^64. *)
Definition cursorAt (r : DWARFReader) (rd : Reader) (o : Z) (bs : list Z) : Prop :=
  io r = rd /\ off r = o /\ 0 <= o /\ o + Z.of_nat (length bs) < 2^64
  /\ holds rd o bs.

(** A set of [.debug_aranges] as the DWARF standard lays it out in the
    32-bit format: the length of what follows it, the version, the offset
    of the unit, the sizes of an address and of a segment selector, padding
    up to a multiple of the size of a tuple, the tuples and a tuple of two
    zeros. *)
Definition encode_arange (n : nat) (x : DwarfARange) : list Z :=
  leBytes n (ar_start x) ++ leBytes n (ar_length x).

Definition encode_arange_body (n : nat) (ver dio sdl : Z) (pad : list Z)
    (rs : list DwarfARange) : list Z :=
  leBytes 2 ver ++ leBytes 4 dio ++ [Z.of_nat n; sdl] ++ pad
  ++ flat_map (encode_arange n) rs ++ repeat 0 (2 * n).

Definition encode_arange_set (n : nat) (ver dio sdl : Z) (pad : list Z)
    (rs : list DwarfARange) : list Z :=
  leBytes 4 (Z.of_nat (length (encode_arange_body n ver dio sdl pad rs)))
  ++ encode_arange_body n ver dio sdl pad rs.

(** ** Frame entries: addresses, FDEs and CIEs *)

(** The [DW_EH_PE_] values of dwarf.h *)
Definition DW_EH_PE_absptr : Z := 0x00.
Definition DW_EH_PE_uleb128 : Z := 0x01.
Definition DW_EH_PE_udata2 : Z := 0x02.
Definition DW_EH_PE_udata4 : Z := 0x03.
Definition DW_EH_PE_udata8 : Z := 0x04.
Definition DW_EH_PE_sleb128 : Z := 0x09.
Definition DW_EH_PE_sdata2 : Z := 0x0A.
Definition DW_EH_PE_sdata4 : Z := 0x0B.
Definition DW_EH_PE_sdata8 : Z := 0x0C.
Definition DW_EH_PE_pcrel : Z := 0x10.

Section Frames.

(** [elf->base]; the member is not declared in the sources given. *)
Variable elfBase : Z.

(** [DwarfInfo::decodeAddress(f, encoding)].  [base] is an [intmax_t]; the
    sum [offset + elf->base] is unsigned and [base += ...] converts back. *)
Definition decodeAddress (encoding : Z) : M Z :=
  let* offset := getOffset in
  let* base :=
    (let e := Z.land encoding 0xf in
     if e =? DW_EH_PE_sdata2 then getint 2
     else if e =? DW_EH_PE_sdata4 then getint 4
     else if e =? DW_EH_PE_sdata8 then getint 8
     else if e =? DW_EH_PE_udata2 then (let* v := getuint 2 in ret (s64 v))
     else if e =? DW_EH_PE_udata4 then (let* v := getuint 4 in ret (s64 v))
     else if e =? DW_EH_PE_udata8 then (let* v := getuint 8 in ret (s64 v))
     else if e =? DW_EH_PE_sleb128 then getsleb128
     else if e =? DW_EH_PE_uleb128 then (let* v := getuleb128 in ret (s64 v))
     else fail Abort) in
  if Z.land encoding 0xf0 =? DW_EH_PE_pcrel
  then ret (s64 (base + offset + elfBase))
  else ret base.

(** [while (alen--) aug.push_back(reader.getu8());] *)
Fixpoint augBytes (alen : nat) : M (list Z) :=
  match alen with
  | O => ret []
  | S alen' =>
      let* b := getu8 in
      let* bs := augBytes alen' in
      ret (b :: bs)
  end.

(** [DwarfFDE::DwarfFDE(info, reader, cie, end)]: the entry and its [aug]
    bytes.  [addressEncoding] and [augmentation] are the members of the
    CIE the constructor reads. *)
Definition newFDE (c : DwarfCIE) (addressEncoding : Z) (augmentation : list Z)
    (end_ : Z) : M (DwarfFDE * list Z) :=
  let* iloc := decodeAddress addressEncoding in
  let* irange := decodeAddress (Z.land addressEncoding 0xf) in
  let* aug :=
    (match augmentation with
     | c0 :: _ =>
         if c0 =? 122 (* 'z' *)
         then (let* alen := getuleb128 in augBytes (Z.to_nat alen))
         else ret []
     | [] => ret []
     end) in
  let* instructions := getOffset in
  ret (mkFDE c (u64 iloc) (u64 irange) instructions end_, aug).

(** The members of a CIE that [execInsns] does not use.  [lsdaEncoding]
    and [personality] are left as they are unless the augmentation names
    them: [None] is such an indeterminate member. *)
Record DwarfCIEAug : Type := mkCIEAug {
  cie_version : Z;
  augmentation : list Z;
  augSize : Z;
  addressEncoding : Z;
  lsdaEncoding : option Z;
  personality : option Z;
  isSignalHandler : bool
}.

(** The loop [while (++it != augmentation.end())] with its [switch] on the
    letter [it] points to: the letters behind the ['z'], up to the first
    unknown one. *)
Fixpoint augLetters (letters : list Z) (a : DwarfCIEAug) : M DwarfCIEAug :=
  match letters with
  | [] => ret a
  | c :: rest =>
      if c =? 80 (* 'P' *) then
        let* encoding := getu8 in
        let* p := decodeAddress encoding in
        augLetters rest
          (mkCIEAug (cie_version a) (augmentation a) (augSize a)
                    (addressEncoding a) (lsdaEncoding a) (Some (u64 p))
                    (isSignalHandler a))
      else if c =? 76 (* 'L' *) then
        let* e := getu8 in
        augLetters rest
          (mkCIEAug (cie_version a) (augmentation a) (augSize a)
                    (addressEncoding a) (Some e) (personality a)
                    (isSignalHandler a))
      else if c =? 82 (* 'R' *) then
        let* e := getu8 in
        augLetters rest
          (mkCIEAug (cie_version a) (augmentation a) (augSize a)
                    e (lsdaEncoding a) (personality a) (isSignalHandler a))
      else if c =? 83 (* 'S' *) then
        augLetters rest
          (mkCIEAug (cie_version a) (augmentation a) (augSize a)
                    (addressEncoding a) (lsdaEncoding a) (personality a) true)
      else if c =? 0 then augLetters rest a
      else ret a
  end.

(** [DwarfCIE::DwarfCIE(info, r, end)] *)
Definition newCIE (end_ : Z) : M (DwarfCIE * DwarfCIEAug) :=
  let* ver := getu8 in
  let* _ := (fun r => Ok (tt, setVersion r ver)) in
  let* aug := getstring in
  let* ca := getuleb128 in
  let* da := getsleb128 in
  let* ra := getu8 in
  let a0 := mkCIEAug ver aug 0 DW_EH_PE_udata4 None None false in
  let* a :=
    (match aug with
     | c0 :: rest =>
         if c0 =? 122 (* 'z' *) then
           let* sz := getuleb128 in
           let* o := getOffset in
           let endaugdata := u64 (o + sz) in
           let* a := augLetters rest
                       (mkCIEAug ver aug sz DW_EH_PE_udata4 None None false) in
           let* o' := getOffset in
           let* _ := (fun r => Ok (tt, if o' =? endaugdata then r
                                       else setOffset r endaugdata)) in
           ret a
         else ret a0
     | [] => ret a0
     end) in
  let* instructions := getOffset in
  let* _ := (fun r => Ok (tt, setOffset r end_)) in
  ret (mkCIE (u32 ca) (s32 da) ra instructions end_, a).

End Frames.

(** ** What one register becomes in [dwarfUnwind] *)

(** The value [after] that the loop of [dwarfUnwind] leaves in
    [newRegs.reg[i]], said rule by rule; [before] is what the slot held when
    the loop started.  [fr] is the row, [regs] the registers of the callee
    and [cfa] its canonical frame address. *)
Definition unwoundAs (isArchReg : Z -> bool) (fuel : nat) (p : Process)
    (o : LoadedObject) (fr : DwarfCallFrame) (regs : DwarfRegisters) (cfa : Z)
    (i : Z) (before after : option Z) : Prop :=
  if negb (isArchReg i) then after = before
  else
    exists unwind, arrayGet (registers fr) i = Ok unwind /\
    match type unwind with
    | UNDEF | SAME =>
        exists v, dwarfGetReg regs i = Ok v /\ after = Some v
    | OFFSET =>
        exists w, readWord (pio p) (u64 (cfa + u_offset unwind)) = Ok w
                  /\ after = Some w
    | REG =>
        exists v, dwarfGetReg regs (s32 (u_reg unwind)) = Ok v /\ after = Some v
    | VAL_EXPRESSION | EXPRESSION =>
        exists rv val rest,
          dwarfEvalExpr fuel (pio p)
            (newReader (elfio o) (di_version (dwarf o))
                       (u_expression_offset unwind) (u_expression_length unwind))
            regs [cfa]
          = Ok (rv, val :: rest)
          /\ after = Some val
    | VAL_OFFSET | ARCH => False
    end.

(** A unit of [.debug_pubnames] as the DWARF standard lays it out in the
    32-bit format: the length of what follows it, the version, the offset
    and the length of the unit in [.debug_info], then for each name the
    offset of its entry and the name with its NUL, and an offset of zero. *)
Definition encode_pubname (x : DwarfPubname) : list Z :=
  leBytes 4 (pn_offset x) ++ pn_name x ++ [0].

Definition encode_pubname_body (ver io_ il : Z) (ps : list DwarfPubname) : list Z :=
  leBytes 2 ver ++ leBytes 4 io_ ++ leBytes 4 il
  ++ flat_map encode_pubname ps ++ leBytes 4 0.

Definition encode_pubname_unit (ver io_ il : Z) (ps : list DwarfPubname) : list Z :=
  leBytes 4 (Z.of_nat (length (encode_pubname_body ver io_ il ps)))
  ++ encode_pubname_body ver io_ il ps.

(** ** Progress of the cursor *)

(** A call of [m] on a cursor whose offset is a 64-bit value never runs
    out of fuel, and when it returns it has moved the cursor forward by at
    most [h] bytes (modulo 2^64). *)
Definition advances {A : Type} (h : Z) (m : M A) : Prop :=
  forall r : DWARFReader,
    0 <= off r < 2^64 ->
    m r <> OutOfFuel
    /\ forall (a : A) (r' : DWARFReader),
         m r = Ok (a, r') ->
         exists d, 0 <= d <= h /\ off r' = u64 (off r + d).

(** ** Building a [DwarfFrameInfo] *)

(** The map [cies] with the CIEs in full. *)
Definition CIEMap : Type := gmap Z (DwarfCIE * DwarfCIEAug).

(** The frame information as the unwinder sees it. *)
Definition frameInfoOf (ty : FIType) (m : CIEMap) (fdes : list DwarfFDE)
  : DwarfFrameInfo :=
  mkFrameInfo ty (fst <$> m) fdes.

(** [decodeCIEFDEHdr] once more, with the CIE it stores through [ciep]
    given in full. *)
Definition decodeCIEFDEHdrFull (this_type : FIType) (m : CIEMap) (ver : Z)
    (ty : FIType) (want_cie : bool)
  : M (Z * option Z * option (option (DwarfCIE * DwarfCIEAug))) :=
  let* length := getlength in
  if length =? 0 then ret (0, None, None)
  else
    let* idoff := getOffset in
    let* id := getuint (if 3 <=? ver then ELF_BITS / 8 else 4) in
    let found :=
      if negb (isCIE (frameInfoOf this_type m []) id) && want_cie
      then Some (m !! (if bool_decide (ty = FI_EH_FRAME)
                       then u64 (idoff - id) else id))
      else None in
    ret (u64 (idoff + length), Some id, found).

Section FrameInfo.

Variable elfBase : Z.
Variable ver : Z.          (* [info->version] *)
Variable ty : FIType.

(** The first loop of the constructor:
    [for (; !reader.empty(); reader.setOffset(nextoff)) { cieoff = offset;
       nextoff = decodeCIEFDEHdr(version, reader, cieid, type, 0);
       if (nextoff == 0) break;
       if (isCIE(cieid)) cies[cieoff] = DwarfCIE(dwarf, reader, nextoff); }] *)
Fixpoint ciePass (fuel : nat) (m : CIEMap) : M CIEMap :=
  fun r =>
    if empty r then Ok (m, r)
    else
      match fuel with
      | O => OutOfFuel
      | S fuel' =>
          let cieoff := off r in
          obind (decodeCIEFDEHdrFull ty m ver ty false r) (fun '(nextoff, cieid, _, r1) =>
          if nextoff =? 0 then Ok (m, r1)
          else
            match cieid with
            | None => Undef
            | Some cieid =>
                if isCIE (frameInfoOf ty m []) cieid then
                  obind (newCIE elfBase nextoff r1) (fun '(c, r2) =>
                  ciePass fuel' (<[cieoff := c]> m) (setOffset r2 nextoff))
                else ciePass fuel' m (setOffset r1 nextoff)
            end)
      end.

(** The second loop:
    [for (...; !reader.empty(); reader.setOffset(nextoff)) {
       nextoff = decodeCIEFDEHdr(version, reader, cieid, type, &cie);
       if (nextoff == 0) break;
       if (!isCIE(cieid)) { if (cie == 0) throw Exception();
         fdeList.push_back(DwarfFDE(info, reader, cie, nextoff)); } }] *)
Fixpoint fdePass (fuel : nat) (m : CIEMap) (fdes : list DwarfFDE)
  : M (list DwarfFDE) :=
  fun r =>
    if empty r then Ok (fdes, r)
    else
      match fuel with
      | O => OutOfFuel
      | S fuel' =>
          obind (decodeCIEFDEHdrFull ty m ver ty true r) (fun '(nextoff, cieid, found, r1) =>
          if nextoff =? 0 then Ok (fdes, r1)
          else
            match cieid with
            | None => Undef
            | Some cieid =>
                if negb (isCIE (frameInfoOf ty m []) cieid) then
                  match found with
                  | Some (Some (c, a)) =>
                      obind (newFDE elfBase c (addressEncoding a) (augmentation a)
                                    nextoff r1) (fun '(fde, _, r2) =>
                      fdePass fuel' m (fdes ++ [fde]) (setOffset r2 nextoff))
                  | Some None => Throw
                  | None => Undef
                  end
                else fdePass fuel' m fdes (setOffset r1 nextoff)
            end)
      end.

(** [DwarfFrameInfo::DwarfFrameInfo(info, reader, type)] *)
Definition newFrameInfo (fuel : nat) : M (CIEMap * list DwarfFDE) :=
  fun r =>
    let start := off r in
    obind (ciePass fuel ∅ r) (fun '(m, r1) =>
    obind (fdePass fuel m [] (setOffset r1 start)) (fun '(fdes, r2) =>
    Ok (m, fdes, r2))).

End FrameInfo.

(** An [.eh_frame] section at offset 0x1000: a CIE with the augmentation
    "zR", addresses encoded as [DW_EH_PE_pcrel | DW_EH_PE_sdata4] and the
    instructions [DW_CFA_def_cfa r7, 8; DW_CFA_offset r16, 1], followed by
    an FDE for 0x401000 to 0x402000 without instructions. *)
Definition ehsec_bytes : list Z :=
  [0x12; 0; 0; 0;  0; 0; 0; 0;  1;  122; 82; 0;  1;  0x78;  16;  1;  0x1b;
   0x0c; 7; 8;  0x90; 1;
   0x0d; 0; 0; 0;  0x1a; 0; 0; 0;  0xe2; 0xff; 0x3f; 0;  0; 0x10; 0; 0;  0].
Definition ehsec_reader : DWARFReader :=
  newReader (bytesAt 0x1000 ehsec_bytes) 2 0x1000 39.

(** ** Readers (libpstack/util.h) *)

(** [Reader::read(off, count, ptr)]: the bytes it stored through [ptr];
    the value it returns is their number. *)
Definition RawRead : Type := Z -> Z -> outcome (list Z).

(** [Reader::readObj(offset, object, count)] for objects of [size] bytes:
    [if (count != 0) { rc = read(offset, count * sizeof *object, object);
       if (rc != count * sizeof *object) throw Exception(); }] *)
Definition readObjRaw (read : RawRead) (offset size count : Z) : outcome (list Z) :=
  if count =? 0 then Ok []
  else
    obind (read offset (u64 (count * size))) (fun bs =>
    if Z.of_nat (length bs) =? u64 (count * size) then Ok bs else Throw).

(** [OffsetReader::read(off, count, ptr)]:
    [if (off > length) throw Exception();
     if (off + off_t(count) > length) count = length - off;
     return upstream->read(off + offset, count, ptr);]
    [off], [offset] and [length] are of the signed type [off_t]: a sum that
    leaves it is undefined. *)
Definition offsetRead (upstream : RawRead) (offset length : Z) : RawRead :=
  fun off count =>
    if length <? off then Throw
    else
      let fits (x : Z) := (- 2^63 <=? x) && (x <? 2^63) in
      if negb (fits (off + s64 count)) then Undef
      else
        let count := if length <? off + s64 count then u64 (length - off) else count in
        if negb (fits (off + offset)) then Undef
        else upstream (off + offset) count.

(** * Properties *)

(** ** Arithmetic of the machine integers *)

Ltac pow2 :=
  change (2^64) with 18446744073709551616 in *;
  change (2^32) with 4294967296 in *;
  change (2^16) with 65536 in *;
  change (2^8) with 256 in *.

Ltac wrap := unfold u64, u32, u16, u8 in *; pow2.

Ltac divlia := Z.to_euclidean_division_equations; lia.

Lemma u64_add_l a b : u64 (u64 a + b) = u64 (a + b).
Proof. wrap. rewrite Z.add_mod_idemp_l by lia. reflexivity. Qed.

Lemma u64_idem a : u64 (u64 a) = u64 a.
Proof. wrap. apply Z.mod_mod. lia. Qed.

Lemma u64_small a : 0 <= a < 2^64 -> u64 a = a.
Proof. wrap. intros. apply Z.mod_small. lia. Qed.

Lemma u64_range a : 0 <= u64 a < 2^64.
Proof. wrap. apply Z.mod_pos_bound. lia. Qed.

Lemma u32_small a : 0 <= a < 2^32 -> u32 a = a.
Proof. wrap. intros. apply Z.mod_small. lia. Qed.

Lemma s32_small a : - 2^31 <= a < 2^31 -> s32 a = a.
Proof.
  intros H. unfold s32, signed.
  change (2^32) with 4294967296. change (2^(32-1)) with 2147483648.
  change (2^31) with 2147483648 in H.
  destruct (Z.ltb_spec (a mod 4294967296) 2147483648); divlia.
Qed.

(** ** Bytes and stores *)

Lemma byteZ_range b : 0 <= byteZ b < 256.
Proof. unfold byteZ. pose proof (Byte.to_N_bounded b). lia. Qed.

Lemma byteZ_zbyte z : 0 <= z < 256 -> byteZ (zbyte z) = z.
Proof.
  intros Hz. unfold byteZ, zbyte. rewrite Z.mod_small by lia.
  destruct (Byte.of_N (Z.to_N z)) as [c|] eqn:E.
  - apply Byte.to_of_N in E. rewrite E. lia.
  - apply Byte.of_N_None_iff in E. lia.
Qed.

Lemma holds_head rd o b bs :
  0 <= o < 2^64 -> holds rd o (b :: bs) ->
  exists c, rd o = Some c /\ byteZ c = b.
Proof.
  intros Ho H. specialize (H 0%nat b eq_refl).
  rewrite Z.add_0_r, u64_small in H by exact Ho.
  apply fmap_Some in H. destruct H as (c & Hc & ->). eauto.
Qed.

Lemma holds_tail rd o b bs :
  holds rd o (b :: bs) -> holds rd (u64 (o + 1)) bs.
Proof.
  intros H i x Hx. rewrite u64_add_l.
  specialize (H (S i) x Hx).
  replace (o + 1 + Z.of_nat i) with (o + Z.of_nat (S i)) by lia. exact H.
Qed.

Lemma holds_app_l rd o bs cs : holds rd o (bs ++ cs) -> holds rd o bs.
Proof.
  intros H i b Hb. apply H. apply lookup_app_l_Some. exact Hb.
Qed.

(** A store laid out by [bytesAt] holds the bytes it was given. *)
Lemma holds_bytesAt base bs :
  forallb (fun b => (0 <=? b) && (b <? 256)) bs = true ->
  0 <= base -> base + Z.of_nat (length bs) <= 2^64 ->
  holds (bytesAt base bs) base bs.
Proof.
  intros Hb H0 Hlen i b Hi.
  pose proof (lookup_lt_Some _ _ _ Hi) as Hlt.
  rewrite u64_small by lia. unfold bytesAt.
  destruct (Z.ltb_spec (base + Z.of_nat i) base); [lia|].
  replace (Z.to_nat (base + Z.of_nat i - base)) with i by lia.
  rewrite Hi. simpl. f_equal. apply byteZ_zbyte.
  rewrite forallb_forall in Hb.
  assert (Hin : In b bs) by (apply list_elem_of_In; eapply list_elem_of_lookup_2; eauto).
  specialize (Hb b Hin). lia.
Qed.

(** ** Strings: the 2000 of [getstring] *)

Lemma getstring_loop_ok s : forall k rd o acc,
  0 <= o < 2^64 ->
  holds rd o (s ++ [0]) -> Forall (fun b => b <> 0) s ->
  (length s <= k)%nat ->
  getstring_loop k rd o acc = Ok (acc ++ s, u64 (o + Z.of_nat (length s) + 1)).
Proof.
  induction s as [|c s IH]; intros k rd o acc Ho H Hnz Hk.
  - destruct (holds_head _ _ _ _ Ho H) as (b & Hb & Hz).
    destruct k; simpl; rewrite Hb, Hz; simpl; rewrite app_nil_r;
      do 2 f_equal; f_equal; lia.
  - simpl in H. destruct (holds_head _ _ _ _ Ho H) as (b & Hb & Hz).
    apply holds_tail in H. inversion Hnz as [|? ? Hc Hs]; subst.
    destruct k as [|k]; [simpl in Hk; lia|].
    simpl. rewrite Hb.
    destruct (Z.eqb_spec (byteZ b) 0) as [E|_]; [contradiction|].
    rewrite (IH k rd _ _ (u64_range _) H Hs) by (simpl in Hk; lia).
    rewrite <- app_assoc. simpl length. rewrite <- Z.add_assoc, u64_add_l.
    do 2 f_equal. f_equal. lia.
Qed.

Lemma getstring_loop_abort k : forall rd o acc s,
  0 <= o < 2^64 ->
  holds rd o s -> Forall (fun b => b <> 0) s ->
  (k < length s)%nat ->
  getstring_loop k rd o acc = Abort.
Proof.
  induction k as [|k IH]; intros rd o acc s Ho H Hnz Hk.
  - destruct s as [|c s]; [simpl in Hk; lia|].
    destruct (holds_head _ _ _ _ Ho H) as (b & Hb & Hz).
    inversion Hnz; subst. simpl. rewrite Hb.
    destruct (Z.eqb_spec (byteZ b) 0); [contradiction|reflexivity].
  - destruct s as [|c s]; [simpl in Hk; lia|].
    destruct (holds_head _ _ _ _ Ho H) as (b & Hb & Hz).
    inversion Hnz; subst. simpl. rewrite Hb.
    destruct (Z.eqb_spec (byteZ b) 0); [contradiction|].
    apply (IH rd _ _ s (u64_range _) (holds_tail _ _ _ _ H));
      [assumption|simpl in Hk; lia].
Qed.

(** The exact bound: a string of 2001 bytes is still returned. *)
Lemma getstring_2001 (r : DWARFReader) (s : list Z) :
  0 <= off r < 2^64 ->
  holds (io r) (off r) (s ++ [0]) -> Forall (fun b => b <> 0) s ->
  length s = 2001%nat ->
  getstring r = Ok (s, setOffset r (off r + 2002)).
Proof.
  intros Ho H Hnz Hlen. unfold getstring.
  rewrite (getstring_loop_ok s 2001 _ _ [] Ho H Hnz) by lia.
  rewrite Hlen. cbn [obind app]. unfold setOffset. rewrite u64_idem.
  replace (off r + Z.of_nat 2001 + 1) with (off r + 2002) by lia.
  reflexivity.
Qed.

(** C6 (as the code has it).  A string whose terminator comes after at
    most 2000 bytes is returned in full, the cursor left behind the
    terminator.  A read that meets 2002 bytes in a row none of which is NUL
    ends in [abort()]: no exception is raised, nothing is left to recover. *)
Theorem getstring_bound (r : DWARFReader) (s : list Z) :
  0 <= off r < 2^64 ->
  Forall (fun b => b <> 0) s ->
  ((length s <= 2000)%nat -> holds (io r) (off r) (s ++ [0]) ->
     getstring r = Ok (s, setOffset r (off r + Z.of_nat (length s) + 1)))
  /\ ((2002 <= length s)%nat -> holds (io r) (off r) s ->
     getstring r = Abort).
Proof.
  intros Ho Hnz. split.
  - intros Hlen H. unfold getstring.
    rewrite (getstring_loop_ok s 2001 _ _ [] Ho H Hnz) by lia.
    cbn [obind app]. unfold setOffset. rewrite u64_idem. reflexivity.
  - intros Hlen H. unfold getstring.
    rewrite (getstring_loop_abort 2001 _ _ [] s Ho H Hnz) by lia.
    reflexivity.
Qed.

(** Both sides on stores that hold "AB\0" and 2002 times 'A'. *)
Lemma getstring_bound_witness :
  getstring (readerOver [65; 66; 0]) = Ok ([65; 66], setOffset (readerOver [65; 66; 0]) 3)
  /\ getstring (readerOver (repeat 65 2002)) = Abort.
Proof.
  split.
  - refine (proj1 (getstring_bound (readerOver [65; 66; 0]) [65; 66] _ _) _ _).
    + vm_compute. split; [intro; discriminate | reflexivity].
    + repeat constructor; discriminate.
    + simpl. lia.
    + apply (holds_bytesAt 0 [65; 66; 0]); [reflexivity | lia | vm_compute; discriminate].
  - refine (proj2 (getstring_bound (readerOver (repeat 65 2002)) (repeat 65 2002) _ _) _ _).
    + vm_compute. split; [intro; discriminate | reflexivity].
    + apply List.Forall_forall. intros x Hx. apply repeat_spec in Hx.
      subst. discriminate.
    + rewrite repeat_length. lia.
    + apply (holds_bytesAt 0 (repeat 65 2002));
        [vm_compute; reflexivity | lia | rewrite repeat_length; vm_compute; discriminate].
Defined.

(** C6 as stated fails: on 2002 bytes without a NUL the read does not end
    in an exception, it aborts. *)
Lemma getstring_no_decode_error :
  getstring (readerOver (repeat 65 2002)) = Abort
  /\ getstring (readerOver (repeat 65 2002)) <> Throw.
Proof.
  assert (E : getstring (readerOver (repeat 65 2002)) = Abort)
    by (vm_compute; reflexivity).
  split; [exact E | rewrite E; discriminate].
Qed.

(** ** Fixed-width reads *)

Lemma getu8_eq (r : DWARFReader) :
  getu8 r = match io r (off r) with
            | Some b => Ok (byteZ b, skip r 1)
            | None => Throw
            end.
Proof.
  unfold getu8, bind, take. simpl. destruct (io r (off r)); reflexivity.
Qed.

Lemma getu8_inv (r r1 : DWARFReader) (b : Z) :
  getu8 r = Ok (b, r1) -> 0 <= b < 256 /\ r1 = skip r 1.
Proof.
  rewrite getu8_eq. destruct (io r (off r)) as [c|]; [|discriminate].
  intros [= <- <-]. split; [apply byteZ_range | reflexivity].
Qed.

Lemma getu32_inv (r r1 : DWARFReader) (v : Z) :
  getu32 r = Ok (v, r1) -> 0 <= v < 2^32 /\ r1 = skip r 4.
Proof.
  unfold getu32, bind, take.
  destruct (readObj (io r) (off r) 4) as [bs| | | |] eqn:E; try discriminate.
  cbn [obind]. destruct bs as [|q0 [|q1 [|q2 [|q3 [|? ?]]]]]; try discriminate.
  unfold ret. intros [= <- <-]. split; [|reflexivity].
  unfold u32. apply Z.mod_pos_bound. reflexivity.
Qed.

(** ** Initial length *)

Lemma getlength_eq (r r1 : DWARFReader) (v : Z) :
  getu32 r = Ok (v, r1) ->
  getlength r = if 0xfffffff0 <=? v
                then if v =? 0xffffffff then getuint 8 r1 else Ok (0, r1)
                else Ok (v, r1).
Proof.
  intros H. unfold getlength, bind. rewrite H. cbn [obind].
  destruct (0xfffffff0 <=? v); [destruct (v =? 0xffffffff)|]; reflexivity.
Qed.

(** C2 (as the code has it).  With [v] the first four bytes: a reserved
    value, 0xfffffff0 up to 0xfffffffe, makes [getlength] return 0 (no
    exception); 0xffffffff makes it read the next eight bytes as the
    length; any other value is the length.  The four bytes are consumed in
    each case. *)
Theorem getlength_cases (r r1 : DWARFReader) (v : Z) :
  getu32 r = Ok (v, r1) ->
  r1 = skip r 4
  /\ (0xfffffff0 <= v < 0xffffffff -> getlength r = Ok (0, r1))
  /\ (v = 0xffffffff -> getlength r = getuint 8 r1)
  /\ (v < 0xfffffff0 -> getlength r = Ok (v, r1)).
Proof.
  intros H. destruct (getu32_inv _ _ _ H) as [_ Hr1].
  split; [exact Hr1|].
  rewrite (getlength_eq _ _ _ H).
  repeat split; intros Hv.
  - destruct (Z.leb_spec 0xfffffff0 v); [|lia].
    destruct (Z.eqb_spec v 0xffffffff); [lia|reflexivity].
  - subst v. reflexivity.
  - destruct (Z.leb_spec 0xfffffff0 v); [lia|reflexivity].
Qed.

Lemma getlength_cases_witness :
  value (getlength (readerOver [0xf0; 0xff; 0xff; 0xff])) = Ok 0
  /\ value (getlength (readerOver [0xff; 0xff; 0xff; 0xff; 1; 0; 0; 0; 0; 0; 0; 1]))
     = Ok (2^56 + 1)
  /\ value (getlength (readerOver [0x10; 0; 0; 0])) = Ok 0x10.
Proof.
  split; [|split].
  - pose (r := readerOver [0xf0; 0xff; 0xff; 0xff]).
    destruct (getlength_cases r (skip r 4) 0xfffffff0) as (_ & H & _ & _);
      [vm_compute; reflexivity|].
    fold r. rewrite H by lia. reflexivity.
  - pose (r := readerOver [0xff; 0xff; 0xff; 0xff; 1; 0; 0; 0; 0; 0; 0; 1]).
    destruct (getlength_cases r (skip r 4) 0xffffffff) as (_ & _ & H & _);
      [vm_compute; reflexivity|].
    fold r. rewrite H by reflexivity. vm_compute. reflexivity.
  - pose (r := readerOver [0x10; 0; 0; 0]).
    destruct (getlength_cases r (skip r 4) 0x10) as (_ & _ & _ & H);
      [vm_compute; reflexivity|].
    fold r. rewrite H by lia. reflexivity.
Defined.

(** C2 as stated fails: the reserved value 0xfffffff0 is answered with the
    length 0, not with an exception. *)
Lemma getlength_reserved_returns :
  value (getlength (readerOver [0xf0; 0xff; 0xff; 0xff])) = Ok 0
  /\ value (getlength (readerOver [0xf0; 0xff; 0xff; 0xff])) <> Throw.
Proof.
  assert (E : value (getlength (readerOver [0xf0; 0xff; 0xff; 0xff])) = Ok 0)
    by (vm_compute; reflexivity).
  split; [exact E | rewrite E; discriminate].
Qed.

(** ** LEB128 *)

(** The seven-bit groups and their continuation bit. *)
Lemma group_bits (g : Z) :
  0 <= g < 128 ->
  Z.land g 0x7f = g /\ Z.land g 0x80 = 0
  /\ Z.land (Z.lor g 0x80) 0x7f = g /\ Z.land (Z.lor g 0x80) 0x80 = 0x80
  /\ 0 <= Z.lor g 0x80 < 256.
Proof.
  intros Hg.
  assert (H : forallb (fun g => (Z.land g 0x7f =? g) && (Z.land g 0x80 =? 0)
                && (Z.land (Z.lor g 0x80) 0x7f =? g)
                && (Z.land (Z.lor g 0x80) 0x80 =? 0x80)
                && (0 <=? Z.lor g 0x80) && (Z.lor g 0x80 <? 256))
              (seqZ 0 128) = true)
    by (vm_compute; reflexivity).
  rewrite forallb_forall in H.
  assert (Hin : In g (seqZ 0 128)) by (apply list_elem_of_In, elem_of_seqZ; lia).
  specialize (H g Hin).
  rewrite !andb_true_iff, !Z.eqb_eq, Z.leb_le, Z.ltb_lt in H. tauto.
Qed.

Lemma low7 (v : Z) : 0 <= Z.land v 0x7f < 128 /\ Z.land v 0x7f = v mod 128.
Proof.
  change 0x7f with (Z.ones 7). rewrite Z.land_ones by lia.
  change (2^7) with 128. split; [apply Z.mod_pos_bound; lia | reflexivity].
Qed.

Lemma split7 (v : Z) :
  Z.lor (Z.land v 0x7f) (Z.shiftl (Z.shiftr v 7) 7) = v.
Proof.
  apply Z.bits_inj'. intros n Hn.
  rewrite Z.lor_spec, Z.land_spec, (Z.shiftl_spec _ _ _ Hn).
  change 0x7f with (Z.ones 7).
  destruct (Z.lt_ge_cases n 7).
  - rewrite Z.ones_spec_low by lia. rewrite (Z.testbit_neg_r _ (n - 7)) by lia.
    rewrite andb_true_r, orb_false_r. reflexivity.
  - rewrite Z.ones_spec_high by lia. rewrite Z.shiftr_spec by lia.
    rewrite andb_false_r. simpl. f_equal. lia.
Qed.

(** One trip through the loop of [getuleb128shift]. *)
Lemma uleb_loop_S (k : nat) rd o result shift b :
  rd o = Some b ->
  getuleb128shift_loop (S k) rd o result shift
  = let result' :=
      Z.lor result (u64 (s32 (Z.shiftl (Z.land (byteZ b) 0x7f) shift))) in
    if Z.land (byteZ b) 0x80 =? 0
    then Ok ((result', shift + 7, negb (Z.land (byteZ b) 0x40 =? 0)), u64 (o + 1))
    else getuleb128shift_loop k rd (u64 (o + 1)) result' (shift + 7).
Proof. intros H. cbn [getuleb128shift_loop]. rewrite H. reflexivity. Qed.

(** While the groups shifted into place stay below 2^31, the loop
    rebuilds the value the encoder was given. *)
Lemma uleb_loop_encode (n : nat) : forall (k : nat) rd o result shift v,
  0 <= o < 2^64 -> 0 <= v ->
  (1 <= k <= 5)%nat -> (k <= S n)%nat ->
  shift = 7 * (5 - Z.of_nat k) ->
  v * 2^shift < 2^31 ->
  holds rd o (encode_uleb128_n n v) ->
  exists sh sg,
    getuleb128shift_loop k rd o result shift
    = Ok ((Z.lor result (Z.shiftl v shift), sh, sg),
          u64 (o + Z.of_nat (length (encode_uleb128_n n v)))).
Proof.
  induction n as [|n IH]; intros k rd o result shift v Ho Hv Hk Hkn Hs Hfit Hh.
  all: assert (Hsh : 0 <= shift <= 28) by lia.
  all: assert (HP : 0 < 2^shift) by (apply Z.pow_pos_nonneg; lia).
  all: destruct (low7 v) as [Hg Hgm].
  all: destruct (group_bits _ Hg) as (G1 & G2 & G3 & G4 & _).
  all: assert (Hgv : Z.land v 0x7f <= v) by (rewrite Hgm; apply Z.mod_le; lia).
  all: assert (Hfitg : 0 <= Z.shiftl (Z.land v 0x7f) shift < 2^31)
         by (rewrite Z.shiftl_mul_pow2 by lia; nia).
  - (* a single byte is left to the encoder *)
    assert (k = 1%nat) by lia. subst k.
    assert (Hv8 : v < 8).
    { subst shift. change (2^(7 * (5 - Z.of_nat 1))) with 268435456 in Hfit.
      change (2^31) with 2147483648 in Hfit. lia. }
    assert (Henc : encode_uleb128_n 0 v = [Z.land v 0x7f]).
    { simpl. destruct (Z.shiftr v 7 =? 0); reflexivity. }
    rewrite Henc in *.
    destruct (holds_head _ _ _ _ Ho Hh) as (c & Hc & Hcz).
    rewrite (uleb_loop_S _ _ _ _ _ _ Hc), Hcz. cbv zeta. rewrite G1, G2. cbn [Z.eqb].
    rewrite s32_small by lia. rewrite (u64_small (Z.shiftl (Z.land v 127) shift))
        by (pow2; change (2^31) with 2147483648 in *; lia).
    assert (Z.land v 0x7f = v) by (rewrite Hgm; apply Z.mod_small; lia).
    rewrite H. eexists _, _. reflexivity.
  - cbn [encode_uleb128_n] in *.
    destruct (Z.eqb_spec (Z.shiftr v 7) 0) as [Hz|Hnz].
    + destruct (holds_head _ _ _ _ Ho Hh) as (c & Hc & Hcz).
      destruct k as [|k]; [lia|].
      rewrite (uleb_loop_S _ _ _ _ _ _ Hc), Hcz. cbv zeta. rewrite G1, G2. cbn [Z.eqb].
      rewrite s32_small by lia.
      rewrite (u64_small (Z.shiftl (Z.land v 127) shift))
        by (pow2; change (2^31) with 2147483648 in *; lia).
      assert (Z.land v 0x7f = v).
      { rewrite <- (split7 v) at 2. rewrite Hz. rewrite Z.shiftl_0_l, Z.lor_0_r. reflexivity. }
      rewrite H. eexists _, _. reflexivity.
    + destruct (holds_head _ _ _ _ Ho Hh) as (c & Hc & Hcz).
      apply holds_tail in Hh.
      assert (Hv' : 0 < Z.shiftr v 7).
      { pose proof (Z.shiftr_nonneg v 7). lia. }
      assert (Hdiv : Z.shiftr v 7 = v / 128) by (rewrite Z.shiftr_div_pow2 by lia; reflexivity).
      destruct k as [|[|k]]; [lia| |].
      { (* shift = 28 leaves no room for a further byte *)
        subst shift. change (2^(7 * (5 - Z.of_nat 1))) with 268435456 in Hfit.
        change (2^31) with 2147483648 in Hfit.
        assert (v < 8) by lia. rewrite Hdiv in Hv'.
        rewrite Z.div_small in Hv' by lia. lia. }
      rewrite (uleb_loop_S _ _ _ _ _ _ Hc), Hcz. cbv zeta. rewrite G3, G4. cbn [Z.eqb].
      rewrite s32_small by lia.
      rewrite (u64_small (Z.shiftl (Z.land v 127) shift))
        by (pow2; change (2^31) with 2147483648 in *; lia).
      destruct (IH (S k) rd (u64 (o + 1))
                  (Z.lor result (Z.shiftl (Z.land v 127) shift)) (shift + 7)
                  (Z.shiftr v 7)) as (sh & sg & E);
        [apply u64_range | lia | lia | lia | lia | | exact Hh |].
      { rewrite Z.pow_add_r by lia. change (2^7) with 128.
        rewrite Hdiv. pose proof (Z.mul_div_le v 128). nia. }
      rewrite E. eexists _, _. f_equal. f_equal.
      * f_equal. f_equal. rewrite <- Z.lor_assoc. f_equal.
        rewrite (Z.add_comm shift 7), <- (Z.shiftl_shiftl _ 7 shift) by lia.
        rewrite <- Z.shiftl_lor. rewrite split7. reflexivity.
      * rewrite u64_add_l. f_equal. cbn [length]. lia.
Qed.
Lemma encode_uleb128_n_bytes (n : nat) : forall v,
  forallb (fun b => (0 <=? b) && (b <? 256)) (encode_uleb128_n n v) = true
  /\ (length (encode_uleb128_n n v) <= S n)%nat.
Proof.
  induction n as [|n IH]; intros v.
  all: destruct (low7 v) as [Hg _].
  all: destruct (group_bits _ Hg) as (_ & _ & _ & _ & Hr).
  all: assert (Hb : (0 <=? Z.land v 127) && (Z.land v 127 <? 256) = true)
         by (apply andb_true_intro; split; [apply Z.leb_le | apply Z.ltb_lt]; lia).
  - simpl. destruct (Z.shiftr v 7 =? 0); simpl; rewrite Hb; split; (reflexivity || lia).
  - cbn [encode_uleb128_n]. destruct (Z.shiftr v 7 =? 0).
    + simpl. rewrite Hb. split; [reflexivity | lia].
    + destruct (IH (Z.shiftr v 7)) as [IH1 IH2].
      cbn [forallb length]. rewrite IH1, andb_true_r. split; [|lia].
      apply andb_true_intro; split; [apply Z.leb_le | apply Z.ltb_lt]; lia.
Qed.

(** Below 2^31 the unsigned decoder undoes the encoder, wherever the
    bytes lie. *)
Lemma getuleb128_encode (r : DWARFReader) (v : Z) :
  0 <= off r < 2^64 -> 0 <= v < 2^31 ->
  holds (io r) (off r) (encode_uleb128 v) ->
  getuleb128 r
  = Ok (v, setOffset r (off r + Z.of_nat (length (encode_uleb128 v)))).
Proof.
  intros Ho Hv Hh. unfold getuleb128, bind, getuleb128shift.
  destruct (uleb_loop_encode 9 5 (io r) (off r) 0 0 v Ho) as (sh & sg & E);
    [lia | lia | lia | reflexivity | change (2^0) with 1; lia | exact Hh |].
  rewrite E. cbn [obind]. unfold ret, setOffset.
  rewrite Z.shiftl_0_r, Z.lor_0_l, u64_idem. reflexivity.
Qed.

Lemma getuleb128_roundtrip_small (v : Z) :
  0 <= v < 2^31 ->
  value (getuleb128 (readerOver (encode_uleb128 v))) = Ok v.
Proof.
  intros Hv.
  destruct (encode_uleb128_n_bytes 9 v) as [Hb Hl]. fold (encode_uleb128 v) in Hb, Hl.
  rewrite (getuleb128_encode (readerOver (encode_uleb128 v)) v).
  - reflexivity.
  - vm_compute. split; [intro; discriminate | reflexivity].
  - exact Hv.
  - apply (holds_bytesAt 0 (encode_uleb128 v) Hb); [lia|].
    change (2^64) with 18446744073709551616. lia.
Qed.


(** C8 at the failing input.  2^31 is encoded in five bytes, the last one
    8; [8 << 28] does not fit an [int], comes out as -2^31 and is widened
    with its sign: the unsigned decoder answers 2^64 - 2^31 and the signed
    one -2^31.  From 2^35 on a sixth byte is shifted by 35. *)
Theorem leb128_decode_encode_2pow31 :
  encode_uleb128 (2^31) = [0x80; 0x80; 0x80; 0x80; 0x08]
  /\ value (getuleb128 (readerOver (encode_uleb128 (2^31)))) = Ok (2^64 - 2^31)
  /\ encode_sleb128 (2^31) = [0x80; 0x80; 0x80; 0x80; 0x08]
  /\ value (getsleb128 (readerOver (encode_sleb128 (2^31)))) = Ok (- 2^31)
  /\ value (getuleb128 (readerOver (encode_uleb128 (2^35)))) = Undef.
Proof. repeat split; vm_compute; reflexivity. Qed.

(** ** Line-number program *)

(** C5.  A special opcode [b >= opcode_base] adds
    [(b - opcode_base) / line_range * min_insn_length] to the address and
    [line_base + (b - opcode_base) % line_range] to the line, appends the
    registers to the matrix and then clears [basic_block]; [line_range] and
    [line_base] are as the header's one-byte fields give them.  With the
    header (1, -3, 12, 13) the byte 0x4e adds 5 and 2. *)
Theorem special_opcode :
  (forall (li : DwarfLineInfo) (state : DwarfLineState)
          (matrix : list DwarfLineState) (r r1 : DWARFReader) (b : Z),
      getu8 r = Ok (b, r1) ->
      0 <= opcode_base li <= b ->
      0 < line_range li ->
      -128 <= line_base li < 128 ->
      let adj := b - opcode_base li in
      let row :=
        set_line
          (set_addr state
             (u64 (st_addr state + adj / line_range li * min_insn_length li)))
          (u32 (st_line state + (line_base li + adj mod line_range li))) in
      lineStep li (state, matrix) r
      = Ok ((set_basic_block row 0, matrix ++ [row]), r1))
  /\ (forall (dis al : Z) (state : DwarfLineState) (matrix : list DwarfLineState),
      let li := mkLineInfo dis 13 1 (-3) 12 al in
      let row := set_line (set_addr state (u64 (st_addr state + 5)))
                          (u32 (st_line state + 2)) in
      value (lineStep li (state, matrix) (readerOver [0x4e]))
      = Ok (set_basic_block row 0, matrix ++ [row])).
Proof.
  split.
  - intros li state matrix r r1 b Hb Hob Hlr Hlb adj row.
    destruct (getu8_inv _ _ _ Hb) as [Hrange _].
    unfold lineStep, bind. rewrite Hb. cbn [obind].
    destruct (Z.leb_spec (opcode_base li) b); [|lia].
    destruct (Z.eqb_spec (line_range li) 0); [lia|].
    assert (Hadj : 0 <= adj < 256) by (unfold adj; lia).
    rewrite (u32_small (b - opcode_base li)) by (fold adj; pow2; lia).
    fold adj.
    assert (Hdiv : 0 <= adj / line_range li < 256).
    { split; [apply Z.div_pos; lia|].
      apply Z.div_lt_upper_bound; nia. }
    assert (Hmod : 0 <= adj mod line_range li < 256).
    { pose proof (Z.mod_pos_bound adj (line_range li) Hlr).
      pose proof (Z.mod_le adj (line_range li)). lia. }
    rewrite !s32_small by (change (2^31) with 2147483648; lia).
    unfold ret, dwarfStateAddRow. cbn.
    replace (adj mod line_range li + line_base li)
      with (line_base li + adj mod line_range li) by lia.
    reflexivity.
  - intros dis al state matrix li row. reflexivity.
Qed.

Lemma special_opcode_witness :
  value (lineStep (mkLineInfo 1 13 1 (-3) 12 8)
                  (mkLineState 0x401000 1 1 0 1 1 0, []) (readerOver [0x4e]))
  = Ok (mkLineState 0x401005 1 3 0 1 0 0, [mkLineState 0x401005 1 3 0 1 1 0]).
Proof.
  rewrite (proj1 special_opcode (mkLineInfo 1 13 1 (-3) 12 8)
             (mkLineState 0x401000 1 1 0 1 1 0) []
             (readerOver [0x4e]) (skip (readerOver [0x4e]) 1) 0x4e).
  - vm_compute. reflexivity.
  - vm_compute. reflexivity.
  - vm_compute. split; intro; discriminate.
  - vm_compute. reflexivity.
  - vm_compute. split; [intro; discriminate | reflexivity].
Defined.

(** C4 (as the code has it).  After an [end_sequence] every register has
    its initial value, the file index among them ([reset] puts it back to
    1); the row appended is the state before with [end_sequence] set. *)
Theorem end_sequence_resets (li : DwarfLineInfo) (state : DwarfLineState)
    (matrix : list DwarfLineState) (r r1 r2 r3 : DWARFReader) (len : Z) :
  0 < opcode_base li ->
  getu8 r = Ok (0, r1) ->
  getuleb128 r1 = Ok (len, r2) ->
  getu8 r2 = Ok (DW_LNE_end_sequence, r3) ->
  lineStep li (state, matrix) r
  = Ok ((reset li, matrix ++ [set_end_sequence state 1]), r3)
  /\ reset li = mkLineState 0 1 1 0 (default_is_stmt li mod 2) 0 0
  /\ forall fuel endoff rd,
       lineProgram fuel li endoff rd = lineLoop fuel li endoff (reset li, []) rd.
Proof.
  intros Hob H0 Hlen Hcode. split; [|split; reflexivity].
  unfold lineStep, bind. rewrite H0. cbn [obind].
  destruct (Z.leb_spec (opcode_base li) 0); [lia|].
  cbn [Z.eqb]. rewrite Hlen. cbn [obind]. rewrite Hcode. cbn [obind].
  reflexivity.
Qed.

Lemma end_sequence_resets_witness :
  value (lineStep (mkLineInfo 1 13 1 (-3) 12 8)
                  (mkLineState 0x401005 2 3 7 0 1 0, [])
                  (readerOver [0x00; 0x01; 0x01]))
  = Ok (mkLineState 0 1 1 0 1 0 0, [mkLineState 0x401005 2 3 7 0 1 1]).
Proof.
  pose (li := mkLineInfo 1 13 1 (-3) 12 8).
  pose (state := mkLineState 0x401005 2 3 7 0 1 0).
  pose (r := readerOver [0x00; 0x01; 0x01]).
  destruct (end_sequence_resets li state [] r (skip r 1) (skip r 2) (skip r 3) 1)
    as (H & _).
  - vm_compute. reflexivity.
  - vm_compute. reflexivity.
  - vm_compute. reflexivity.
  - vm_compute. reflexivity.
  - fold r li state. rewrite H. reflexivity.
Defined.

(** C4 as stated fails: the program [set_file 2; end_sequence] ends with the
    file index 1, while the row it emitted at the [end_sequence] carries
    the file index 2. *)
Lemma end_sequence_file_not_kept :
  exists row final,
    value (lineProgram 2 (mkLineInfo 1 13 1 (-3) 12 8) 5
             (readerOver [0x04; 0x02; 0x00; 0x01; 0x01]))
    = Ok (final, [row])
    /\ st_file row = 2 /\ end_sequence row = 1
    /\ st_file final = 1 /\ st_file final <> st_file row.
Proof.
  exists (mkLineState 0 2 1 0 1 0 1), (mkLineState 0 1 1 0 1 0 0).
  repeat split; try (vm_compute; reflexivity).
  vm_compute. discriminate.
Qed.

(** ** Call frame instructions *)

(** [DW_CFA_def_cfa_offset_sf] reads its operand with [getuleb128]. *)
Lemma def_cfa_offset_sf_unsigned (c : DwarfCIE) (dframe : DwarfCallFrame)
    (s : CFAState) (r r1 r2 : DWARFReader) (n : Z) :
  getu8 r = Ok (DW_CFA_def_cfa_offset_sf, r1) ->
  getuleb128 r1 = Ok (n, r2) ->
  execInsn c dframe s r
  = Ok (withFrame s
          (set_cfaValue (frame s)
             (set_u_offset (set_type (cfaValue (frame s)) OFFSET)
                           (u64 (n * dataAlign c)))), r2).
Proof.
  intros H1 H2. unfold execInsn, bind. rewrite H1. cbn [obind].
  change (Z.land DW_CFA_def_cfa_offset_sf 192 =? DW_CFA_advance_loc) with false.
  change (Z.land DW_CFA_def_cfa_offset_sf 192 =? DW_CFA_offset) with false.
  change (Z.land DW_CFA_def_cfa_offset_sf 192 =? DW_CFA_restore) with false.
  cbv iota. change (Z.land DW_CFA_def_cfa_offset_sf 63) with 19.
  cbn [Z.eqb DW_CFA_nop DW_CFA_set_loc DW_CFA_advance_loc1 DW_CFA_advance_loc2
       DW_CFA_advance_loc4 DW_CFA_offset_extended DW_CFA_restore_extended
       DW_CFA_undefined DW_CFA_same_value DW_CFA_register DW_CFA_remember_state
       DW_CFA_restore_state DW_CFA_def_cfa DW_CFA_def_cfa_sf
       DW_CFA_def_cfa_register DW_CFA_def_cfa_offset DW_CFA_def_cfa_offset_sf
       Pos.eqb].
  rewrite H2. reflexivity.
Qed.

(** C7 at the failing input.  With data alignment -8 and the row
    [CFA = r7 + 8], [DW_CFA_def_cfa_offset_sf] with the operand byte 0x7f
    (SLEB128 for -1) leaves the register at 7 and sets the offset to
    127 * -8 (mod 2^64), not to -1 * -8 = 8; [DW_CFA_def_cfa_sf] with the
    same operand byte sets 8. *)
Theorem def_cfa_offset_sf_operand :
  value (getsleb128 (readerOver [0x7f])) = Ok (-1)
  /\ value (getuleb128 (readerOver [0x7f])) = Ok 127
  /\ obind (execInsn (mkCIE 1 (-8) 16 0 0) newCallFrame
              (mkCFA (mkFrame (registers newCallFrame) 7 (mkUnwind OFFSET 8 0)) [] 0)
              (readerOver [0x13; 0x7f]))
           (fun '(s, _) => Ok (cfaReg (frame s), type (cfaValue (frame s)),
                               u_offset (cfaValue (frame s))))
     = Ok (7, OFFSET, u64 (127 * -8))
  /\ u64 (127 * -8) <> u64 (-1 * -8)
  /\ obind (execInsn (mkCIE 1 (-8) 16 0 0) newCallFrame
              (mkCFA (mkFrame (registers newCallFrame) 7 (mkUnwind OFFSET 8 0)) [] 0)
              (readerOver [0x12; 0x07; 0x7f]))
           (fun '(s, _) => Ok (cfaReg (frame s), type (cfaValue (frame s)),
                               u_offset (cfaValue (frame s))))
     = Ok (7, OFFSET, u64 (-1 * -8)).
Proof.
  repeat split; try (vm_compute; reflexivity).
  vm_compute. discriminate.
Qed.

(** ** CIE of an FDE *)

(** C3 (as the code has it).  For an entry that is not a CIE, with a
    32-bit length, the CIE looked up in [.eh_frame] is the one keyed by the
    offset of the entry's CIE_id field, which is the entry's offset plus
    4, minus CIE_id; in [.debug_frame] it is the one keyed by CIE_id.  An
    entry at 0x1040 whose CIE_id is 0x44 finds the CIE at 0x1000. *)
Theorem cie_of_entry :
  (forall (fi : DwarfFrameInfo) (ver : Z) (ty : FIType)
          (r r1 r2 : DWARFReader) (len id : Z),
      0 <= off r < 2^64 ->
      getu32 r = Ok (len, r1) ->
      0 < len < 0xfffffff0 ->
      getuint (if 3 <=? ver then ELF_BITS / 8 else 4) r1 = Ok (id, r2) ->
      isCIE fi id = false ->
      decodeCIEFDEHdr fi ver ty true r
      = Ok (mkHdr (u64 (off r + 4 + len)) (Some id)
              (Some (cies fi !! match ty with
                                | FI_EH_FRAME => u64 (off r + 4 - id)
                                | FI_DEBUG_FRAME => id
                                end)), r2))
  /\ value (decodeCIEFDEHdr ehf_info 2 FI_EH_FRAME true (ehf_entry 0x44))
     = Ok (mkHdr 0x1058 (Some 0x44) (Some (Some ehf_cie)))
  /\ cies ehf_info !! 0x1000 = Some ehf_cie.
Proof.
  split; [|split; vm_compute; reflexivity].
  intros fi ver ty r r1 r2 len id Ho H32 Hlen Hid Hcie.
  destruct (getu32_inv _ _ _ H32) as [_ Hr1].
  unfold decodeCIEFDEHdr, bind. rewrite (getlength_eq _ _ _ H32).
  destruct (Z.leb_spec 0xfffffff0 len); [lia|]. cbn [obind].
  destruct (Z.eqb_spec len 0); [lia|].
  unfold getOffset at 1. cbn [obind]. rewrite Hid. cbn [obind].
  rewrite Hcie. cbn [negb andb]. unfold ret.
  assert (Hoff : off r1 = u64 (off r + 4)) by (subst r1; reflexivity).
  rewrite Hoff, !u64_add_l.
  replace (u64 (u64 (off r + 4) - id)) with (u64 (off r + 4 - id))
    by (wrap; rewrite Zminus_mod_idemp_l; reflexivity).
  destruct ty; reflexivity.
Qed.

Lemma cie_of_entry_witness :
  decodeCIEFDEHdr ehf_info 2 FI_EH_FRAME true (ehf_entry 0x44)
  = Ok (mkHdr 0x1058 (Some 0x44) (Some (Some ehf_cie)),
        skip (skip (ehf_entry 0x44) 4) 4).
Proof.
  rewrite (proj1 cie_of_entry ehf_info 2 FI_EH_FRAME (ehf_entry 0x44)
             (skip (ehf_entry 0x44) 4) (skip (skip (ehf_entry 0x44) 4) 4)
             0x14 0x44).
  - vm_compute. reflexivity.
  - vm_compute. split; [intro; discriminate | reflexivity].
  - vm_compute. reflexivity.
  - vm_compute. split; reflexivity.
  - vm_compute. reflexivity.
  - vm_compute. reflexivity.
Defined.

(** C3 as stated fails: the entry at 0x1040 with CIE_id 0x40 does not find
    the CIE that starts at 0x1000 (a null pointer is stored); the key
    looked up is 0x1044 - 0x40 = 0x1004. *)
Lemma cie_of_entry_0x40 :
  value (decodeCIEFDEHdr ehf_info 2 FI_EH_FRAME true (ehf_entry 0x40))
  = Ok (mkHdr 0x1058 (Some 0x40) (Some None))
  /\ cies ehf_info !! 0x1000 = Some ehf_cie
  /\ cies ehf_info !! (0x1040 - 0x40) <> cies ehf_info !! (0x1044 - 0x40).
Proof.
  repeat split; try (vm_compute; reflexivity).
  vm_compute. discriminate.
Qed.

(** ** The canonical frame address *)

(** Every rule type but [OFFSET] and [EXPRESSION] ends in [abort()]. *)
Lemma getCFA_aborts (fuel : nat) (elfio pio : Reader) (ver : Z)
    (fr : DwarfCallFrame) (regs : DwarfRegisters) :
  type (cfaValue fr) <> OFFSET -> type (cfaValue fr) <> EXPRESSION ->
  getCFA fuel elfio pio ver fr regs = Abort.
Proof.
  intros H1 H2. unfold getCFA.
  destruct (type (cfaValue fr)); try reflexivity; contradiction.
Qed.

(** A call that returns had one of the two. *)
Lemma getCFA_returns (fuel : nat) (elfio pio : Reader) (ver : Z)
    (fr : DwarfCallFrame) (regs : DwarfRegisters) (cfa : Z) :
  getCFA fuel elfio pio ver fr regs = Ok cfa ->
  type (cfaValue fr) = OFFSET \/ type (cfaValue fr) = EXPRESSION.
Proof.
  unfold getCFA. destruct (type (cfaValue fr)); try discriminate; auto.
Qed.

(** The row the constructor builds has no CFA rule: [getCFA] aborts on it. *)
Lemma getCFA_initial_frame (fuel : nat) (elfio pio : Reader) (ver : Z)
    (regs : DwarfRegisters) :
  getCFA fuel elfio pio ver newCallFrame regs = Abort.
Proof. reflexivity. Qed.

(** With an [OFFSET] rule the result is [regs[cfaReg] + offset]. *)
Lemma getCFA_offset (fuel : nat) (elfio pio : Reader) (ver : Z)
    (fr : DwarfCallFrame) (regs : DwarfRegisters) (v : Z) :
  type (cfaValue fr) = OFFSET ->
  dwarfGetReg regs (cfaReg fr) = Ok v ->
  getCFA fuel elfio pio ver fr regs = Ok (u64 (v + u_offset (cfaValue fr))).
Proof.
  intros Ht Hv. unfold getCFA. rewrite Ht, Hv. reflexivity.
Qed.

(** C10 at the failing input.  The CFA rule is the expression
    [DW_OP_breg7 8] and register 7 holds 0x7fffdff8: [dwarfEvalExpr]
    returns 0x7fffe000 and leaves the stack empty, having popped its
    result; [getCFA] drops that value and takes [top()] of the empty stack.
    When an expression leaves two values, [const4u 1; const4u 2], the
    evaluation gives 2 and [getCFA] returns the 1 beneath it. *)
Theorem getCFA_expression_result :
  dwarfEvalExpr 1 (fun _ => None) (newReader (bytesAt 0x200 [0x77; 0x08]) 2 0x200 2)
                scn_regs []
  = Ok (0x7fffe000, [])
  /\ getCFA 1 (bytesAt 0x200 [0x77; 0x08]) (fun _ => None) 2
            (mkFrame (registers newCallFrame) 0 (mkUnwind EXPRESSION 0x200 2))
            scn_regs
     = Undef
  /\ dwarfEvalExpr 2 (fun _ => None)
       (newReader (bytesAt 0x200 [0x0c; 1; 0; 0; 0; 0x0c; 2; 0; 0; 0]) 2 0x200 10)
       scn_regs []
     = Ok (2, [1])
  /\ getCFA 2 (bytesAt 0x200 [0x0c; 1; 0; 0; 0; 0x0c; 2; 0; 0; 0]) (fun _ => None) 2
            (mkFrame (registers newCallFrame) 0 (mkUnwind EXPRESSION 0x200 10))
            scn_regs
     = Ok 1.
Proof. repeat split; vm_compute; reflexivity. Qed.

(** ** One step of unwinding *)

(** The row of the scenario: CFA = r7 + 8, return address at CFA - 8. *)
Lemma scn_row (fuel : nat) :
  obind (execInsns (2 + fuel) scn_cie (newReader scn_elfio 2 0x120 0) 2
                   0x401000 0x401233)
        (fun '(f, _) => Ok (cfaReg f, cfaValue f, registers f !! 16%nat,
                            registers f !! 7%nat))
  = Ok (7, mkUnwind OFFSET 8 0, Some (mkUnwind OFFSET (u64 (-8)) 0),
        Some (mkUnwind UNDEF 0 0)).
Proof. destruct fuel; vm_compute; reflexivity. Qed.

(** C1 (as the code has it).  The return address is read at CFA - 8, which
    is 0x7fffdff8: with the word 0x402000 stored there (and rsp =
    0x7fffdff8) one step returns the caller's PC 0x402000 and sets the
    caller's stack pointer, whose rule is undef, to the CFA 0x7fffe000. *)
Theorem unwind_no_frame_pointer (fuel : nat) :
  exists regs' : DwarfRegisters,
    dwarfUnwind x86_64_isArchReg x86_64_CFA_RESTORE_REGNO (2 + fuel)
                (scn_process (wordAt 0x7fffdff8 0x402000)) scn_regs 0x401234
    = Ok (0x402000, regs')
    /\ regs' !! 7%nat = Some 0x7fffe000
    /\ regs' !! 16%nat = Some 0x402000.
Proof.
  destruct fuel.
  - eexists. split; [vm_compute; reflexivity|].
    split; vm_compute; reflexivity.
  - eexists. split; [vm_compute; reflexivity|].
    split; vm_compute; reflexivity.
Qed.

(** C1 as stated fails: with 0x402000 stored at 0x7fffe000 and nothing at
    0x7fffdff8 the read of the return address throws; with zeros at
    0x7fffdff8 the step returns 0. *)
Lemma unwind_reads_below_cfa :
  dwarfUnwind x86_64_isArchReg x86_64_CFA_RESTORE_REGNO 2
              (scn_process (wordAt 0x7fffe000 0x402000)) scn_regs 0x401234
  = Throw
  /\ value (dwarfUnwind x86_64_isArchReg x86_64_CFA_RESTORE_REGNO 2
              (scn_process (bytesAt 0x7fffdff8 (wordBytes 0 ++ wordBytes 0x402000)))
              scn_regs 0x401234)
     = Ok 0.
Proof. split; vm_compute; reflexivity. Qed.

(** ** Lazily built indexes *)

Lemma fillLoop_fold {C X : Type} (parse : M X) (add : DWARFReader -> X -> C -> C) :
  forall (fuel : nat) (r : DWARFReader) (acc : C) (pre : list (DWARFReader * X)),
    fillLoop fuel parse add r (foldl (fun c '(r, x) => add r x c) acc pre)
    = let '(o, xs) := fillLoop fuel parse (fun r x l => l ++ [(r, x)]) r pre in
      (o, foldl (fun c '(r, x) => add r x c) acc xs).
Proof.
  induction fuel as [|fuel IH]; intros r acc pre; cbn [fillLoop];
    destruct (empty r); try reflexivity.
  destruct (parse r) as [[x r']| | | |]; try reflexivity.
  rewrite <- IH. rewrite foldl_app. reflexivity.
Qed.

Lemma fillLoop_pre {X : Type} (parse : M X) :
  forall (fuel : nat) (r : DWARFReader) (pre : list (DWARFReader * X)),
    fillLoop fuel parse (fun r x l => l ++ [(r, x)]) r pre
    = let '(o, xs) := fillLoop fuel parse (fun r x l => l ++ [(r, x)]) r [] in
      (o, pre ++ xs).
Proof.
  induction fuel as [|fuel IH]; intros r pre; cbn [fillLoop];
    destruct (empty r); try (rewrite app_nil_r; reflexivity).
  destruct (parse r) as [[x r']| | | |]; try (rewrite app_nil_r; reflexivity).
  rewrite (IH r' (pre ++ [(r, x)])), (IH r' ([] ++ [(r, x)])).
  destruct (fillLoop fuel parse _ r' []) as [o xs].
  rewrite <- app_assoc. reflexivity.
Qed.

Lemma foldl_snoc {X : Type} (acc : list X) (xs : list (DWARFReader * X)) :
  foldl (fun (c : list X) '(_, x) => c ++ [x]) acc xs = acc ++ xs.*2.
Proof.
  revert acc. induction xs as [|[r x] xs IH]; intros acc; cbn [foldl fmap list_fmap].
  - rewrite app_nil_r. reflexivity.
  - rewrite IH, <- app_assoc. reflexivity.
Qed.

Lemma fillLoop_parsed {X : Type} (parse : M X) :
  forall (fuel : nat) (r : DWARFReader) (xs : list (DWARFReader * X)),
    fillLoop fuel parse (fun r x l => l ++ [(r, x)]) r [] = (Ok tt, xs) ->
    parsedAll parse r xs /\ (length xs <= fuel)%nat.
Proof.
  induction fuel as [|fuel IH]; intros r xs; cbn [fillLoop];
    destruct (empty r) eqn:E;
    try discriminate;
    try (intros [= <-]; split; [exact E | cbn; lia]).
  destruct (parse r) as [[x r']| | | |] eqn:P; try discriminate.
  rewrite fillLoop_pre.
  destruct (fillLoop fuel parse _ r' []) as [o ys] eqn:F.
  intros [= -> <-]. destruct (IH r' ys F) as [Hp Hlen].
  cbn [app parsedAll length]. split; [|lia].
  split; [reflexivity|]. split; [exact E|].
  exists r'. split; [exact P | exact Hp].
Qed.

Lemma parsed_fillLoop {X : Type} (parse : M X) :
  forall (fuel : nat) (r : DWARFReader) (xs : list (DWARFReader * X)),
    parsedAll parse r xs -> (length xs <= fuel)%nat ->
    fillLoop fuel parse (fun r x l => l ++ [(r, x)]) r [] = (Ok tt, xs).
Proof.
  induction fuel as [|fuel IH]; intros r [|[r0 x] xs] H L;
    cbn [parsedAll length] in *.
  - cbn [fillLoop]. rewrite H. reflexivity.
  - lia.
  - cbn [fillLoop]. rewrite H. reflexivity.
  - destruct H as (-> & E & r' & P & H).
    cbn [fillLoop]. rewrite E, P, fillLoop_pre.
    rewrite (IH r' xs H) by lia. reflexivity.
Qed.


(** C9.  A call of [units()], [ranges()] or [pubnames()] that returns has
    gone through its section once, from the start to the end, has put what
    the constructor gave into the container, in the order of the section
    ([units()] under the offset of the unit in the section), and has
    cleared the section handle; with a null handle the container is
    returned as it is.  Every later call returns the same container and
    leaves the object as it is, whatever the constructor would do and with
    no step of the parsing loop.  The call does return when the
    constructor takes the section to its end without an exception. *)
Theorem indexes_built_once (U : Type) (newU : M U) (fuel : nat) (d : Indexes U) :
  (forall (m : gmap Z U) (d1 : Indexes U),
      units newU fuel d = (Ok m, d1) ->
      info d1 = None
      /\ (forall (newU' : M U) (fuel' : nat), units newU' fuel' d1 = (Ok m, d1))
      /\ d1 = mkIndexes (ix_io d) (ix_version d) None m
                        (arangesh d) (aranges d) (pubnamesh d) (pubnameUnits d)
      /\ match info d with
         | Some sec =>
             exists xs : list (DWARFReader * U),
               parsedAll newU (sectionReader d sec) xs
               /\ (length xs <= fuel)%nat
               /\ m = foldl (fun c '(r, u) => <[u64 (off r - sh_offset sec) := u]> c)
                            (unitsm d) xs
         | None => m = unitsm d
         end)
  /\ (forall (l : list DwarfARangeSet) (d1 : Indexes U),
      ranges fuel d = (Ok l, d1) ->
      arangesh d1 = None
      /\ (forall fuel' : nat, ranges fuel' d1 = (Ok l, d1))
      /\ d1 = mkIndexes (ix_io d) (ix_version d) (info d) (unitsm d)
                        None l (pubnamesh d) (pubnameUnits d)
      /\ match arangesh d with
         | Some sec =>
             exists xs : list (DWARFReader * DwarfARangeSet),
               parsedAll (newARangeSet fuel) (sectionReader d sec) xs
               /\ (length xs <= fuel)%nat
               /\ l = aranges d ++ xs.*2
         | None => l = aranges d
         end)
  /\ (forall (l : list DwarfPubnameUnit) (d1 : Indexes U),
      pubnames fuel d = (Ok l, d1) ->
      pubnamesh d1 = None
      /\ (forall fuel' : nat, pubnames fuel' d1 = (Ok l, d1))
      /\ d1 = mkIndexes (ix_io d) (ix_version d) (info d) (unitsm d)
                        (arangesh d) (aranges d) None l
      /\ match pubnamesh d with
         | Some sec =>
             exists xs : list (DWARFReader * DwarfPubnameUnit),
               parsedAll (newPubnameUnit fuel) (sectionReader d sec) xs
               /\ (length xs <= fuel)%nat
               /\ l = pubnameUnits d ++ xs.*2
         | None => l = pubnameUnits d
         end)
  /\ (forall (sec : ElfSection) (xs : list (DWARFReader * U)),
      info d = Some sec ->
      parsedAll newU (sectionReader d sec) xs -> (length xs <= fuel)%nat ->
      (units newU fuel d).1
      = Ok (foldl (fun c '(r, u) => <[u64 (off r - sh_offset sec) := u]> c)
                  (unitsm d) xs))
  /\ (forall (sec : ElfSection) (xs : list (DWARFReader * DwarfARangeSet)),
      arangesh d = Some sec ->
      parsedAll (newARangeSet fuel) (sectionReader d sec) xs ->
      (length xs <= fuel)%nat ->
      (ranges fuel d).1 = Ok (aranges d ++ xs.*2))
  /\ (forall (sec : ElfSection) (xs : list (DWARFReader * DwarfPubnameUnit)),
      pubnamesh d = Some sec ->
      parsedAll (newPubnameUnit fuel) (sectionReader d sec) xs ->
      (length xs <= fuel)%nat ->
      (pubnames fuel d).1 = Ok (pubnameUnits d ++ xs.*2)).
Proof.
  split; [|split; [|split; [|split; [|split]]]].
  - intros m d1. unfold units at 1.
    destruct (info d) as [sec|] eqn:Hinfo.
    + pose proof (fillLoop_fold newU
                    (fun r u (m : gmap Z U) => <[u64 (off r - sh_offset sec) := u]> m)
                    fuel (sectionReader d sec) (unitsm d) []) as E.
      cbn [foldl] in E. unfold sectionReader in E at 1. rewrite E. clear E.
      destruct (fillLoop fuel newU _ _ []) as [o xs] eqn:Ex.
      destruct o as [[]| | | |]; cbn; try discriminate.
      intros [= <- <-]. split; [reflexivity|]. split; [reflexivity|].
      split; [reflexivity|].
      exists xs. destruct (fillLoop_parsed newU fuel _ xs Ex) as [Hp Hlen].
      split; [exact Hp|]. split; [exact Hlen | reflexivity].
    + intros [= <- <-]. split; [exact Hinfo|]. split.
      * intros newU' fuel'. unfold units. rewrite Hinfo. reflexivity.
      * split; [|reflexivity]. destruct d; cbn in *. subst. reflexivity.
  - intros l d1. unfold ranges at 1.
    destruct (arangesh d) as [sec|] eqn:Hsh.
    + pose proof (fillLoop_fold (newARangeSet fuel)
                    (fun _ x (l : list DwarfARangeSet) => l ++ [x])
                    fuel (sectionReader d sec) (aranges d) []) as E.
      cbn [foldl] in E. unfold sectionReader in E at 1. rewrite E. clear E.
      destruct (fillLoop fuel (newARangeSet fuel) _ _ []) as [o xs] eqn:Ex.
      destruct o as [[]| | | |]; cbn; try discriminate.
      intros [= <- <-]. split; [reflexivity|]. split; [reflexivity|].
      split; [reflexivity|].
      exists xs. destruct (fillLoop_parsed _ fuel _ xs Ex) as [Hp Hlen].
      split; [exact Hp|]. split; [exact Hlen | apply foldl_snoc].
    + intros [= <- <-]. split; [exact Hsh|]. split.
      * intros fuel'. unfold ranges. rewrite Hsh. reflexivity.
      * split; [|reflexivity]. destruct d; cbn in *. subst. reflexivity.
  - intros l d1. unfold pubnames at 1.
    destruct (pubnamesh d) as [sec|] eqn:Hsh.
    + pose proof (fillLoop_fold (newPubnameUnit fuel)
                    (fun _ x (l : list DwarfPubnameUnit) => l ++ [x])
                    fuel (sectionReader d sec) (pubnameUnits d) []) as E.
      cbn [foldl] in E. unfold sectionReader in E at 1. rewrite E. clear E.
      destruct (fillLoop fuel (newPubnameUnit fuel) _ _ []) as [o xs] eqn:Ex.
      destruct o as [[]| | | |]; cbn; try discriminate.
      intros [= <- <-]. split; [reflexivity|]. split; [reflexivity|].
      split; [reflexivity|].
      exists xs. destruct (fillLoop_parsed _ fuel _ xs Ex) as [Hp Hlen].
      split; [exact Hp|]. split; [exact Hlen | apply foldl_snoc].
    + intros [= <- <-]. split; [exact Hsh|]. split.
      * intros fuel'. unfold pubnames. rewrite Hsh. reflexivity.
      * split; [|reflexivity]. destruct d; cbn in *. subst. reflexivity.
  - intros sec xs Hinfo Hp Hlen. unfold units. rewrite Hinfo.
    pose proof (fillLoop_fold newU
                  (fun r u (m : gmap Z U) => <[u64 (off r - sh_offset sec) := u]> m)
                  fuel (sectionReader d sec) (unitsm d) []) as E.
    cbn [foldl] in E. unfold sectionReader in E at 1. rewrite E. clear E.
    rewrite (parsed_fillLoop newU fuel _ xs Hp Hlen). reflexivity.
  - intros sec xs Hsh Hp Hlen. unfold ranges. rewrite Hsh.
    pose proof (fillLoop_fold (newARangeSet fuel)
                  (fun _ x (l : list DwarfARangeSet) => l ++ [x])
                  fuel (sectionReader d sec) (aranges d) []) as E.
    cbn [foldl] in E. unfold sectionReader in E at 1. rewrite E. clear E.
    rewrite (parsed_fillLoop _ fuel _ xs Hp Hlen). cbn.
    rewrite foldl_snoc. reflexivity.
  - intros sec xs Hsh Hp Hlen. unfold pubnames. rewrite Hsh.
    pose proof (fillLoop_fold (newPubnameUnit fuel)
                  (fun _ x (l : list DwarfPubnameUnit) => l ++ [x])
                  fuel (sectionReader d sec) (pubnameUnits d) []) as E.
    cbn [foldl] in E. unfold sectionReader in E at 1. rewrite E. clear E.
    rewrite (parsed_fillLoop _ fuel _ xs Hp Hlen). cbn.
    rewrite foldl_snoc. reflexivity.
Qed.

Lemma indexes_built_once_witness :
  (units unitExtent 5 ix_example).1 = Ok {[ 0 := 4 ]}
  /\ units unitExtent 0 (units unitExtent 5 ix_example).2
     = units unitExtent 5 ix_example
  /\ (ranges 5 ix_example).1
     = Ok [mkARangeSet 44 2 0 8 0 [mkARange 0x401000 0x1000]]
  /\ ranges 0 (ranges 5 ix_example).2 = ranges 5 ix_example
  /\ (pubnames 5 ix_example).1
     = Ok [mkPubnameUnit 23 2 0 0x50 [mkPubname 0x2d [109; 97; 105; 110]]]
  /\ pubnames 0 (pubnames 5 ix_example).2 = pubnames 5 ix_example
  /\ pubnamesh (pubnames 5 ix_example).2 = None
  /\ pubnameUnits (pubnames 5 ix_example).2
     = [mkPubnameUnit 23 2 0 0x50 [mkPubname 0x2d [109; 97; 105; 110]]].
Proof.
  destruct (indexes_built_once Z unitExtent 5 ix_example)
    as (Hu & Hr & Hp & _).
  split; [vm_compute; reflexivity|].
  split.
  { destruct (Hu {[ 0 := 4 ]} (units unitExtent 5 ix_example).2) as (_ & H & _);
      [vm_compute; reflexivity|].
    rewrite H. vm_compute. reflexivity. }
  split; [vm_compute; reflexivity|].
  split.
  { destruct (ranges 5 ix_example) as [o d1] eqn:E.
    destruct o as [l| | | |]; try (vm_compute in E; discriminate).
    destruct (Hr l d1 eq_refl) as (_ & H & _). cbn [snd]. apply H. }
  split; [vm_compute; reflexivity|].
  destruct (Hp [mkPubnameUnit 23 2 0 0x50 [mkPubname 0x2d [109; 97; 105; 110]]]
               (pubnames 5 ix_example).2) as (Hh & H & Hd & _);
    [vm_compute; reflexivity|].
  split; [rewrite H; vm_compute; reflexivity|].
  split; [exact Hh|].
  rewrite Hd. reflexivity.
Defined.

(** C9 as stated fails: on a section whose first unit is followed by two
    stray bytes the first call of [pubnames()] is left by an exception of
    the constructor of the second unit.  The handle is not cleared and the
    unit parsed before is in the list; the second call parses the section
    again, puts that unit into the list once more and is left by the same
    exception.  The second call neither returns the container without
    parsing nor leaves the object as the first call left it. *)
Lemma pubnames_after_exception :
  (pubnames 5 ix_truncated).1 = Throw
  /\ length (pubnameUnits (pubnames 5 ix_truncated).2) = 1%nat
  /\ (pubnames 5 (pubnames 5 ix_truncated).2).1 = Throw
  /\ length (pubnameUnits (pubnames 5 (pubnames 5 ix_truncated).2).2) = 2%nat
  /\ pubnamesh (pubnames 5 ix_truncated).2 = Some (mkSection 0 29)
  /\ pubnameUnits (pubnames 5 ix_truncated).2
     = [mkPubnameUnit 23 2 0 0x50 [mkPubname 0x2d [109; 97; 105; 110]]]
  /\ pubnameUnits (pubnames 5 (pubnames 5 ix_truncated).2).2
     = [mkPubnameUnit 23 2 0 0x50 [mkPubname 0x2d [109; 97; 105; 110]];
        mkPubnameUnit 23 2 0 0x50 [mkPubname 0x2d [109; 97; 105; 110]]]
  /\ (pubnames 5 (pubnames 5 ix_truncated).2).2 <> (pubnames 5 ix_truncated).2.
Proof.
  repeat split; try (vm_compute; reflexivity).
  intros H. apply (f_equal (fun d => length (pubnameUnits d))) in H.
  vm_compute in H. discriminate.
Qed.

(** * Further properties *)

(** ** Little-endian integers *)



Lemma land_shiftl_low (x b k : Z) :
  0 <= k -> 0 <= b < 2^k -> Z.land (Z.shiftl x k) b = 0.
Proof.
  intros Hk Hb. apply Z.bits_inj'. intros n Hn.
  rewrite Z.land_spec, Z.bits_0.
  destruct (Z.lt_ge_cases n k).
  - rewrite Z.shiftl_spec_low by lia. reflexivity.
  - rewrite <- (Z.mod_small b (2^k)) by lia.
    rewrite Z.mod_pow2_bits_high by lia. apply andb_false_r.
Qed.

Lemma lor_shiftl_add (x b k : Z) :
  0 <= k -> 0 <= b < 2^k -> Z.lor (Z.shiftl x k) b = x * 2^k + b.
Proof.
  intros Hk Hb.
  rewrite <- Z.lxor_lor by (apply land_shiftl_low; assumption).
  rewrite <- Z.add_nocarry_lxor by (apply land_shiftl_low; assumption).
  rewrite Z.shiftl_mul_pow2 by lia. reflexivity.
Qed.

Lemma low8 (v : Z) : 0 <= Z.land v 0xff < 256 /\ Z.land v 0xff = v mod 256.
Proof.
  change 0xff with (Z.ones 8). rewrite Z.land_ones by lia.
  change (2^8) with 256. split; [apply Z.mod_pos_bound; lia | reflexivity].
Qed.

Lemma le_combine_cons (b : Z) (bs : list Z) :
  le_combine (b :: bs) = u64 (Z.lor (Z.shiftl (le_combine bs) 8) b).
Proof. reflexivity. Qed.

Lemma le_combine_leBytes (n : nat) : forall v,
  (n <= 8)%nat -> le_combine (leBytes n v) = v mod 2^(8 * Z.of_nat n).
Proof.
  induction n as [|n IH]; intros v Hn.
  - simpl. rewrite Z.mod_1_r. reflexivity.
  - cbn [leBytes]. rewrite le_combine_cons, IH by lia.
    destruct (low8 v) as [Hb Hbm].
    assert (Hp : 0 < 2^(8 * Z.of_nat n)) by (apply Z.pow_pos_nonneg; lia).
    pose proof (Z.mod_pos_bound (Z.shiftr v 8) _ Hp) as Hm.
    rewrite lor_shiftl_add by (change (2^8) with 256; lia).
    rewrite Hbm, Z.shiftr_div_pow2 by lia. change (2^8) with 256.
    replace (8 * Z.of_nat (S n)) with (8 + 8 * Z.of_nat n) by lia.
    rewrite Z.pow_add_r by lia. change (2^8) with 256.
    rewrite (Z.rem_mul_r v 256 (2^(8 * Z.of_nat n))) by lia.
    rewrite (Z.add_comm (v mod 256)), (Z.mul_comm 256).
    apply u64_small.
    assert (Hle : 2^(8 * Z.of_nat n) <= 2^56) by (apply Z.pow_le_mono_r; lia).
    change (2^56) with 72057594037927936 in Hle.
    rewrite Z.shiftr_div_pow2 in Hm by lia. change (2^8) with 256 in Hm.
    pose proof (Z.mod_pos_bound v 256). pow2. nia.
Qed.

Lemma leBytes_length (n : nat) : forall v, length (leBytes n v) = n.
Proof. induction n; intros v; simpl; [reflexivity | rewrite IHn; reflexivity]. Qed.

Lemma readObj_holds (bs : list Z) : forall rd o,
  0 <= o < 2^64 -> holds rd o bs -> readObj rd o (length bs) = Ok bs.
Proof.
  induction bs as [|b bs IH]; intros rd o Ho Hh; [reflexivity|].
  destruct (holds_head _ _ _ _ Ho Hh) as (c & Hc & Hcz).
  cbn [length readObj]. rewrite Hc.
  rewrite (IH rd _ (u64_range _) (holds_tail _ _ _ _ Hh)). simpl. rewrite Hcz. reflexivity.
Qed.

Lemma readObj_inv (n : nat) : forall rd o bs,
  readObj rd o n = Ok bs ->
  length bs = n /\ Forall (fun b => 0 <= b < 256) bs.
Proof.
  induction n as [|n IH]; intros rd o bs; cbn [readObj].
  - intros [= <-]. split; [reflexivity | constructor].
  - destruct (rd o) as [c|]; [|discriminate].
    destruct (readObj rd (u64 (o + 1)) n) as [bs'| | | |] eqn:E; try discriminate.
    cbn [obind]. intros [= <-]. destruct (IH _ _ _ E) as [Hl Hf].
    split; [simpl; lia | constructor; [apply byteZ_range | exact Hf]].
Qed.

Lemma getuint_holds (r : DWARFReader) (n : nat) (v : Z) :
  0 <= off r < 2^64 -> (n <= 8)%nat -> 0 <= v < 2^(8 * Z.of_nat n) ->
  holds (io r) (off r) (leBytes n v) ->
  getuint (Z.of_nat n) r = Ok (v, skip r (Z.of_nat n)).
Proof.
  intros Ho Hn Hv Hh. unfold getuint.
  destruct (Z.ltb_spec 16 (Z.of_nat n)); [lia|].
  destruct (Z.ltb_spec (Z.of_nat n) 0); [lia|].
  unfold bind, take. rewrite Nat2Z.id.
  pose proof (readObj_holds _ _ _ Ho Hh) as Hr.
  rewrite leBytes_length in Hr. rewrite Hr. cbn [obind]. unfold ret.
  rewrite le_combine_leBytes by exact Hn.
  rewrite Z.mod_small by exact Hv. reflexivity.
Qed.

(** Reading an [n]-byte integer gives back the value whose little-endian
    bytes the store holds, and moves the cursor by [n]. *)
Theorem getuint_leBytes (r : DWARFReader) (n : nat) (v : Z) :
  0 <= off r < 2^64 -> (n <= 8)%nat -> 0 <= v < 2^(8 * Z.of_nat n) ->
  holds (io r) (off r) (leBytes n v) ->
  getuint (Z.of_nat n) r = Ok (v, skip r (Z.of_nat n)).
Proof.
  intros Ho Hn Hv Hh. unfold getuint.
  destruct (Z.ltb_spec 16 (Z.of_nat n)); [lia|].
  destruct (Z.ltb_spec (Z.of_nat n) 0); [lia|].
  unfold bind, take. rewrite Nat2Z.id.
  pose proof (readObj_holds _ _ _ Ho Hh) as Hr.
  rewrite leBytes_length in Hr. rewrite Hr. cbn [obind]. unfold ret.
  rewrite le_combine_leBytes by exact Hn.
  rewrite Z.mod_small by exact Hv. reflexivity.
Qed.

Lemma getuint_leBytes_witness :
  getuint 4 (readerOver [0x78; 0x56; 0x34; 0x12])
  = Ok (0x12345678, skip (readerOver [0x78; 0x56; 0x34; 0x12]) 4).
Proof.
  apply (getuint_leBytes (readerOver [0x78; 0x56; 0x34; 0x12]) 4 0x12345678).
  - vm_compute. split; [intro; discriminate | reflexivity].
  - lia.
  - vm_compute. split; [intro; discriminate | reflexivity].
  - apply (holds_bytesAt 0 [0x78; 0x56; 0x34; 0x12]);
      [reflexivity | lia | vm_compute; discriminate].
Defined.

Lemma le_value_bound (bs : list Z) :
  Forall (fun b => 0 <= b < 256) bs ->
  0 <= le_value bs < 2^(8 * Z.of_nat (length bs)).
Proof.
  induction 1 as [|b bs Hb _ IH]; [simpl; lia|].
  cbn [le_value fold_right length]. fold (le_value bs).
  replace (8 * Z.of_nat (S (length bs))) with (8 + 8 * Z.of_nat (length bs)) by lia.
  rewrite Z.pow_add_r by lia. change (2^8) with 256. nia.
Qed.

Lemma le_combine_value (bs : list Z) :
  Forall (fun b => 0 <= b < 256) bs -> (length bs <= 8)%nat ->
  le_combine bs = le_value bs.
Proof.
  induction 1 as [|b bs Hb Hbs IH]; intros Hl; [reflexivity|].
  rewrite le_combine_cons, IH by (simpl in Hl; lia).
  cbn [le_value fold_right]. fold (le_value bs).
  rewrite lor_shiftl_add by (change (2^8) with 256; lia). change (2^8) with 256.
  pose proof (le_value_bound bs Hbs) as Hv.
  assert (Hle : 2^(8 * Z.of_nat (length bs)) <= 2^56)
    by (apply Z.pow_le_mono_r; simpl in Hl; lia).
  change (2^56) with 72057594037927936 in Hle.
  rewrite u64_small by (pow2; lia). lia.
Qed.

Lemma bytes4_value (q0 q1 q2 q3 : Z) :
  0 <= q0 < 256 -> 0 <= q1 < 256 -> 0 <= q2 < 256 -> 0 <= q3 < 256 ->
  u32 (Z.lor (Z.lor (Z.lor q0 (Z.shiftl q1 8)) (Z.shiftl q2 16)) (Z.shiftl q3 24))
  = le_combine [q0; q1; q2; q3].
Proof.
  intros H0 H1 H2 H3.
  rewrite le_combine_value by (repeat constructor; lia || (simpl; lia)).
  rewrite (Z.lor_comm q0), lor_shiftl_add by (change (2^8) with 256; lia).
  rewrite (Z.lor_comm _ (Z.shiftl q2 16)), lor_shiftl_add
    by (change (2^8) with 256; change (2^16) with 65536; lia).
  rewrite (Z.lor_comm _ (Z.shiftl q3 24)), lor_shiftl_add
    by (change (2^8) with 256; change (2^16) with 65536;
        change (2^24) with 16777216; lia).
  change (2^8) with 256. change (2^16) with 65536. change (2^24) with 16777216.
  rewrite u32_small by (pow2; lia). cbn [le_value fold_right]. lia.
Qed.

Lemma bytes2_value (q0 q1 : Z) :
  0 <= q0 < 256 -> 0 <= q1 < 256 ->
  u16 (Z.lor q0 (Z.shiftl q1 8)) = le_combine [q0; q1].
Proof.
  intros H0 H1.
  rewrite le_combine_value by (repeat constructor; lia || (simpl; lia)).
  rewrite (Z.lor_comm q0), lor_shiftl_add by (change (2^8) with 256; lia).
  change (2^8) with 256. cbn [le_value fold_right].
  unfold u16. change (2^16) with 65536. rewrite Z.mod_small by lia. lia.
Qed.

Lemma getu8_getuint (r : DWARFReader) : getu8 r = getuint 1 r.
Proof.
  unfold getu8, getuint, bind, take. cbn [Z.ltb Z.compare Pos.compare Pos.compare_cont].
  change (Z.to_nat 1) with 1%nat.
  destruct (readObj (io r) (off r) 1) as [bs| | | |] eqn:E; try reflexivity.
  destruct (readObj_inv _ _ _ _ E) as [Hl Hf]. cbn [obind].
  destruct bs as [|q0 [|? ?]]; try discriminate.
  inversion Hf as [|? ? H0 _]; subst. unfold ret.
  rewrite le_combine_cons. change (le_combine []) with 0.
  rewrite Z.shiftl_0_l, Z.lor_0_l, u64_small by (pow2; lia). reflexivity.
Qed.

Lemma getu16_getuint (r : DWARFReader) : getu16 r = getuint 2 r.
Proof.
  unfold getu16, getuint, bind, take. cbn [Z.ltb Z.compare Pos.compare Pos.compare_cont].
  change (Z.to_nat 2) with 2%nat.
  destruct (readObj (io r) (off r) 2) as [bs| | | |] eqn:E; try reflexivity.
  destruct (readObj_inv _ _ _ _ E) as [Hl Hf]. cbn [obind].
  destruct bs as [|q0 [|q1 [|? ?]]]; try discriminate.
  inversion Hf as [|? ? H0 Hf1]; subst. inversion Hf1 as [|? ? H1 _]; subst.
  unfold ret. rewrite bytes2_value by assumption. reflexivity.
Qed.

Lemma getu32_getuint (r : DWARFReader) : getu32 r = getuint 4 r.
Proof.
  unfold getu32, getuint, bind, take. cbn [Z.ltb Z.compare Pos.compare Pos.compare_cont].
  change (Z.to_nat 4) with 4%nat.
  destruct (readObj (io r) (off r) 4) as [bs| | | |] eqn:E; try reflexivity.
  destruct (readObj_inv _ _ _ _ E) as [Hl Hf]. cbn [obind].
  destruct bs as [|q0 [|q1 [|q2 [|q3 [|? ?]]]]]; try discriminate.
  inversion Hf as [|? ? H0 Hf1]; subst. inversion Hf1 as [|? ? H1 Hf2]; subst.
  inversion Hf2 as [|? ? H2 Hf3]; subst. inversion Hf3 as [|? ? H3 _]; subst.
  unfold ret. rewrite bytes4_value by assumption. reflexivity.
Qed.

(** The fixed-width readers are the general one at their width: one, two
    and four bytes, least significant first. *)
Theorem fixed_width_reads (r : DWARFReader) :
  getu8 r = getuint 1 r /\ getu16 r = getuint 2 r /\ getu32 r = getuint 4 r.
Proof.
  split; [apply getu8_getuint | split; [apply getu16_getuint | apply getu32_getuint]].
Qed.

Lemma skip_skip (r : DWARFReader) (a b : Z) : skip (skip r a) b = skip r (a + b).
Proof.
  unfold skip, setOffset. cbn. rewrite u64_add_l, Z.add_assoc. reflexivity.
Qed.

Lemma getuint_inv (n : Z) (r r1 : DWARFReader) (v : Z) :
  getuint n r = Ok (v, r1) -> 0 <= n <= 16 /\ r1 = skip r n.
Proof.
  unfold getuint.
  destruct (Z.ltb_spec 16 n); [discriminate|].
  destruct (Z.ltb_spec n 0); [discriminate|].
  unfold bind, take.
  destruct (readObj (io r) (off r) (Z.to_nat n)); try discriminate.
  cbn [obind]. unfold ret. intros [= <- <-].
  rewrite Z2Nat.id by lia. split; [lia | reflexivity].
Qed.

(** An initial length moves the cursor by 4 bytes, or by 12 when the first
    four are the escape 0xffffffff; nothing else changes in the cursor. *)
Theorem getlength_advance (r r1 : DWARFReader) (len : Z) :
  getlength r = Ok (len, r1) ->
  exists v : Z,
    value (getu32 r) = Ok v
    /\ (v = 0xffffffff -> r1 = skip r 12)
    /\ (v <> 0xffffffff -> r1 = skip r 4).
Proof.
  intros H. destruct (getu32 r) as [[v r0]| | | |] eqn:E;
    try (unfold getlength, bind in H; rewrite E in H; discriminate).
  exists v. split; [reflexivity|].
  destruct (getu32_inv _ _ _ E) as [_ ->].
  rewrite (getlength_eq _ _ _ E) in H.
  split; intros Hv.
  - subst v. assert (H' : getuint 8 (skip r 4) = Ok (len, r1)) by exact H.
    destruct (getuint_inv _ _ _ _ H') as [_ ->].
    rewrite skip_skip. reflexivity.
  - destruct (0xfffffff0 <=? v).
    + destruct (Z.eqb_spec v 0xffffffff); [contradiction|].
      injection H as _ <-. reflexivity.
    + injection H as _ <-. reflexivity.
Qed.

Lemma getlength_advance_witness :
  exists v : Z,
    value (getu32 (readerOver [0xff; 0xff; 0xff; 0xff; 1; 0; 0; 0; 0; 0; 0; 1])) = Ok v
    /\ (v = 0xffffffff ->
        skip (readerOver [0xff; 0xff; 0xff; 0xff; 1; 0; 0; 0; 0; 0; 0; 1]) 12
        = skip (readerOver [0xff; 0xff; 0xff; 0xff; 1; 0; 0; 0; 0; 0; 0; 1]) 12)
    /\ (v <> 0xffffffff ->
        skip (readerOver [0xff; 0xff; 0xff; 0xff; 1; 0; 0; 0; 0; 0; 0; 1]) 12
        = skip (readerOver [0xff; 0xff; 0xff; 0xff; 1; 0; 0; 0; 0; 0; 0; 1]) 4).
Proof.
  apply (getlength_advance
           (readerOver [0xff; 0xff; 0xff; 0xff; 1; 0; 0; 0; 0; 0; 0; 1])
           (skip (readerOver [0xff; 0xff; 0xff; 0xff; 1; 0; 0; 0; 0; 0; 0; 1]) 12)
           (2^56 + 1)).
  vm_compute. reflexivity.
Defined.

(** ** The limit of a cursor *)

Lemma withEnd_skip (r : DWARFReader) (e a : Z) :
  skip (withEnd r e) a = withEnd (skip r a) e.
Proof. reflexivity. Qed.

Lemma withEnd_setOffset (r : DWARFReader) (e o : Z) :
  setOffset (withEnd r e) o = withEnd (setOffset r o) e.
Proof. reflexivity. Qed.

Lemma take_withEnd (n : nat) (r : DWARFReader) (e : Z) :
  take n (withEnd r e) = atEnd e (take n r).
Proof.
  unfold take, atEnd. cbn [io off withEnd].
  destruct (readObj (io r) (off r) n); reflexivity.
Qed.

Lemma getuint_withEnd (n : Z) (r : DWARFReader) (e : Z) :
  getuint n (withEnd r e) = atEnd e (getuint n r).
Proof.
  unfold getuint. destruct (16 <? n); [reflexivity|].
  destruct (n <? 0); [reflexivity|].
  unfold bind. rewrite take_withEnd. unfold atEnd.
  destruct (take (Z.to_nat n) r) as [[bs r']| | | |]; reflexivity.
Qed.

Lemma getu32_withEnd (r : DWARFReader) (e : Z) :
  getu32 (withEnd r e) = atEnd e (getu32 r).
Proof.
  rewrite !getu32_getuint. apply getuint_withEnd.
Qed.

(** No read looks at the limit of its cursor: whatever [end] is, the same
    bytes are read and the cursor moves alike.  A cursor that is exhausted
    ([off = end]) still reads what the store holds behind its slice. *)
Theorem reads_ignore_limit (r : DWARFReader) (e : Z) :
  (forall n : Z, getuint n (withEnd r e) = atEnd e (getuint n r))
  /\ getu8 (withEnd r e) = atEnd e (getu8 r)
  /\ getu16 (withEnd r e) = atEnd e (getu16 r)
  /\ getu32 (withEnd r e) = atEnd e (getu32 r)
  /\ getuleb128 (withEnd r e) = atEnd e (getuleb128 r)
  /\ getsleb128 (withEnd r e) = atEnd e (getsleb128 r)
  /\ getstring (withEnd r e) = atEnd e (getstring r)
  /\ getlength (withEnd r e) = atEnd e (getlength r)
  /\ empty (withEnd r (off r)) = true.
Proof.
  split; [intros n; apply getuint_withEnd|].
  split; [rewrite !getu8_getuint; apply getuint_withEnd|].
  split; [rewrite !getu16_getuint; apply getuint_withEnd|].
  split; [apply getu32_withEnd|].
  split.
  { unfold getuleb128, bind, getuleb128shift, atEnd. cbn [io off withEnd].
    destruct (getuleb128shift_loop 5 (io r) (off r) 0 0) as [[[[res sh] sg] o']| | | |];
      reflexivity. }
  split.
  { unfold getsleb128, bind, getuleb128shift, atEnd. cbn [io off withEnd].
    destruct (getuleb128shift_loop 5 (io r) (off r) 0 0) as [[[[res sh] sg] o']| | | |];
      reflexivity. }
  split.
  { unfold getstring, atEnd. cbn [io off withEnd].
    destruct (getstring_loop 2001 (io r) (off r) []) as [[s o']| | | |]; reflexivity. }
  split.
  { unfold getlength, bind. rewrite getu32_withEnd. unfold atEnd.
    destruct (getu32 r) as [[v r0]| | | |]; try reflexivity. cbn [obind].
    destruct (0xfffffff0 <=? v); [|reflexivity].
    destruct (v =? 0xffffffff); [|reflexivity].
    apply getuint_withEnd. }
  unfold empty. cbn [off rend withEnd]. apply Z.eqb_refl.
Qed.

(** ** LEB128 within 32 bits *)

Lemma getuleb128_holds (r : DWARFReader) (v : Z) :
  0 <= off r < 2^64 -> 0 <= v < 2^31 ->
  holds (io r) (off r) (encode_uleb128 v) ->
  getuleb128 r
  = Ok (v, setOffset r (off r + Z.of_nat (length (encode_uleb128 v)))).
Proof.
  intros Ho Hv Hh. unfold getuleb128, bind, getuleb128shift.
  destruct (uleb_loop_encode 9 5 (io r) (off r) 0 0 v Ho) as (sh & sg & E);
    [lia | lia | lia | reflexivity | change (2^0) with 1; lia | exact Hh |].
  rewrite E. cbn [obind]. unfold ret, setOffset.
  rewrite Z.shiftl_0_r, Z.lor_0_l, u64_idem. reflexivity.
Qed.

(** Below 2^31 the unsigned decoder undoes the encoder of the standard,
    wherever the bytes lie, and leaves the cursor behind them. *)
Theorem uleb128_round_trip (r : DWARFReader) (v : Z) :
  0 <= off r < 2^64 -> 0 <= v < 2^31 ->
  holds (io r) (off r) (encode_uleb128 v) ->
  getuleb128 r
  = Ok (v, setOffset r (off r + Z.of_nat (length (encode_uleb128 v)))).
Proof.
  intros Ho Hv Hh. unfold getuleb128, bind, getuleb128shift.
  destruct (uleb_loop_encode 9 5 (io r) (off r) 0 0 v Ho) as (sh & sg & E);
    [lia | lia | lia | reflexivity | change (2^0) with 1; lia | exact Hh |].
  rewrite E. cbn [obind]. unfold ret, setOffset.
  rewrite Z.shiftl_0_r, Z.lor_0_l, u64_idem. reflexivity.
Qed.

Lemma uleb128_round_trip_witness :
  getuleb128 (readerOver [0xe5; 0x8e; 0x26])
  = Ok (624485, setOffset (readerOver [0xe5; 0x8e; 0x26]) 3).
Proof.
  apply (uleb128_round_trip (readerOver [0xe5; 0x8e; 0x26]) 624485).
  - vm_compute. split; [intro; discriminate | reflexivity].
  - vm_compute. split; [intro; discriminate | reflexivity].
  - apply (holds_bytesAt 0 [0xe5; 0x8e; 0x26]);
      [reflexivity | lia | vm_compute; discriminate].
Defined.

Lemma u64_lor (a b : Z) : u64 (Z.lor a b) = Z.lor (u64 a) (u64 b).
Proof.
  unfold u64. rewrite <- !Z.land_ones by lia. apply Z.land_lor_distr_l.
Qed.

Lemma s64_u64 (a b : Z) : u64 a = u64 b -> s64 a = s64 b.
Proof. unfold u64, s64, signed. intros ->. reflexivity. Qed.

Lemma s64_small (a : Z) : - 2^63 <= a < 2^63 -> s64 a = a.
Proof.
  intros H. unfold s64, signed.
  change (2^64) with 18446744073709551616.
  change (2^(64-1)) with 9223372036854775808.
  change (2^63) with 9223372036854775808 in H.
  destruct (Z.ltb_spec (a mod 18446744073709551616) 9223372036854775808); divlia.
Qed.

(** The last byte of a signed encoding: what the decoder makes of it. *)
Lemma sleb_last_byte (shift v : Z) :
  In shift [0; 7; 14; 21; 28] -> -64 <= v < 64 ->
  - 2^31 <= v * 2^shift < 2^31 ->
  u64 (if negb (Z.land (Z.land v 0x7f) 0x40 =? 0)
       then Z.lor (u64 (s32 (Z.shiftl (Z.land v 0x7f) shift)))
                  (u64 (- Z.shiftl 1 (shift + 7)))
       else u64 (s32 (Z.shiftl (Z.land v 0x7f) shift)))
  = u64 (Z.shiftl v shift).
Proof.
  intros Hs Hv Hfit.
  assert (H : forallb (fun s => forallb (fun v =>
            implb ((- 2^31 <=? v * 2^s) && (v * 2^s <? 2^31))
              (u64 (if negb (Z.land (Z.land v 0x7f) 0x40 =? 0)
                    then Z.lor (u64 (s32 (Z.shiftl (Z.land v 0x7f) s)))
                               (u64 (- Z.shiftl 1 (s + 7)))
                    else u64 (s32 (Z.shiftl (Z.land v 0x7f) s)))
               =? u64 (Z.shiftl v s))) (seqZ (-64) 128)) [0; 7; 14; 21; 28] = true)
    by (vm_compute; reflexivity).
  rewrite forallb_forall in H. specialize (H shift Hs).
  rewrite forallb_forall in H.
  assert (Hin : In v (seqZ (-64) 128)) by (apply list_elem_of_In, elem_of_seqZ; lia).
  specialize (H v Hin).
  destruct (Z.leb_spec (- 2^31) (v * 2^shift)); [|lia].
  destruct (Z.ltb_spec (v * 2^shift) (2^31)); [|lia].
  cbn [andb implb] in H. apply Z.eqb_eq in H. exact H.
Qed.

(** When the encoder stops, the value left fits seven bits with sign. *)
Lemma sleb_stop_range (v : Z) :
  ((Z.shiftr v 7 =? 0) && (Z.land (Z.land v 0x7f) 0x40 =? 0))
  || ((Z.shiftr v 7 =? -1) && negb (Z.land (Z.land v 0x7f) 0x40 =? 0)) = true ->
  -64 <= v < 64.
Proof.
  intros H. destruct (low7 v) as [Hg _].
  assert (F : forallb (fun g => implb (Z.land g 0x40 =? 0) (g <? 64)
                 && implb (negb (Z.land g 0x40 =? 0))
                          ((-64 <=? Z.lor g (Z.shiftl (-1) 7))
                           && (Z.lor g (Z.shiftl (-1) 7) <? 0)))
               (seqZ 0 128) = true) by (vm_compute; reflexivity).
  rewrite forallb_forall in F.
  assert (Hin : In (Z.land v 0x7f) (seqZ 0 128))
    by (apply list_elem_of_In, elem_of_seqZ; lia).
  specialize (F _ Hin). apply andb_true_iff in F. destruct F as [F1 F2].
  pose proof (split7 v) as Hsplit.
  apply orb_true_iff in H. destruct H as [H|H]; apply andb_true_iff in H;
    destruct H as [Hv' Hb].
  - apply Z.eqb_eq in Hv'. rewrite Hv', Z.shiftl_0_l, Z.lor_0_r in Hsplit.
    rewrite Hb in F1. cbn [implb] in F1. apply Z.ltb_lt in F1. lia.
  - apply Z.eqb_eq in Hv'. rewrite Hv' in Hsplit.
    rewrite Hb in F2. cbn [implb] in F2. apply andb_true_iff in F2.
    destruct F2 as [F2 F3]. apply Z.leb_le in F2. apply Z.ltb_lt in F3. lia.
Qed.

(** A value of four bits with sign makes the encoder stop. *)
Lemma sleb_stop_small (v : Z) :
  -8 <= v < 8 ->
  ((Z.shiftr v 7 =? 0) && (Z.land (Z.land v 0x7f) 0x40 =? 0))
  || ((Z.shiftr v 7 =? -1) && negb (Z.land (Z.land v 0x7f) 0x40 =? 0)) = true.
Proof.
  intros Hv.
  assert (F : forallb (fun v =>
                 ((Z.shiftr v 7 =? 0) && (Z.land (Z.land v 0x7f) 0x40 =? 0))
                 || ((Z.shiftr v 7 =? -1) && negb (Z.land (Z.land v 0x7f) 0x40 =? 0)))
               (seqZ (-8) 16) = true) by (vm_compute; reflexivity).
  rewrite forallb_forall in F. apply F.
  apply list_elem_of_In, elem_of_seqZ. lia.
Qed.

Lemma shift_of_countdown (k : nat) (shift : Z) :
  (1 <= k <= 5)%nat -> shift = 7 * (5 - Z.of_nat k) ->
  In shift [0; 7; 14; 21; 28].
Proof.
  intros Hk ->. destruct k as [|[|[|[|[|[|k]]]]]]; try lia; simpl; tauto.
Qed.

(** Within 32 bits the loop of the decoder, followed by the sign extension
    of [getsleb128], rebuilds the value the signed encoder was given. *)
Lemma sleb_loop_encode (n : nat) : forall (k : nat) rd o result shift v,
  0 <= o < 2^64 ->
  (1 <= k <= 5)%nat -> (k <= S n)%nat ->
  shift = 7 * (5 - Z.of_nat k) ->
  - 2^31 <= v * 2^shift < 2^31 ->
  holds rd o (encode_sleb128_n n v) ->
  exists R sh sg,
    getuleb128shift_loop k rd o result shift
    = Ok ((R, sh, sg), u64 (o + Z.of_nat (length (encode_sleb128_n n v))))
    /\ u64 (if sg : bool then Z.lor R (u64 (- Z.shiftl 1 sh)) else R)
       = u64 (Z.lor result (Z.shiftl v shift)).
Proof.
  induction n as [|n IH]; intros k rd o result shift v Ho Hk Hkn Hs Hfit Hh.
  all: pose proof (shift_of_countdown k shift Hk Hs) as Hin.
  all: assert (Hsh : 0 <= shift <= 28) by lia.
  all: destruct (low7 v) as [Hg Hgm].
  all: destruct (group_bits _ Hg) as (G1 & G2 & G3 & G4 & _).
  - (* the encoder has no byte to spare: the value must stop it *)
    assert (k = 1%nat) by lia. subst k.
    assert (Hv8 : -8 <= v < 8).
    { subst shift. change (2^(7 * (5 - Z.of_nat 1))) with 268435456 in Hfit.
      change (2^31) with 2147483648 in Hfit. lia. }
    assert (Henc : encode_sleb128_n 0 v = [Z.land v 0x7f]).
    { simpl. destruct (_ || _); reflexivity. }
    rewrite Henc in *.
    destruct (holds_head _ _ _ _ Ho Hh) as (c & Hc & Hcz).
    rewrite (uleb_loop_S _ _ _ _ _ _ Hc), Hcz. cbv zeta. rewrite G1, G2. cbn [Z.eqb].
    eexists _, _, _. split; [reflexivity|].
    rewrite (u64_lor result (Z.shiftl v shift)).
    rewrite <- (sleb_last_byte shift v Hin) by lia.
    destruct (negb (Z.land (Z.land v 127) 64 =? 0));
      rewrite <- ?Z.lor_assoc; apply u64_lor.
  - cbn [encode_sleb128_n] in *.
    destruct (((Z.shiftr v 7 =? 0) && (Z.land (Z.land v 127) 64 =? 0))
              || ((Z.shiftr v 7 =? -1) && negb (Z.land (Z.land v 127) 64 =? 0)))
      eqn:Hstop.
    + pose proof (sleb_stop_range v Hstop) as Hv64.
      destruct (holds_head _ _ _ _ Ho Hh) as (c & Hc & Hcz).
      destruct k as [|k]; [lia|].
      rewrite (uleb_loop_S _ _ _ _ _ _ Hc), Hcz. cbv zeta. rewrite G1, G2. cbn [Z.eqb].
      eexists _, _, _. split; [reflexivity|].
      rewrite (u64_lor result (Z.shiftl v shift)).
      rewrite <- (sleb_last_byte shift v Hin) by lia.
      destruct (negb (Z.land (Z.land v 127) 64 =? 0));
        rewrite <- ?Z.lor_assoc; apply u64_lor.
    + destruct (holds_head _ _ _ _ Ho Hh) as (c & Hc & Hcz).
      apply holds_tail in Hh.
      assert (Hdiv : Z.shiftr v 7 = v / 128)
        by (rewrite Z.shiftr_div_pow2 by lia; reflexivity).
      destruct k as [|[|k]]; [lia| |].
      { (* shift = 28: the value stops the encoder *)
        subst shift. change (2^(7 * (5 - Z.of_nat 1))) with 268435456 in Hfit.
        change (2^31) with 2147483648 in Hfit.
        rewrite (sleb_stop_small v) in Hstop by lia. discriminate. }
      assert (Hs21 : shift <= 21) by lia.
      assert (HP : 0 < 2^shift <= 2^21)
        by (split; [apply Z.pow_pos_nonneg; lia | apply Z.pow_le_mono_r; lia]).
      change (2^21) with 2097152 in HP.
      assert (Hfitg : 0 <= Z.shiftl (Z.land v 127) shift < 2^31).
      { rewrite Z.shiftl_mul_pow2 by lia. change (2^31) with 2147483648. nia. }
      rewrite (uleb_loop_S _ _ _ _ _ _ Hc), Hcz. cbv zeta. rewrite G3, G4. cbn [Z.eqb].
      rewrite s32_small by lia.
      rewrite (u64_small (Z.shiftl (Z.land v 127) shift))
        by (pow2; change (2^31) with 2147483648 in *; lia).
      destruct (IH (S k) rd (u64 (o + 1))
                  (Z.lor result (Z.shiftl (Z.land v 127) shift)) (shift + 7)
                  (Z.shiftr v 7)) as (R & sh & sg & E & EV);
        [apply u64_range | lia | lia | lia | | exact Hh |].
      { rewrite Hdiv.
        destruct k as [|[|[|[|k]]]]; try lia; subst shift;
          cbn [Z.of_nat Pos.of_succ_nat Pos.succ Z.sub Z.add Z.opp Z.pos_sub
               Z.mul Pos.mul Pos.add Z.succ_double Z.pred_double Z.double
               Pos.pred_double] in *.
        all: match goal with
             | |- context [2 ^ ?e] =>
                 let e' := eval vm_compute in e in change e with e'
             end.
        all: match type of Hfit with
             | context [2 ^ ?e] =>
                 let e' := eval vm_compute in e in change e with e' in Hfit
             end.
        all: change (2^31) with 2147483648 in *.
        all: change (2^7) with 128 in *; change (2^14) with 16384 in *;
             change (2^21) with 2097152 in *; change (2^28) with 268435456 in *;
             change (2^0) with 1 in *.
        all: divlia. }
      rewrite E. exists R, sh, sg. split.
      * do 2 f_equal. rewrite u64_add_l. f_equal. cbn [length]. lia.
      * rewrite EV. f_equal. rewrite <- Z.lor_assoc. f_equal.
        rewrite (Z.add_comm shift 7), <- (Z.shiftl_shiftl _ 7 shift) by lia.
        rewrite <- Z.shiftl_lor. rewrite split7. reflexivity.
Qed.

Lemma getsleb128_holds (r : DWARFReader) (v : Z) :
  0 <= off r < 2^64 -> - 2^31 <= v < 2^31 ->
  holds (io r) (off r) (encode_sleb128 v) ->
  getsleb128 r
  = Ok (v, setOffset r (off r + Z.of_nat (length (encode_sleb128 v)))).
Proof.
  intros Ho Hv Hh. unfold getsleb128, bind, getuleb128shift.
  destruct (sleb_loop_encode 9 5 (io r) (off r) 0 0 v Ho) as (R & sh & sg & E & EV);
    [lia | lia | reflexivity | change (2^0) with 1; lia | exact Hh |].
  rewrite E. cbn [obind]. unfold ret, setOffset. rewrite u64_idem.
  rewrite Z.shiftl_0_r, Z.lor_0_l in EV.
  rewrite (s64_u64 _ _ EV), s64_small; [reflexivity|].
  change (2^31) with 2147483648 in Hv. change (2^63) with 9223372036854775808. lia.
Qed.

(** For every value of 32 bits with sign the signed decoder undoes the
    encoder of the standard and leaves the cursor behind the bytes. *)
Theorem sleb128_round_trip (r : DWARFReader) (v : Z) :
  0 <= off r < 2^64 -> - 2^31 <= v < 2^31 ->
  holds (io r) (off r) (encode_sleb128 v) ->
  getsleb128 r
  = Ok (v, setOffset r (off r + Z.of_nat (length (encode_sleb128 v)))).
Proof.
  intros Ho Hv Hh. unfold getsleb128, bind, getuleb128shift.
  destruct (sleb_loop_encode 9 5 (io r) (off r) 0 0 v Ho) as (R & sh & sg & E & EV);
    [lia | lia | reflexivity | change (2^0) with 1; lia | exact Hh |].
  rewrite E. cbn [obind]. unfold ret, setOffset. rewrite u64_idem.
  rewrite Z.shiftl_0_r, Z.lor_0_l in EV.
  rewrite (s64_u64 _ _ EV), s64_small; [reflexivity|].
  change (2^31) with 2147483648 in Hv. change (2^63) with 9223372036854775808. lia.
Qed.

Lemma sleb128_round_trip_witness :
  getsleb128 (readerOver [0x80; 0x80; 0x80; 0x80; 0x78])
  = Ok (- 2^31, setOffset (readerOver [0x80; 0x80; 0x80; 0x80; 0x78]) 5).
Proof.
  apply (sleb128_round_trip (readerOver [0x80; 0x80; 0x80; 0x80; 0x78]) (- 2^31)).
  - vm_compute. split; [intro; discriminate | reflexivity].
  - vm_compute. split; [intro; discriminate | reflexivity].
  - apply (holds_bytesAt 0 [0x80; 0x80; 0x80; 0x80; 0x78]);
      [reflexivity | lia | vm_compute; discriminate].
Defined.

(** ** Lookups by address *)

Lemma findFDE_in_Some (l : list DwarfFDE) (a : Z) (fde : DwarfFDE) :
  findFDE_in l a = Some fde ->
  exists l1 l2,
    l = l1 ++ fde :: l2
    /\ (iloc fde <= a < u64 (iloc fde + irange fde))
    /\ Forall (fun f => ~ (iloc f <= a < u64 (iloc f + irange f))) l1.
Proof.
  induction l as [|f l IH]; [discriminate|].
  cbn [findFDE_in].
  destruct (Z.leb_spec (iloc f) a) as [H1|H1];
    [destruct (Z.ltb_spec a (u64 (iloc f + irange f))) as [H2|H2]|]; cbn [andb].
  - intros [= <-]. exists [], l. repeat split; [lia | lia | constructor].
  - intros H. destruct (IH H) as (l1 & l2 & -> & Hc & Hn).
    exists (f :: l1), l2. repeat split; [lia | lia |].
    constructor; [lia | exact Hn].
  - intros H. destruct (IH H) as (l1 & l2 & -> & Hc & Hn).
    exists (f :: l1), l2. repeat split; [lia | lia |].
    constructor; [lia | exact Hn].
Qed.

Lemma findFDE_in_None (l : list DwarfFDE) (a : Z) :
  findFDE_in l a = None ->
  Forall (fun f => ~ (iloc f <= a < u64 (iloc f + irange f))) l.
Proof.
  induction l as [|f l IH]; [constructor|].
  cbn [findFDE_in].
  destruct (Z.leb_spec (iloc f) a) as [H1|H1];
    [destruct (Z.ltb_spec a (u64 (iloc f + irange f))) as [H2|H2]|]; cbn [andb].
  - discriminate.
  - intros H. constructor; [lia | exact (IH H)].
  - intros H. constructor; [lia | exact (IH H)].
Qed.

(** [findFDE] answers with the first FDE of the list whose range
    [iloc, iloc + irange) holds the address, and with a null pointer exactly
    when no FDE of the list does. *)
Theorem findFDE_first_cover (fi : DwarfFrameInfo) (a : Z) :
  match findFDE fi a with
  | Some fde =>
      exists l1 l2,
        fdeList fi = l1 ++ fde :: l2
        /\ (iloc fde <= a < u64 (iloc fde + irange fde))
        /\ Forall (fun f => ~ (iloc f <= a < u64 (iloc f + irange f))) l1
  | None =>
      Forall (fun f => ~ (iloc f <= a < u64 (iloc f + irange f))) (fdeList fi)
  end.
Proof.
  unfold findFDE. destruct (findFDE_in (fdeList fi) a) as [fde|] eqn:E.
  - apply findFDE_in_Some. exact E.
  - apply findFDE_in_None. exact E.
Qed.

Lemma covers_spec (a : Z) (o : LoadedObject) :
  covers a o = true <->
  exists p_vaddr p_memsz,
    In (p_vaddr, p_memsz) (segments o)
    /\ p_vaddr <= u64 (a - reloc o) < u64 (p_vaddr + p_memsz).
Proof.
  unfold covers. rewrite existsb_exists. split.
  - intros ([v m] & Hin & H). exists v, m. split; [exact Hin|].
    apply andb_true_iff in H. destruct H as [H1 H2].
    apply Z.leb_le in H1. apply Z.ltb_lt in H2. lia.
  - intros (v & m & Hin & H). exists (v, m). split; [exact Hin|].
    apply andb_true_iff. split; [apply Z.leb_le | apply Z.ltb_lt]; lia.
Qed.

Lemma covers_false (a : Z) (o : LoadedObject) :
  covers a o = false ->
  forall p_vaddr p_memsz, In (p_vaddr, p_memsz) (segments o) ->
    ~ (p_vaddr <= u64 (a - reloc o) < u64 (p_vaddr + p_memsz)).
Proof.
  intros E v m Hin Hc.
  assert (covers a o = true) by (apply covers_spec; eauto).
  congruence.
Qed.

(** [Process::findObject] answers with the first loaded object one of whose
    [PT_LOAD] segments holds the address, taken relative to the object's
    load address, and with a null pointer exactly when no object has such
    a segment. *)
Theorem findObject_first_cover (p : Process) (a : Z) :
  match findObject p a with
  | Some o =>
      exists l1 l2,
        objects p = l1 ++ o :: l2
        /\ (exists p_vaddr p_memsz,
              In (p_vaddr, p_memsz) (segments o)
              /\ p_vaddr <= u64 (a - reloc o) < u64 (p_vaddr + p_memsz))
        /\ Forall (fun o' =>
             forall p_vaddr p_memsz, In (p_vaddr, p_memsz) (segments o') ->
               ~ (p_vaddr <= u64 (a - reloc o') < u64 (p_vaddr + p_memsz))) l1
  | None =>
      Forall (fun o' =>
        forall p_vaddr p_memsz, In (p_vaddr, p_memsz) (segments o') ->
          ~ (p_vaddr <= u64 (a - reloc o') < u64 (p_vaddr + p_memsz)))
        (objects p)
  end.
Proof.
  unfold findObject. induction (objects p) as [|o l IH]; [constructor|].
  cbn [List.find]. destruct (covers a o) eqn:E.
  - exists [], l. split; [reflexivity|]. split; [|constructor].
    apply covers_spec. exact E.
  - destruct (List.find (covers a) l) as [o'|].
    + destruct IH as (l1 & l2 & -> & Hc & Hn).
      exists (o :: l1), l2. split; [reflexivity|]. split; [exact Hc|].
      constructor; [apply covers_false; exact E | exact Hn].
    + constructor; [apply covers_false; exact E | exact IH].
Qed.

(** ** Rounding and hashing *)

(** [roundup2] on a [size_t] value and a non-zero [size_t] alignment: take
    the least multiple of [align] that is not below [val].  [roundup2]
    returns it reduced to 64 bits, hence the multiple itself whenever it
    fits 64 bits. *)
Theorem roundup2_multiple (val align : Z) :
  0 <= val < 2^64 -> 0 < align < 2^64 ->
  exists q : Z,
    val <= q * align < val + align
    /\ (forall k : Z, val <= k * align -> q * align <= k * align)
    /\ roundup2 val align = Ok (u64 (q * align))
    /\ (q * align < 2^64 -> roundup2 val align = Ok (q * align)).
Proof.
  intros Hv Ha. unfold roundup2.
  destruct (Z.eqb_spec align 0); [lia|].
  pose proof (Z.mod_pos_bound val align ltac:(lia)) as Hm.
  rewrite (u64_small (align - val mod align)) by (pow2; lia).
  pose proof (Z.div_mod val align ltac:(lia)) as Hdm.
  assert (Hq : exists q : Z,
             val + (align - val mod align) mod align = q * align
             /\ val <= q * align < val + align).
  { destruct (Z.eq_dec (val mod align) 0) as [Hz|Hnz].
    - exists (val / align).
      rewrite Hz, Z.sub_0_r, Z.mod_same, Z.add_0_r by lia. lia.
    - exists (val / align + 1).
      rewrite (Z.mod_small (align - val mod align)) by lia. lia. }
  destruct Hq as (q & Heq & Hrange). exists q. rewrite Heq.
  split; [exact Hrange|]. split; [|split].
  - intros k Hk.
    assert (q - 1 < k) by nia.
    nia.
  - reflexivity.
  - intros Hfit. rewrite u64_small by (pow2; lia). reflexivity.
Qed.

Lemma roundup2_multiple_witness :
  exists q : Z,
    100 <= q * (2^64 - 50) < 100 + (2^64 - 50)
    /\ (forall k : Z, 100 <= k * (2^64 - 50) -> q * (2^64 - 50) <= k * (2^64 - 50))
    /\ roundup2 100 (2^64 - 50) = Ok (u64 (q * (2^64 - 50)))
    /\ (q * (2^64 - 50) < 2^64 -> roundup2 100 (2^64 - 50) = Ok (q * (2^64 - 50))).
Proof.
  apply (roundup2_multiple 100 (2^64 - 50));
    (split; [first [reflexivity | vm_compute; discriminate] | reflexivity]).
Defined.

(** Where the multiple does not fit 64 bits, the sum wraps around. *)
Lemma roundup2_examples :
  roundup2 21 4 = Ok 24
  /\ roundup2 24 4 = Ok 24
  /\ roundup2 100 (2^64 - 50) = Ok (2^64 - 50)
  /\ roundup2 (2^64 - 3) 8 = Ok 0
  /\ roundup2 21 0 = Undef.
Proof. repeat split; reflexivity. Qed.

Lemma elf_hash_step_bound (h c : Z) : 0 <= elf_hash_step h c < 2^28.
Proof.
  unfold elf_hash_step.
  set (h1 := u32 (Z.shiftl h 4 + c)).
  set (g := Z.land h1 0xf0000000).
  set (h2 := if g =? 0 then h1 else Z.lxor h1 (Z.shiftr g 24)).
  assert (Hh1 : 0 <= h1 < 2^32) by (apply Z.mod_pos_bound; reflexivity).
  assert (Hg : 0 <= g) by (apply Z.land_nonneg; lia).
  assert (Hh2 : 0 <= h2).
  { unfold h2. destruct (g =? 0); [lia|].
    apply Z.lxor_nonneg. split; intros _; [apply Z.shiftr_nonneg|]; lia. }
  assert (Hn : 0 <= Z.land h2 (u32 (Z.lnot g))) by (apply Z.land_nonneg; lia).
  assert (E : Z.land h2 (u32 (Z.lnot g))
              = Z.land (Z.land h2 (u32 (Z.lnot g))) (Z.ones 28)).
  { apply Z.bits_inj'. intros n Hn0.
    rewrite !Z.land_spec.
    destruct (Z.lt_ge_cases n 28) as [Hlt|Hge].
    - rewrite Z.ones_spec_low by lia. rewrite andb_true_r. reflexivity.
    - rewrite Z.ones_spec_high by lia. rewrite andb_false_r.
      unfold u32. rewrite <- Z.land_ones by lia. rewrite Z.land_spec.
      destruct (Z.lt_ge_cases n 32) as [H32|H32].
      + rewrite Z.ones_spec_low by lia. rewrite andb_true_r.
        rewrite Z.lnot_spec by lia.
        assert (Hgn : Z.testbit g n = Z.testbit h1 n).
        { unfold g. rewrite Z.land_spec.
          replace (Z.testbit 0xf0000000 n) with true; [apply andb_true_r|].
          assert (n = 28 \/ n = 29 \/ n = 30 \/ n = 31) as [->|[->|[->| ->]]] by lia;
            reflexivity. }
        assert (Hh2n : Z.testbit h2 n = Z.testbit h1 n).
        { unfold h2. destruct (g =? 0); [reflexivity|].
          rewrite Z.lxor_spec, Z.shiftr_spec by lia.
          replace (Z.testbit g (n + 24)) with false; [apply xorb_false_r|].
          symmetry. unfold g. rewrite Z.land_spec.
          replace (Z.testbit h1 (n + 24)) with false; [reflexivity|].
          symmetry. rewrite <- (Z.mod_small h1 (2^32)) by lia.
          apply Z.mod_pow2_bits_high. lia. }
        rewrite Hgn, Hh2n. apply andb_negb_r.
      + rewrite Z.ones_spec_high by lia. rewrite !andb_false_r. reflexivity. }
  rewrite Z.land_ones in E by lia.
  rewrite E. apply Z.mod_pos_bound. reflexivity.
Qed.

Lemma fold_elf_hash_bound (name : list Z) : forall h,
  0 <= h < 2^28 -> 0 <= fold_left elf_hash_step name h < 2^28.
Proof.
  induction name as [|c name IH]; intros h Hh; [exact Hh|].
  cbn [fold_left]. apply IH. apply elf_hash_step_bound.
Qed.

(** The hash of a name has its four high bits clear: it lies below 2^28,
    whatever the characters are. *)
Theorem elf_hash_bound (name : list Z) : 0 <= elf_hash name < 2^28.
Proof.
  unfold elf_hash. apply fold_elf_hash_bound. split; [lia | reflexivity].
Qed.

(** ** The walker *)

Lemma last_cons_default {F : Type} (l : list F) (x d : F) :
  List.last (x :: l) d = List.last l x.
Proof.
  revert x d. induction l as [|y l IH]; intros x d; [reflexivity|].
  change (List.last (y :: l) d = List.last (y :: l) x).
  rewrite (IH y d), (IH y x). reflexivity.
Qed.

Lemma linked_app {F : Type} (fu : F -> thrown (option F)) (l : list F) :
  forall f g, linked fu f l -> fu (List.last l f) = Ends (Ok (Some g)) ->
              linked fu f (l ++ [g]).
Proof.
  induction l as [|x l IH]; intros f g Hl Hg.
  - split; [exact Hg | exact I].
  - destruct Hl as [Hx Hl]. split; [exact Hx|].
    apply IH; [exact Hl|].
    rewrite <- (last_cons_default l x f). exact Hg.
Qed.

Lemma walkedTo_mono {F : Type} (fu : F -> thrown (option F)) (first : F)
    (n k : nat) (e : thrown (option F)) :
  (n <= k)%nat -> walkedTo fu first n e -> walkedTo fu first k e.
Proof.
  intros Hnk (rest & Hl & Hlen & He). exists rest.
  split; [exact Hl|]. split; [lia | exact He].
Qed.

Lemma walkLoop_spec {F : Type} (fu : F -> thrown (option F)) (first : F) :
  forall count rest prev,
    linked fu first rest -> prev = List.last rest first ->
    match walkLoop fu count prev (removelast (first :: rest)) with
    | Ends (Ok st) =>
        match count with
        | O => st = removelast (first :: rest)
        | S _ =>
            exists rest', st = first :: rest'
              /\ linked fu first rest'
              /\ (length st <= length rest + count)%nat
              /\ (length st = (length rest + count)%nat
                  \/ fu (List.last rest' first) = Ends (Ok None)
                  \/ fu (List.last rest' first) = Ends Throw)
        end
    | Ends Throw => False
    | Ends Abort => walkedTo fu first (length rest + count) (Ends Abort)
    | Ends Undef => walkedTo fu first (length rest + count) (Ends Undef)
    | Ends OutOfFuel => walkedTo fu first (length rest + count) (Ends OutOfFuel)
    | ThrowOther => walkedTo fu first (length rest + count) ThrowOther
    end.
Proof.
  induction count as [|count IH]; intros rest prev Hl Hp; [reflexivity|].
  cbn [walkLoop].
  assert (Hst : removelast (first :: rest) ++ [prev] = first :: rest).
  { subst prev. rewrite <- last_cons_default with (d := first).
    symmetry. apply app_removelast_last. discriminate. }
  rewrite Hst.
  assert (Hhere : forall e, fu prev = e ->
                            walkedTo fu first (length rest + S count) e).
  { intros e He. exists rest. split; [exact Hl|].
    split; [cbn [length]; lia | rewrite <- Hp; exact He]. }
  destruct (fu prev) as [[[g|]| | | |]|] eqn:E;
    try (apply Hhere; reflexivity).
  - specialize (IH (rest ++ [g]) g).
    assert (Hrl : removelast (first :: rest ++ [g]) = first :: rest).
    { change (first :: rest ++ [g]) with ((first :: rest) ++ [g]).
      apply removelast_last. }
    rewrite Hrl in IH.
    assert (Hl' : linked fu first (rest ++ [g])).
    { apply linked_app; [exact Hl|]. rewrite <- Hp. exact E. }
    specialize (IH Hl' (eq_sym (last_last rest g first))).
    rewrite length_app in IH. cbn [length] in IH.
    destruct (walkLoop fu count g (first :: rest)) as [[st| | | |]|];
      try exact IH;
      try (apply (walkedTo_mono fu first (length rest + 1 + count)); [lia | exact IH]).
    destruct count as [|count'].
    + subst st. exists rest. split; [reflexivity|].
      split; [exact Hl|]. cbn [length]. split; [lia|]. left. lia.
    + destruct IH as (rest' & -> & Hl2 & Hlen & Hend).
      exists rest'. split; [reflexivity|]. split; [exact Hl2|].
      cbn [length] in *.
      split; [lia|].
      destruct Hend as [Hend|Hend]; [left; lia | right; exact Hend].
  - exists rest. split; [reflexivity|]. split; [exact Hl|].
    cbn [length]. split; [lia|]. right. left. rewrite <- Hp. exact E.
  - exists rest. split; [reflexivity|]. split; [exact Hl|].
    cbn [length]. split; [lia|]. right. right. rewrite <- Hp. exact E.
Qed.

Lemma walkLoop_run {F : Type} (fu : F -> thrown (option F)) :
  forall (rest : list F) (count : nat) (prev : F) (stack : list F),
    linked fu prev rest -> (length (prev :: rest) <= count)%nat ->
    match fu (List.last rest prev) with
    | Ends (Ok (Some _)) =>
        length (prev :: rest) = count ->
        walkLoop fu count prev stack = Ends (Ok (stack ++ prev :: rest))
    | Ends (Ok None) | Ends Throw =>
        walkLoop fu count prev stack = Ends (Ok (stack ++ prev :: rest))
    | Ends Abort => walkLoop fu count prev stack = Ends Abort
    | Ends Undef => walkLoop fu count prev stack = Ends Undef
    | Ends OutOfFuel => walkLoop fu count prev stack = Ends OutOfFuel
    | ThrowOther => walkLoop fu count prev stack = ThrowOther
    end.
Proof.
  induction rest as [|g rest IH]; intros count prev stack Hl Hlen.
  - cbn [List.last]. destruct count as [|c]; [cbn in Hlen; lia|].
    cbn [walkLoop].
    destruct (fu prev) as [[[g|]| | | |]|]; try reflexivity.
    intros Hc. cbn in Hc. injection Hc as <-. reflexivity.
  - destruct Hl as [Hg Hl]. destruct count as [|c]; [cbn in Hlen; lia|].
    cbn [walkLoop]. rewrite Hg, (last_cons_default rest g prev).
    assert (Hlen' : (length (g :: rest) <= c)%nat) by (cbn in *; lia).
    specialize (IH c g (stack ++ [prev]) Hl Hlen').
    replace ((stack ++ [prev]) ++ g :: rest) with (stack ++ prev :: g :: rest)
      in IH by (rewrite <- app_assoc; reflexivity).
    destruct (fu (List.last rest g)) as [[[h|]| | | |]|]; try exact IH.
    intros Hc. apply IH. cbn in *. lia.
Qed.

(** How [ThreadStack::unwind] ends.  An exception derived from
    [std::exception] never leaves it: its handler takes it and the function
    returns.  When the function returns, the stack starts with the frame of
    the machine context, every later frame is what [unwind] gave for the
    frame before it, and there are at most [gMaxFrames] frames: the walk
    stopped at that limit, at a null frame or at such an exception.  An
    object of another type thrown by [unwind] leaves the function, and the
    function ends that way, or in [abort()], only when the [unwind] of a
    frame reached within the limit ended so.  The other way round, take the
    frames from the first one on, each what [unwind] gave for the one
    before it, at most [gMaxFrames] of them: where the [unwind] of the last
    one gives a null frame or throws an exception derived from
    [std::exception], or where the limit is reached, the function returns
    with just these frames; where it throws another object, that object
    leaves the function. *)
Theorem threadStackUnwind_chain {F : Type} (fu : F -> thrown (option F))
    (first : F) :
  match threadStackUnwind fu first with
  | Ends (Ok st) =>
      exists rest, st = first :: rest
        /\ linked fu first rest
        /\ (length st <= gMaxFrames)%nat
        /\ (length st = gMaxFrames
            \/ fu (List.last rest first) = Ends (Ok None)
            \/ fu (List.last rest first) = Ends Throw)
  | Ends Throw => False
  | Ends Abort => walkedTo fu first gMaxFrames (Ends Abort)
  | Ends Undef => walkedTo fu first gMaxFrames (Ends Undef)
  | Ends OutOfFuel => walkedTo fu first gMaxFrames (Ends OutOfFuel)
  | ThrowOther => walkedTo fu first gMaxFrames ThrowOther
  end
  /\ forall rest : list F,
      linked fu first rest -> (length (first :: rest) <= gMaxFrames)%nat ->
      match fu (List.last rest first) with
      | Ends (Ok (Some _)) =>
          length (first :: rest) = gMaxFrames ->
          threadStackUnwind fu first = Ends (Ok (first :: rest))
      | Ends (Ok None) | Ends Throw =>
          threadStackUnwind fu first = Ends (Ok (first :: rest))
      | Ends Abort => threadStackUnwind fu first = Ends Abort
      | Ends Undef => threadStackUnwind fu first = Ends Undef
      | Ends OutOfFuel => threadStackUnwind fu first = Ends OutOfFuel
      | ThrowOther => threadStackUnwind fu first = ThrowOther
      end.
Proof.
  split.
  - pose proof (walkLoop_spec fu first gMaxFrames [] first I eq_refl) as H.
    unfold threadStackUnwind.
    change (removelast [first]) with (@nil F) in H.
    destruct (walkLoop fu gMaxFrames first []) as [[st| | | |]|]; exact H.
  - intros rest Hl Hlen. unfold threadStackUnwind.
    exact (walkLoop_run fu rest gMaxFrames first [] Hl Hlen).
Qed.

Lemma threadStackUnwind_chain_witness :
  let chain (f : nat) : thrown (option nat) :=
    match f with
    | O => Ends (Ok (Some 1%nat))
    | S O => Ends (Ok (Some 2%nat))
    | _ => ThrowOther
    end in
  threadStackUnwind chain 0%nat = ThrowOther.
Proof.
  intros chain.
  destruct (threadStackUnwind_chain chain 0%nat) as [_ H].
  apply (H [1; 2]%nat).
  - repeat split.
  - unfold gMaxFrames. cbn [length]. lia.
Defined.

(** Three frames, the last of which cannot be unwound: an [Exception] ends
    the walk and the function returns the three frames; a thrown
    [const char *] leaves the function. *)
Lemma threadStackUnwind_examples :
  let chain (e : thrown (option nat)) (f : nat) :=
    match f with
    | O => Ends (Ok (Some 1%nat))
    | S O => Ends (Ok (Some 2%nat))
    | _ => e
    end in
  threadStackUnwind (chain (Ends Throw)) 0%nat = Ends (Ok [0; 1; 2]%nat)
  /\ threadStackUnwind (chain (Ends (Ok None))) 0%nat = Ends (Ok [0; 1; 2]%nat)
  /\ threadStackUnwind (chain ThrowOther) 0%nat = ThrowOther
  /\ length (match threadStackUnwind (fun f => Ends (Ok (Some (S f)))) 0%nat with
             | Ends (Ok st) => st
             | _ => []
             end) = gMaxFrames.
Proof. repeat split; vm_compute; reflexivity. Qed.

(** ** The line number program *)

Lemma whenOk_bind {A B : Type} (P : B -> Prop) (m : M A) (k : A -> M B)
    (r : DWARFReader) :
  (forall a r1, m r = Ok (a, r1) -> whenOk P (k a r1)) ->
  whenOk P (bind m k r).
Proof.
  intros H. unfold bind. destruct (m r) as [[a r1]| | | |]; try exact I.
  apply H. reflexivity.
Qed.

Lemma whenOk_weaken {A B : Type} (P Q : A -> Prop) (o : outcome (A * B)) :
  (forall a, P a -> Q a) -> whenOk P o -> whenOk Q o.
Proof. intros H. destruct o as [[a b]| | | |]; cbn; auto. Qed.

Ltac when_ok :=
  repeat first
    [ apply whenOk_bind; intros ? ? _
    | match goal with
      | |- whenOk _ ((if ?b then _ else _) _) => destruct b
      | |- whenOk _ (fail _ _) => exact I
      end ].

Lemma lineStep_row (li : DwarfLineInfo) (st : DwarfLineState)
    (m : list DwarfLineState) (r : DWARFReader) :
  whenOk (fun vm' : LineVM =>
            (vm'.2 = m \/ exists row, vm'.2 = m ++ [row])
            /\ (end_sequence st = 0 -> end_sequence vm'.1 = 0))
         (lineStep li (st, m) r).
Proof.
  unfold lineStep. when_ok;
    cbn; (split; [first [left; reflexivity | right; eexists; reflexivity]
                 | intros H; first [exact H | reflexivity]]).
Qed.

(** The loop of [DwarfLineInfo::build] only ever appends to the matrix: the
    rows present before are kept in place, and each opcode adds one row at
    most.  The working registers never carry the [end_sequence] flag from
    one opcode to the next. *)
Theorem lineLoop_appends (li : DwarfLineInfo) (endoff : Z) :
  forall (fuel : nat) (st : DwarfLineState) (m : list DwarfLineState)
         (r : DWARFReader),
    whenOk (fun vm' : LineVM =>
              (exists rows, vm'.2 = m ++ rows /\ (length rows <= fuel)%nat)
              /\ (end_sequence st = 0 -> end_sequence vm'.1 = 0))
           (lineLoop fuel li endoff (st, m) r).
Proof.
  induction fuel as [|fuel IH]; intros st m r; cbn [lineLoop];
    destruct (off r <? endoff).
  - exact I.
  - cbn. split; [exists []; rewrite app_nil_r; split; [reflexivity | cbn; lia]|auto].
  - pose proof (lineStep_row li st m r) as Hs.
    unfold bind. destruct (lineStep li (st, m) r) as [[[st1 m1] r1]| | | |];
      try exact I.
    cbn in Hs. destruct Hs as [Hm He].
    eapply whenOk_weaken; [|apply IH].
    intros [st2 m2]. cbn. intros [(rows & -> & Hlen) He2].
    split; [|auto].
    destruct Hm as [->|[row ->]].
    + exists rows. split; [reflexivity | lia].
    + exists (row :: rows). rewrite <- app_assoc. split; [reflexivity | cbn; lia].
  - cbn. split; [exists []; rewrite app_nil_r; split; [reflexivity | cbn; lia]|auto].
Qed.

(** ** Call frame instructions *)






(** ** Expressions *)

Lemma getu8_holds (r : DWARFReader) (b : Z) (bs : list Z) :
  0 <= off r < 2^64 -> holds (io r) (off r) (b :: bs) ->
  getu8 r = Ok (b, skip r 1)
  /\ holds (io (skip r 1)) (off (skip r 1)) bs.
Proof.
  intros Ho Hh. rewrite getu8_eq.
  destruct (holds_head _ _ _ _ Ho Hh) as (c & -> & <-).
  split; [reflexivity|]. apply (holds_tail _ _ _ _ Hh).
Qed.

(** [DW_OP_breg0] to [DW_OP_breg31]: an expression made of the operation
    for register [n] and an offset [k] of 32 bits with sign evaluates to the
    value of that register plus [k], and leaves the stack it was given. *)
Theorem breg_expression (fuel : nat) (pio elf : Reader) (ver base : Z)
    (regs : DwarfRegisters) (stk : list Z) (n k v : Z) :
  0 <= n <= 31 -> - 2^31 <= k < 2^31 ->
  dwarfGetReg regs n = Ok v ->
  0 <= base -> base + 1 + Z.of_nat (length (encode_sleb128 k)) < 2^64 ->
  holds elf base ((DW_OP_breg0 + n) :: encode_sleb128 k) ->
  dwarfEvalExpr (S fuel) pio
    (newReader elf ver base (1 + Z.of_nat (length (encode_sleb128 k)))) regs stk
  = Ok (u64 (v + k), stk).
Proof.
  intros Hn Hk Hv Hb Hfit Hh.
  set (len := Z.of_nat (length (encode_sleb128 k))) in *.
  assert (Hlen : 0 <= len) by (unfold len; lia).
  set (r := newReader elf ver base (1 + len)).
  assert (Hoff : off r = base) by (apply u64_small; lia).
  assert (Hend : rend r = base + 1 + len).
  { unfold r, newReader. cbn [rend]. rewrite Z.add_assoc. apply u64_small. lia. }
  destruct (getu8_holds r (DW_OP_breg0 + n) (encode_sleb128 k)) as [E8 Hh1];
    [rewrite Hoff; lia | rewrite Hoff; exact Hh |].
  assert (Hoff1 : off (skip r 1) = base + 1).
  { unfold skip, setOffset. cbn [off]. rewrite Hoff. apply u64_small. lia. }
  pose proof (getsleb128_holds (skip r 1) k ltac:(rewrite Hoff1; lia) Hk Hh1) as Es.
  fold len in Es. rewrite Hoff1 in Es.
  set (r2 := setOffset (skip r 1) (base + 1 + len)) in *.
  assert (Hempty : empty r2 = true).
  { unfold empty, r2, setOffset. cbn [off rend skip setOffset].
    rewrite Hend, u64_small by lia. apply Z.eqb_refl. }
  assert (Hne : empty r = false).
  { unfold empty. rewrite Hoff, Hend. apply Z.eqb_neq. lia. }
  assert (Hop : evalOp pio regs stk r = Ok (u64 (v + k) :: stk, r2)).
  { unfold evalOp, bind at 1. rewrite E8. cbn [obind].
    unfold DW_OP_deref, DW_OP_const2s, DW_OP_const4u, DW_OP_const4s, DW_OP_minus,
      DW_OP_plus, DW_OP_breg0, DW_OP_breg31.
    repeat match goal with
           | |- context [?x =? ?y] => destruct (Z.eqb_spec x y); [lia|]
           end.
    destruct (Z.leb_spec 112 (112 + n)); [|lia].
    destruct (Z.leb_spec (112 + n) 143); [|lia].
    cbn [andb]. unfold bind. rewrite Es. cbn [obind].
    replace (112 + n - 112) with n by lia.
    unfold lift. change (arrayGet regs n) with (dwarfGetReg regs n).
    rewrite Hv. reflexivity. }
  unfold dwarfEvalExpr.
  assert (Hloop : evalLoop (S fuel) pio regs stk r = Ok (u64 (v + k) :: stk, r2)).
  { cbn [evalLoop]. rewrite Hne. cbn [negb].
    unfold bind. rewrite Hop. cbn [obind].
    destruct fuel; cbn [evalLoop]; rewrite Hempty; reflexivity. }
  rewrite Hloop. reflexivity.
Qed.

Lemma breg_expression_witness :
  dwarfEvalExpr 1 (fun _ => None) (newReader (bytesAt 0x200 [0x76; 0x70]) 2 0x200 2)
                scn_regs [5]
  = Ok (2^64 - 16, [5]).
Proof.
  apply (breg_expression 0 (fun _ => None) (bytesAt 0x200 [0x76; 0x70]) 2 0x200
                         scn_regs [5] 6 (-16) 0).
  - lia.
  - vm_compute. split; [intro; discriminate | reflexivity].
  - vm_compute. reflexivity.
  - lia.
  - vm_compute. reflexivity.
  - apply (holds_bytesAt 0x200 [0x76; 0x70]);
      [reflexivity | lia | vm_compute; discriminate].
Defined.

(** ** Integers with sign *)

Lemma leBytes_range (n : nat) : forall v,
  Forall (fun b => 0 <= b < 256) (leBytes n v).
Proof.
  induction n as [|n IH]; intros v; cbn [leBytes]; constructor.
  - apply low8.
  - apply IH.
Qed.

Lemma leBytes_last (n : nat) : forall v,
  last (leBytes (S n) v) = Some (Z.land (Z.shiftr v (8 * Z.of_nat n)) 0xff).
Proof.
  induction n as [|n IH]; intros v.
  - cbn [leBytes last]. rewrite Z.shiftr_0_r. reflexivity.
  - change (leBytes (S (S n)) v)
      with (Z.land v 0xff :: leBytes (S n) (Z.shiftr v 8)).
    rewrite last_cons, IH, Z.shiftr_shiftr by lia.
    do 3 f_equal. lia.
Qed.

Lemma s64_mod (x : Z) : exists q, s64 x = x + q * 2^64.
Proof.
  unfold s64, signed. change (2^(64-1)) with (2^63).
  pose proof (Z.div_mod x (2^64) ltac:(pow2; lia)) as H.
  destruct (x mod 2^64 <? 2^63).
  - exists (- (x / 2^64)). lia.
  - exists (- (x / 2^64) - 1). lia.
Qed.

Lemma se_combine_value (init : Z) (bs : list Z) :
  Forall (fun b => 0 <= b < 256) bs ->
  u64 (se_combine init bs)
  = u64 (init * 2^(8 * Z.of_nat (length bs)) + le_value bs).
Proof.
  induction 1 as [|b bs Hb _ IH].
  - cbn. f_equal. lia.
  - cbn [se_combine fold_right le_value length]. fold (se_combine init bs).
    fold (le_value bs).
    rewrite lor_shiftl_add by (change (2^8) with 256; lia). change (2^8) with 256.
    destruct (s64_mod (se_combine init bs * 256 + b)) as [q ->].
    unfold u64 at 1. rewrite Z.mod_add by (pow2; lia). fold (u64 (se_combine init bs * 256 + b)).
    replace (8 * Z.of_nat (S (length bs))) with (8 * Z.of_nat (length bs) + 8) by lia.
    rewrite Z.pow_add_r by lia. change (2^8) with 256.
    replace (init * (2^(8 * Z.of_nat (length bs)) * 256) + (b + 256 * le_value bs))
      with (b + (init * 2^(8 * Z.of_nat (length bs)) + le_value bs) * 256) by lia.
    rewrite (Z.add_comm _ b).
    unfold u64 in *.
    rewrite Z.add_mod, (Z.mul_mod (se_combine init bs)) by (pow2; lia).
    rewrite IH.
    rewrite <- Z.mul_mod, <- Z.add_mod by (pow2; lia). reflexivity.
Qed.

Lemma byte_sign_all :
  forallb (fun t => Bool.eqb (Z.land t 0x80 =? 0) (t <? 128)) (seqZ 0 256) = true.
Proof. vm_compute. reflexivity. Qed.

Lemma byte_sign (t : Z) :
  0 <= t < 256 -> (Z.land t 0x80 =? 0) = (t <? 128).
Proof.
  intros Ht. pose proof byte_sign_all as H.
  rewrite forallb_forall in H. specialize (H t).
  rewrite <- list_elem_of_In, elem_of_seqZ in H.
  apply eqb_prop. apply H. lia.
Qed.

Lemma se_combine_leBytes (m : nat) (v top : Z) :
  (S m <= 8)%nat ->
  - 2^(8 * Z.of_nat (S m) - 1) <= v < 2^(8 * Z.of_nat (S m) - 1) ->
  last (leBytes (S m) v) = Some top ->
  se_combine (if Z.land top 0x80 =? 0 then 0 else -1) (leBytes (S m) v) = v.
Proof.
  intros Hn Hv. rewrite leBytes_last. intros [= <-].
  set (P := 2^(8 * Z.of_nat m)).
  assert (HP : 0 < P) by (apply Z.pow_pos_nonneg; lia).
  assert (HP8 : 2^(8 * Z.of_nat (S m)) = 256 * P).
  { replace (8 * Z.of_nat (S m)) with (8 + 8 * Z.of_nat m) by lia.
    rewrite Z.pow_add_r by lia. reflexivity. }
  assert (HP7 : 2^(8 * Z.of_nat (S m) - 1) = 128 * P).
  { replace (8 * Z.of_nat (S m) - 1) with (7 + 8 * Z.of_nat m) by lia.
    rewrite Z.pow_add_r by lia. reflexivity. }
  rewrite HP7 in Hv.
  assert (HPle : P <= 2^56) by (apply Z.pow_le_mono_r; lia).
  change (2^56) with 72057594037927936 in HPle.
  destruct (low8 (Z.shiftr v (8 * Z.of_nat m))) as [Ht Htm].
  rewrite byte_sign by exact Ht.
  rewrite Htm, Z.shiftr_div_pow2 by lia. fold P.
  assert (Hq : -128 <= v / P < 128).
  { split; [apply Z.div_le_lower_bound | apply Z.div_lt_upper_bound]; lia. }
  pose proof (se_combine_value
                (if (v / P) mod 256 <? 128 then 0 else -1)
                (leBytes (S m) v) (leBytes_range _ _)) as Hval.
  rewrite leBytes_length, HP8 in Hval.
  rewrite <- le_combine_value in Hval
    by first [apply leBytes_range | rewrite leBytes_length; lia].
  rewrite le_combine_leBytes, HP8 in Hval by lia.
  assert (Hs : forall x, s64 (s64 x) = s64 x).
  { intros x. apply s64_u64. destruct (s64_mod x) as [q ->].
    unfold u64. apply Z.mod_add. pow2. lia. }
  assert (Es : s64 (se_combine (if (v / P) mod 256 <? 128 then 0 else -1)
                               (leBytes (S m) v)) = s64 v).
  { apply s64_u64. rewrite Hval. unfold u64.
    destruct (Z.ltb_spec ((v / P) mod 256) 128) as [Hlt|Hge].
    - assert (0 <= v / P) by divlia.
      assert (0 <= v) by (pose proof (Z.div_mod v P); pose proof (Z.mod_pos_bound v P); nia).
      rewrite (Z.mod_small v (256 * P)) by nia. reflexivity.
    - assert (v / P < 0) by divlia.
      assert (v < 0) by (pose proof (Z.div_mod v P); pose proof (Z.mod_pos_bound v P); nia).
      replace (v mod (256 * P)) with (v + 256 * P).
      + f_equal. lia.
      + apply Z.mod_unique with (-1); lia. }
  assert (Ecomb : se_combine (if (v / P) mod 256 <? 128 then 0 else -1)
                             (leBytes (S m) v)
                  = s64 (se_combine (if (v / P) mod 256 <? 128 then 0 else -1)
                                    (leBytes (S m) v))).
  { cbn [leBytes se_combine fold_right]. rewrite Hs. reflexivity. }
  rewrite Ecomb, Es. apply s64_small. pow2.
  change (2^63) with 9223372036854775808. nia.
Qed.

Lemma getint_holds (r : DWARFReader) (n : nat) (v : Z) :
  0 <= off r < 2^64 -> (1 <= n <= 8)%nat ->
  - 2^(8 * Z.of_nat n - 1) <= v < 2^(8 * Z.of_nat n - 1) ->
  holds (io r) (off r) (leBytes n v) ->
  getint (Z.of_nat n) r = Ok (v, skip r (Z.of_nat n)).
Proof.
  intros Ho Hn Hv Hh. unfold getint.
  destruct (Z.ltb_spec 16 (Z.of_nat n)); [lia|].
  destruct (Z.ltb_spec (Z.of_nat n) 0); [lia|].
  unfold bind, take. rewrite Nat2Z.id.
  pose proof (readObj_holds _ _ _ Ho Hh) as Hr.
  rewrite leBytes_length in Hr. rewrite Hr. cbn [obind].
  destruct n as [|m]; [lia|].
  destruct (last (leBytes (S m) v)) as [top|] eqn:El;
    [|rewrite leBytes_last in El; discriminate].
  unfold ret. rewrite (se_combine_leBytes m v top) by (lia || assumption).
  reflexivity.
Qed.

(** Reading an [n]-byte integer with sign gives back the value whose
    two's complement bytes, least significant first, the store holds, for
    every width from 1 to 8 bytes, and moves the cursor by [n]. *)
Theorem getint_round_trip (r : DWARFReader) (n : nat) (v : Z) :
  0 <= off r < 2^64 -> (1 <= n <= 8)%nat ->
  - 2^(8 * Z.of_nat n - 1) <= v < 2^(8 * Z.of_nat n - 1) ->
  holds (io r) (off r) (leBytes n v) ->
  getint (Z.of_nat n) r = Ok (v, skip r (Z.of_nat n)).
Proof.
  intros Ho Hn Hv Hh. unfold getint.
  destruct (Z.ltb_spec 16 (Z.of_nat n)); [lia|].
  destruct (Z.ltb_spec (Z.of_nat n) 0); [lia|].
  unfold bind, take. rewrite Nat2Z.id.
  pose proof (readObj_holds _ _ _ Ho Hh) as Hr.
  rewrite leBytes_length in Hr. rewrite Hr. cbn [obind].
  destruct n as [|m]; [lia|].
  destruct (last (leBytes (S m) v)) as [top|] eqn:El;
    [|rewrite leBytes_last in El; discriminate].
  unfold ret. rewrite (se_combine_leBytes m v top) by (lia || assumption).
  reflexivity.
Qed.

Lemma getint_round_trip_witness :
  getint 2 (readerOver [0xfe; 0xff]) = Ok (-2, skip (readerOver [0xfe; 0xff]) 2).
Proof.
  apply (getint_round_trip (readerOver [0xfe; 0xff]) 2 (-2)).
  - vm_compute. split; [intro; discriminate | reflexivity].
  - lia.
  - vm_compute. split; [intro; discriminate | reflexivity].
  - apply (holds_bytesAt 0 [0xfe; 0xff]);
      [reflexivity | lia | vm_compute; discriminate].
Defined.

(** ** Strings of an ELF file *)

Lemma readString_loop_ok (s : list Z) : forall fuel rd o acc,
  0 <= o -> o + Z.of_nat (length s) + 1 < 2^63 ->
  holds rd o (s ++ [0]) -> Forall (fun b => b <> 0) s ->
  (length s < fuel)%nat ->
  readString_loop fuel rd o acc = Ok (acc ++ s).
Proof.
  induction s as [|c s IH]; intros fuel rd o acc Ho Hfit H Hnz Hk;
    (destruct fuel as [|fuel]; [simpl in Hk; lia|]);
    cbn [readString_loop];
    (destruct (Z.leb_spec (2^63) (o + 1)); [cbn [length] in Hfit; lia|]);
    assert (Ho' : 0 <= o < 2^64)
      by (change (2^63) with 9223372036854775808 in *; pow2; lia).
  - destruct (holds_head _ _ _ _ Ho' H) as (b & -> & ->).
    cbn. rewrite app_nil_r. reflexivity.
  - simpl in H. destruct (holds_head _ _ _ _ Ho' H) as (b & -> & Hz).
    apply holds_tail in H. inversion Hnz as [|? ? Hc Hs]; subst.
    destruct (Z.eqb_spec (byteZ b) 0) as [E|_]; [contradiction|].
    rewrite u64_small in H
      by (change (2^63) with 9223372036854775808 in *; pow2; lia).
    rewrite (IH fuel rd (o + 1) _ ltac:(lia)); cbn [length] in *;
      [rewrite <- app_assoc; reflexivity | lia | exact H | exact Hs | lia].
Qed.

Lemma readString_getstring_loop (k : nat) : forall fuel rd o acc s o',
  0 <= o -> o + Z.of_nat k + 2 < 2^63 -> (k < fuel)%nat ->
  getstring_loop k rd o acc = Ok (s, o') ->
  readString_loop fuel rd o acc = Ok s.
Proof.
  induction k as [|k IH]; intros fuel rd o acc s o' Ho Hfit Hk;
    (destruct fuel as [|fuel]; [lia|]);
    cbn [getstring_loop readString_loop];
    (destruct (Z.leb_spec (2^63) (o + 1)); [lia|]);
    (destruct (rd o) as [c|]; [|discriminate]);
    (destruct (byteZ c =? 0); [intros [= <- _]; reflexivity|]).
  - discriminate.
  - rewrite u64_small
      by (change (2^63) with 9223372036854775808 in *; pow2; lia).
    apply IH; lia.
Qed.

(** [ElfObject::readString] returns the bytes that precede the first NUL,
    however many they are; and whenever [DWARFReader::getstring] returns a
    string, [readString] at the same offset of the same store returns the
    same one. *)
Theorem readString_agrees (fuel : nat) (rd : Reader) (o : Z) (s : list Z) :
  0 <= o -> o + Z.of_nat (length s) + 1 < 2^63 -> (length s < fuel)%nat ->
  (holds rd o (s ++ [0]) -> Forall (fun b => b <> 0) s ->
   readString fuel rd o = Ok s)
  /\ (forall r : DWARFReader,
        io r = rd -> off r = o -> o + 2003 < 2^63 -> (2001 < fuel)%nat ->
        value (getstring r) = Ok s -> readString fuel rd o = Ok s).
Proof.
  intros Ho Hfit Hk. split.
  - intros H Hnz. apply (readString_loop_ok s fuel rd o [] Ho Hfit H Hnz Hk).
  - intros r <- <- Hfit' Hk'. unfold getstring, value.
    destruct (getstring_loop 2001 (io r) (off r) []) as [[s' o']| | | |] eqn:E;
      try discriminate.
    cbn [obind]. intros [= ->].
    apply (readString_getstring_loop 2001 fuel _ _ _ _ _ Ho ltac:(lia) Hk' E).
Qed.

Lemma readString_agrees_witness :
  readString 3 (bytesAt 0 [65; 66; 0]) 0 = Ok [65; 66].
Proof.
  apply (readString_agrees 3 (bytesAt 0 [65; 66; 0]) 0 [65; 66]).
  - lia.
  - vm_compute. reflexivity.
  - cbn. lia.
  - apply (holds_bytesAt 0 [65; 66; 0]);
      [reflexivity | lia | vm_compute; discriminate].
  - repeat constructor; discriminate.
Defined.

(** [ElfObject::findSectionByName] returns the first section header whose
    name, read from the name table, is the one asked for: the names of all
    headers before it were read and differ; it returns null only if every
    header's name was read and differs. *)
Theorem findSectionByName_first (fuel : nat) (rd : Reader) (strs : Z)
    (name : list Z) : forall hdrs : list (Z * ElfSection),
  match findSectionByName fuel rd strs hdrs name with
  | Ok (Some hdr) =>
      exists l1 sh_name l2,
        hdrs = l1 ++ (sh_name, hdr) :: l2
        /\ readString fuel rd (s64 (strs + sh_name)) = Ok name
        /\ Forall (fun e => exists s, readString fuel rd (s64 (strs + e.1)) = Ok s
                                      /\ s <> name) l1
  | Ok None =>
      Forall (fun e => exists s, readString fuel rd (s64 (strs + e.1)) = Ok s
                                 /\ s <> name) hdrs
  | _ => True
  end.
Proof.
  induction hdrs as [|[n hdr] rest IH]; cbn [findSectionByName]; [constructor|].
  destruct (readString fuel rd (s64 (strs + n))) as [s| | | |] eqn:E; cbn [obind];
    try exact I.
  destruct (bool_decide_reflect (name = s)) as [->|Hne].
  - exists [], n, rest. repeat split; [exact E | constructor].
  - assert (Hhd : exists s0, readString fuel rd (s64 (strs + (n, hdr).1)) = Ok s0
                             /\ s0 <> name) by (exists s; split; [exact E | congruence]).
    destruct (findSectionByName fuel rd strs rest name) as [[h|]| | | |];
      try exact I.
    + destruct IH as (l1 & n' & l2 & -> & Hr & Hl).
      exists ((n, hdr) :: l1), n', l2. repeat split; [exact Hr|].
      constructor; assumption.
    + constructor; assumption.
Qed.

(** ** Indexes whose construction fails *)

Lemma foldl_insert_lookup {V : Type} (key : DWARFReader -> Z)
    (xs : list (DWARFReader * V)) : forall (m m' : gmap Z V) (k : Z),
  (m !! k = m' !! k
   \/ exists r v, (r, v) ∈ xs /\ key r = k) ->
  foldl (fun c '(r, x) => <[key r := x]> c) m xs !! k
  = foldl (fun c '(r, x) => <[key r := x]> c) m' xs !! k.
Proof.
  induction xs as [|[r x] xs IH]; intros m m' k H; cbn [foldl].
  - destruct H as [H|(r & v & Hin & _)]; [exact H|]. inversion Hin.
  - apply IH.
    destruct (decide (key r = k)) as [<-|Hne].
    + left. rewrite !lookup_insert_eq. reflexivity.
    + destruct H as [H|(r' & v & Hin & Hk)].
      * left. rewrite !lookup_insert_ne by exact Hne. exact H.
      * apply elem_of_cons in Hin. destruct Hin as [[= -> ->]|Hin];
          [contradiction|]. right. eauto.
Qed.

Lemma foldl_insert_cases {V : Type} (key : DWARFReader -> Z)
    (xs : list (DWARFReader * V)) : forall (m : gmap Z V) (k : Z),
  foldl (fun c '(r, x) => <[key r := x]> c) m xs !! k = m !! k
  \/ exists r v, (r, v) ∈ xs /\ key r = k.
Proof.
  induction xs as [|[r x] xs IH]; intros m k; cbn [foldl]; [left; reflexivity|].
  destruct (IH (<[key r := x]> m) k) as [H|(r' & v & Hin & E)].
  - destruct (decide (key r = k)) as [E|Hne].
    + right. exists r, x. split; [left | exact E].
    + left. rewrite H. apply lookup_insert_ne. exact Hne.
  - right. exists r', v. split; [right; exact Hin | exact E].
Qed.

Lemma foldl_insert_idem {V : Type} (key : DWARFReader -> Z)
    (xs : list (DWARFReader * V)) (m : gmap Z V) :
  foldl (fun c '(r, x) => <[key r := x]> c)
        (foldl (fun c '(r, x) => <[key r := x]> c) m xs) xs
  = foldl (fun c '(r, x) => <[key r := x]> c) m xs.
Proof.
  apply map_eq. intros k. apply foldl_insert_lookup.
  apply foldl_insert_cases.
Qed.

(** A call of [units()], [ranges()] or [pubnames()] that is left by an
    exception keeps its section handle, so the next call parses the section
    again from its start and is left by the same exception.  [units()] then
    leaves its map as the first call left it; [ranges()] and [pubnames()]
    append once more everything the first call had appended, so that each
    set or unit parsed before the failure is in the list twice. *)
Theorem index_retry (U : Type) (newU : M U) (fuel : nat) (d : Indexes U) :
  (forall d1 : Indexes U,
      units newU fuel d = (Throw, d1) ->
      info d1 = info d /\ units newU fuel d1 = (Throw, d1))
  /\ (forall d1 : Indexes U,
      ranges fuel d = (Throw, d1) ->
      exists (xs : list DwarfARangeSet) (d2 : Indexes U),
        arangesh d1 = arangesh d
        /\ aranges d1 = aranges d ++ xs
        /\ ranges fuel d1 = (Throw, d2)
        /\ aranges d2 = aranges d ++ xs ++ xs)
  /\ (forall d1 : Indexes U,
      pubnames fuel d = (Throw, d1) ->
      exists (xs : list DwarfPubnameUnit) (d2 : Indexes U),
        pubnamesh d1 = pubnamesh d
        /\ pubnameUnits d1 = pubnameUnits d ++ xs
        /\ pubnames fuel d1 = (Throw, d2)
        /\ pubnameUnits d2 = pubnameUnits d ++ xs ++ xs).
Proof.
  split; [|split].
  - intros d1. unfold units at 1.
    destruct (info d) as [sec|] eqn:Hinfo; [|discriminate].
    pose proof (fillLoop_fold newU
                  (fun r u (m : gmap Z U) => <[u64 (off r - sh_offset sec) := u]> m)
                  fuel (newReader (ix_io d) (ix_version d) (sh_offset sec) (sh_size sec))
                  (unitsm d) []) as E.
    cbn [foldl] in E. rewrite E. clear E.
    destruct (fillLoop fuel newU _ _ []) as [o xs] eqn:Ex.
    destruct o; cbn; try discriminate.
    intros [= <-]. cbn [info]. split; [reflexivity|].
    unfold units. cbn [info ix_io ix_version unitsm arangesh aranges pubnamesh
                       pubnameUnits].
    pose proof (fillLoop_fold newU
                  (fun r u (m : gmap Z U) => <[u64 (off r - sh_offset sec) := u]> m)
                  fuel (newReader (ix_io d) (ix_version d) (sh_offset sec) (sh_size sec))
                  (foldl (fun c '(r, x) => <[u64 (off r - sh_offset sec) := x]> c)
                         (unitsm d) xs) []) as E.
    cbn [foldl] in E. rewrite E, Ex. clear E.
    rewrite (foldl_insert_idem (fun r => u64 (off r - sh_offset sec))).
    reflexivity.
  - intros d1. unfold ranges at 1.
    destruct (arangesh d) as [sec|] eqn:Hsh; [|discriminate].
    pose proof (fillLoop_fold (newARangeSet fuel)
                  (fun _ x (l : list DwarfARangeSet) => l ++ [x])
                  fuel (newReader (ix_io d) (ix_version d) (sh_offset sec) (sh_size sec))
                  (aranges d) []) as E.
    cbn [foldl] in E. rewrite E. clear E.
    destruct (fillLoop fuel (newARangeSet fuel) _ _ []) as [o xs] eqn:Ex.
    destruct o; cbn; try discriminate.
    intros [= <-]. rewrite foldl_snoc.
    eexists (xs.*2), _. cbn [arangesh aranges].
    split; [reflexivity|]. split; [reflexivity|].
    unfold ranges. cbn [info ix_io ix_version unitsm arangesh aranges pubnamesh
                        pubnameUnits].
    pose proof (fillLoop_fold (newARangeSet fuel)
                  (fun _ x (l : list DwarfARangeSet) => l ++ [x])
                  fuel (newReader (ix_io d) (ix_version d) (sh_offset sec) (sh_size sec))
                  (aranges d ++ xs.*2) []) as E.
    cbn [foldl] in E. rewrite E, Ex. clear E.
    cbn. split; [reflexivity|]. rewrite foldl_snoc, <- app_assoc. reflexivity.
  - intros d1. unfold pubnames at 1.
    destruct (pubnamesh d) as [sec|] eqn:Hsh; [|discriminate].
    pose proof (fillLoop_fold (newPubnameUnit fuel)
                  (fun _ x (l : list DwarfPubnameUnit) => l ++ [x])
                  fuel (newReader (ix_io d) (ix_version d) (sh_offset sec) (sh_size sec))
                  (pubnameUnits d) []) as E.
    cbn [foldl] in E. rewrite E. clear E.
    destruct (fillLoop fuel (newPubnameUnit fuel) _ _ []) as [o xs] eqn:Ex.
    destruct o; cbn; try discriminate.
    intros [= <-]. rewrite foldl_snoc.
    eexists (xs.*2), _. cbn [pubnamesh pubnameUnits].
    split; [reflexivity|]. split; [reflexivity|].
    unfold pubnames. cbn [info ix_io ix_version unitsm arangesh aranges pubnamesh
                          pubnameUnits].
    pose proof (fillLoop_fold (newPubnameUnit fuel)
                  (fun _ x (l : list DwarfPubnameUnit) => l ++ [x])
                  fuel (newReader (ix_io d) (ix_version d) (sh_offset sec) (sh_size sec))
                  (pubnameUnits d ++ xs.*2) []) as E.
    cbn [foldl] in E. rewrite E, Ex. clear E.
    cbn. split; [reflexivity|]. rewrite foldl_snoc, <- app_assoc. reflexivity.
Qed.

Lemma index_retry_witness :
  units unitExtent 5 (units unitExtent 5 ix_broken).2 = units unitExtent 5 ix_broken
  /\ length (aranges (ranges 5 (ranges 5 ix_broken).2).2) = 2%nat
  /\ length (pubnameUnits (pubnames 5 (pubnames 5 ix_broken).2).2) = 2%nat.
Proof.
  destruct (index_retry Z unitExtent 5 ix_broken) as (Hu & Hr & Hp).
  split; [|split].
  - destruct (units unitExtent 5 ix_broken) as [o d1] eqn:E.
    destruct o as [m| | | |]; try (vm_compute in E; discriminate).
    destruct (Hu d1 eq_refl) as [_ H]. exact H.
  - destruct (ranges 5 ix_broken) as [o d1] eqn:E.
    destruct o as [m| | | |]; try (vm_compute in E; discriminate).
    destruct (Hr d1 eq_refl) as (xs & d2 & _ & H1 & H2 & H3).
    cbn [snd]. rewrite H2. cbn [snd]. rewrite H3.
    assert (Hl : length (aranges d1) = 1%nat).
    { apply (f_equal (fun x => length (aranges x.2))) in E. cbn [snd] in E.
      rewrite <- E. vm_compute. reflexivity. }
    rewrite H1 in Hl. change (aranges ix_broken) with (@nil DwarfARangeSet) in *.
    cbn [app] in *. rewrite length_app. lia.
  - destruct (pubnames 5 ix_broken) as [o d1] eqn:E.
    destruct o as [m| | | |]; try (vm_compute in E; discriminate).
    destruct (Hp d1 eq_refl) as (xs & d2 & _ & H1 & H2 & H3).
    cbn [snd]. rewrite H2. cbn [snd]. rewrite H3.
    assert (Hl : length (pubnameUnits d1) = 1%nat).
    { apply (f_equal (fun x => length (pubnameUnits x.2))) in E. cbn [snd] in E.
      rewrite <- E. vm_compute. reflexivity. }
    rewrite H1 in Hl. change (pubnameUnits ix_broken) with (@nil DwarfPubnameUnit) in *.
    cbn [app] in *. rewrite length_app. lia.
Defined.

(** ** From an address to source lines *)

Lemma matrixScan_cons (i : DwarfLineState) (rest : list DwarfLineState) (a : Z)
    (acc : list (Z * Z)) :
  matrixScan (i :: rest) a acc
  = if negb (end_sequence i =? 0) then matrixScan rest a acc
    else if st_addr i <=? a then
      match rest with
      | [] => Undef
      | next :: _ =>
          if a <? st_addr next
          then matrixScan rest a (acc ++ [(st_file i, st_line i)])
          else matrixScan rest a acc
      end
    else matrixScan rest a acc.
Proof. reflexivity. Qed.

Lemma rowsAround_cons (i next : DwarfLineState) (rest : list DwarfLineState) (a : Z) :
  rowsAround (i :: next :: rest) a
  = (if (end_sequence i =? 0) && (st_addr i <=? a) && (a <? st_addr next)
     then [(st_file i, st_line i)] else [])
    ++ rowsAround (next :: rest) a.
Proof. reflexivity. Qed.

Lemma matrixScan_ok (matrix : list DwarfLineState) (a : Z) :
  forall acc : list (Z * Z),
    (forall i, last matrix = Some i -> end_sequence i <> 0) ->
    matrixScan matrix a acc = Ok (acc ++ rowsAround matrix a).
Proof.
  induction matrix as [|i rest IH]; intros acc Hlast.
  - cbn. rewrite app_nil_r. reflexivity.
  - destruct rest as [|next rest'].
    + specialize (Hlast i eq_refl). cbn [matrixScan rowsAround].
      destruct (Z.eqb_spec (end_sequence i) 0); [contradiction|].
      cbn. rewrite app_nil_r. reflexivity.
    + assert (Hl : forall j, last (next :: rest') = Some j -> end_sequence j <> 0)
        by (intros j Hj; apply Hlast; rewrite last_cons, Hj; reflexivity).
      rewrite matrixScan_cons, rowsAround_cons.
      destruct (end_sequence i =? 0); cbn [negb andb].
      * destruct (st_addr i <=? a); cbn [andb].
        -- destruct (a <? st_addr next).
           ++ rewrite IH by exact Hl. rewrite <- app_assoc. reflexivity.
           ++ rewrite IH by exact Hl. reflexivity.
        -- rewrite IH by exact Hl. reflexivity.
      * rewrite IH by exact Hl. reflexivity.
Qed.

Lemma matrixScan_open (matrix : list DwarfLineState) (a : Z) :
  forall (acc : list (Z * Z)) (i : DwarfLineState),
    last matrix = Some i -> end_sequence i = 0 -> st_addr i <= a ->
    matrixScan matrix a acc = Undef.
Proof.
  induction matrix as [|j rest IH]; intros acc i Hlast He Ha; [discriminate|].
  destruct rest as [|next rest'].
  - cbn in Hlast. injection Hlast as ->. cbn [matrixScan]. rewrite He. cbn.
    destruct (Z.leb_spec (st_addr i) a); [reflexivity | lia].
  - rewrite last_cons in Hlast.
    destruct (last (next :: rest')) as [i'|] eqn:El;
      [|apply last_None in El; discriminate].
    injection Hlast as ->.
    rewrite matrixScan_cons.
    destruct (negb (end_sequence j =? 0)); [apply (IH _ i eq_refl He Ha)|].
    destruct (st_addr j <=? a); [|apply (IH _ i eq_refl He Ha)].
    destruct (a <? st_addr next); apply (IH _ i eq_refl He Ha).
Qed.

(** The scan of a line matrix by [sourceFromAddr].  If the last row of the
    matrix carries [end_sequence], the scan reports exactly the rows
    without that flag for which [a] lies from the row's address up to, and
    not including, the address of the next row, in the order of the matrix.
    If the last row does not carry the flag and its address is not above
    [a], the scan reads the row behind the end of the matrix. *)
Theorem matrixScan_rows (matrix : list DwarfLineState) (a : Z) (i : DwarfLineState) :
  last matrix = Some i ->
  (end_sequence i <> 0 -> matrixScan matrix a [] = Ok (rowsAround matrix a))
  /\ (end_sequence i = 0 -> st_addr i <= a -> matrixScan matrix a [] = Undef).
Proof.
  intros Hlast. split.
  - intros He. rewrite matrixScan_ok; [reflexivity|].
    intros j Hj. rewrite Hlast in Hj. injection Hj as <-. exact He.
  - intros He Ha. apply (matrixScan_open matrix a [] i Hlast He Ha).
Qed.

Lemma matrixScan_rows_witness :
  matrixScan [mkLineState 0x1000 1 10 0 1 0 0; mkLineState 0x1008 1 11 0 1 0 0;
              mkLineState 0x1010 1 11 0 1 0 1] 0x1009 []
  = Ok [(1, 11)]
  /\ matrixScan [mkLineState 0x1000 1 10 0 1 0 0; mkLineState 0x1008 1 11 0 1 0 0]
                0x1009 []
     = Undef.
Proof.
  split.
  - apply (matrixScan_rows
             [mkLineState 0x1000 1 10 0 1 0 0; mkLineState 0x1008 1 11 0 1 0 0;
              mkLineState 0x1010 1 11 0 1 0 1] 0x1009
             (mkLineState 0x1010 1 11 0 1 0 1) eq_refl).
    cbn. discriminate.
  - apply (matrixScan_rows
             [mkLineState 0x1000 1 10 0 1 0 0; mkLineState 0x1008 1 11 0 1 0 0]
             0x1009 (mkLineState 0x1008 1 11 0 1 0 0) eq_refl).
    + reflexivity.
    + cbn. lia.
Defined.

Lemma scanRanges_none {U : Type} (matrixOf : U -> list DwarfLineState)
    (m : gmap Z U) (rs : DwarfARangeSet) (a : Z) (acc : list (Z * Z)) :
  forall l : list DwarfARange,
    Forall (fun r => ~ (ar_start r <= a < u64 (ar_start r + ar_length r))) l ->
    scanRanges U matrixOf m rs l a acc = Ok acc.
Proof.
  induction 1 as [|r l Hr _ IH]; [reflexivity|].
  cbn [scanRanges].
  destruct (Z.leb_spec (ar_start r) a);
    [destruct (Z.ltb_spec a (u64 (ar_start r + ar_length r)))|];
    cbn [andb]; try exact IH.
  exfalso. apply Hr. lia.
Qed.

Lemma ranges_result {U : Type} (fuel : nat) (d d2 : Indexes U)
    (sets : list DwarfARangeSet) :
  ranges fuel d = (Ok sets, d2) -> aranges d2 = sets.
Proof.
  unfold ranges. destruct (arangesh d) as [sec|].
  - destruct (fillLoop _ _ _ _ _) as [o l]. destruct o; cbn; try discriminate.
    intros [= <- <-]. reflexivity.
  - intros [= <- <-]. reflexivity.
Qed.

(** [sourceFromAddr] consults the line matrix of a unit only through the
    address ranges: when no range of any set of [.debug_aranges] contains
    the address, a call that returns reports no line at all, whatever the
    units hold. *)
Theorem sourceFromAddr_needs_range {U : Type} (newU : M U)
    (matrixOf : U -> list DwarfLineState) (fuel : nat) (d : Indexes U) (a : Z) :
  match sourceFromAddr U newU matrixOf fuel d a with
  | (Ok found, d2) =>
      Forall (fun rs =>
                Forall (fun r => ~ (ar_start r <= a < u64 (ar_start r + ar_length r)))
                       (ranges_of rs)) (aranges d2) ->
      found = []
  | _ => True
  end.
Proof.
  unfold sourceFromAddr.
  destruct (units newU fuel d) as [o1 d1]. destruct o1; try exact I.
  destruct (ranges fuel d1) as [o2 d2] eqn:Er. destruct o2 as [sets| | | |];
    cbn [obind]; try exact I.
  rewrite (ranges_result _ _ _ _ Er).
  destruct (scanSets U matrixOf (unitsm d2) sets a []) as [found| | | |] eqn:Es;
    try exact I.
  intros Hall. clear Er. revert Es. generalize (@nil (Z * Z)).
  induction Hall as [|rs sets' Hrs _ IH]; intros acc; cbn [scanSets].
  - intros [= <-]. reflexivity.
  - rewrite (scanRanges_none matrixOf _ _ _ _ _ Hrs). cbn [obind]. apply IH.
Qed.

(** ** Decoding a set of address ranges *)

Lemma holds_drop (rd : Reader) (o : Z) (bs cs : list Z) :
  holds rd o (bs ++ cs) -> holds rd (u64 (o + Z.of_nat (length bs))) cs.
Proof.
  intros H i b Hb. rewrite u64_add_l.
  replace (o + Z.of_nat (length bs) + Z.of_nat i)
    with (o + Z.of_nat (length bs + i)) by lia.
  apply H. rewrite lookup_app_r by lia.
  replace (length bs + i - length bs)%nat with i by lia. exact Hb.
Qed.

Lemma bind_ok {A B : Type} (m : M A) (k : A -> M B) (r r1 : DWARFReader) (a : A) :
  m r = Ok (a, r1) -> bind m k r = k a r1.
Proof. intros H. unfold bind. rewrite H. reflexivity. Qed.

Lemma cursorAt_getuint (r : DWARFReader) (rd : Reader) (o : Z) (n : nat) (v : Z)
    (post : list Z) :
  (n <= 8)%nat -> 0 <= v < 2^(8 * Z.of_nat n) ->
  cursorAt r rd o (leBytes n v ++ post) ->
  getuint (Z.of_nat n) r = Ok (v, skip r (Z.of_nat n))
  /\ cursorAt (skip r (Z.of_nat n)) rd (o + Z.of_nat n) post.
Proof.
  intros Hn Hv (Hio & Hoff & Ho & Hfit & Hh).
  rewrite length_app, leBytes_length in Hfit.
  split.
  - apply getuint_holds; [rewrite Hoff; lia | exact Hn | exact Hv |].
    rewrite Hio, Hoff. apply (holds_app_l _ _ _ _ Hh).
  - unfold cursorAt, skip, setOffset. cbn [io off].
    rewrite Hoff, u64_small by lia.
    repeat split; [exact Hio | lia | lia |].
    apply holds_drop in Hh. rewrite leBytes_length, u64_small in Hh by lia.
    exact Hh.
Qed.

Lemma cursorAt_skip (r : DWARFReader) (rd : Reader) (o : Z) (pre post : list Z) :
  cursorAt r rd o (pre ++ post) ->
  cursorAt (skip r (Z.of_nat (length pre))) rd (o + Z.of_nat (length pre)) post.
Proof.
  intros (Hio & Hoff & Ho & Hfit & Hh). rewrite length_app in Hfit.
  unfold cursorAt, skip, setOffset. cbn [io off].
  rewrite Hoff, u64_small by lia.
  repeat split; [exact Hio | lia | lia |].
  apply holds_drop in Hh. rewrite u64_small in Hh by lia. exact Hh.
Qed.

Lemma cursorAt_setVersion (r : DWARFReader) (rd : Reader) (o : Z) (bs : list Z)
    (v : Z) :
  cursorAt r rd o bs -> cursorAt (setVersion r v) rd o bs.
Proof. intros H. exact H. Qed.

Lemma cursorAt_setAddrLen (r : DWARFReader) (rd : Reader) (o : Z) (bs : list Z)
    (v : Z) :
  cursorAt r rd o bs -> cursorAt (setAddrLen r v) rd o bs.
Proof. intros H. exact H. Qed.

Lemma leBytes_zero (n : nat) : leBytes n 0 = repeat 0 n.
Proof.
  induction n as [|n IH]; [reflexivity|].
  cbn [leBytes repeat]. rewrite Z.shiftr_0_l, IH. reflexivity.
Qed.

Lemma arangeLoop_ok (rd : Reader) (n : nat) (post : list Z) :
  (1 <= n <= 8)%nat ->
  forall (rs : list DwarfARange) (fuel : nat) (r : DWARFReader)
         (acc : list DwarfARange) (o : Z),
    Forall (fun x => 0 <= ar_start x < 2^(8 * Z.of_nat n)
                     /\ 0 <= ar_length x < 2^(8 * Z.of_nat n)
                     /\ ~ (ar_start x = 0 /\ ar_length x = 0)) rs ->
    (length rs < fuel)%nat ->
    cursorAt r rd o (flat_map (encode_arange n) rs ++ repeat 0 (2 * n) ++ post) ->
    exists r',
      arangeLoop fuel (Z.of_nat n)
                 (o + 2 * Z.of_nat n * (Z.of_nat (length rs) + 1)) acc r
      = Ok (acc ++ rs, r')
      /\ cursorAt r' rd (o + 2 * Z.of_nat n * (Z.of_nat (length rs) + 1)) post.
Proof.
  intros Hn. assert (Hn8 : (n <= 8)%nat) by lia.
  induction rs as [|x rs IH]; intros fuel r acc o Hrs Hfuel Hc;
    (destruct fuel as [|fuel]; [cbn [length] in Hfuel; lia|]).
  - cbn [flat_map app length] in *.
    replace (2 * n)%nat with (n + n)%nat in Hc by lia.
    rewrite repeat_app, <- !leBytes_zero, <- app_assoc in Hc.
    assert (H0 : 0 <= 0 < 2^(8 * Z.of_nat n))
      by (split; [lia | apply Z.pow_pos_nonneg; lia]).
    destruct (cursorAt_getuint _ _ _ _ _ _ Hn8 H0 Hc) as [E1 Hc1].
    destruct (cursorAt_getuint _ _ _ _ _ _ Hn8 H0 Hc1) as [E2 Hc2].
    exists (skip (skip r (Z.of_nat n)) (Z.of_nat n)).
    split.
    + cbn [arangeLoop]. destruct Hc as (_ & -> & _).
      destruct (Z.ltb_spec o (o + 2 * Z.of_nat n * (Z.of_nat 0 + 1))); [|lia].
      rewrite (bind_ok _ _ _ _ _ E1), (bind_ok _ _ _ _ _ E2).
      cbn. rewrite app_nil_r. reflexivity.
    + replace (o + 2 * Z.of_nat n * (Z.of_nat 0 + 1))
        with (o + Z.of_nat n + Z.of_nat n) by lia.
      exact Hc2.
  - inversion Hrs as [|? ? (Hs & Hl & Hnz) Hrs']; subst.
    cbn [flat_map] in Hc. unfold encode_arange at 1 in Hc.
    rewrite <- !app_assoc in Hc.
    destruct (cursorAt_getuint _ _ _ _ _ _ Hn8 Hs Hc) as [E1 Hc1].
    destruct (cursorAt_getuint _ _ _ _ _ _ Hn8 Hl Hc1) as [E2 Hc2].
    cbn [length] in Hfuel.
    destruct (IH fuel _ (acc ++ [x]) _ Hrs' ltac:(lia) Hc2) as (r' & E & Hc').
    exists r'. split.
    + cbn [arangeLoop]. destruct Hc as (_ & -> & _).
      cbn [length].
      destruct (Z.ltb_spec o (o + 2 * Z.of_nat n * (Z.of_nat (S (length rs)) + 1)));
        [|lia].
      rewrite (bind_ok _ _ _ _ _ E1), (bind_ok _ _ _ _ _ E2).
      assert (Hz : (ar_start x =? 0) && (ar_length x =? 0) = false).
      { destruct (Z.eqb_spec (ar_start x) 0), (Z.eqb_spec (ar_length x) 0);
          try reflexivity. exfalso. apply Hnz. split; assumption. }
      rewrite Hz.
      replace (o + 2 * Z.of_nat n * (Z.of_nat (S (length rs)) + 1))
        with (o + Z.of_nat n + Z.of_nat n
              + 2 * Z.of_nat n * (Z.of_nat (length rs) + 1)) by lia.
      replace (mkARange (ar_start x) (ar_length x)) with x by (destruct x; reflexivity).
      rewrite E, <- app_assoc. reflexivity.
    + cbn [length].
      replace (o + 2 * Z.of_nat n * (Z.of_nat (S (length rs)) + 1))
        with (o + Z.of_nat n + Z.of_nat n
              + 2 * Z.of_nat n * (Z.of_nat (length rs) + 1)) by lia.
      exact Hc'.
Qed.

Lemma cursorAt_getu8 (r : DWARFReader) (rd : Reader) (o b : Z) (post : list Z) :
  cursorAt r rd o (b :: post) ->
  getu8 r = Ok (b, skip r 1) /\ cursorAt (skip r 1) rd (o + 1) post.
Proof.
  intros (Hio & Hoff & Ho & Hfit & Hh). cbn [length] in Hfit.
  destruct (getu8_holds r b post) as [E Hh'];
    [rewrite Hoff; lia | rewrite Hio, Hoff; exact Hh |].
  split; [exact E|].
  unfold cursorAt. unfold skip, setOffset in *. cbn [io off] in *.
  rewrite Hoff, u64_small in * by lia. rewrite Hio in Hh'.
  repeat split; [exact Hio | lia | lia | exact Hh'].
Qed.

Lemma encode_arange_length (n : nat) (rs : list DwarfARange) :
  length (flat_map (encode_arange n) rs) = (2 * n * length rs)%nat.
Proof.
  induction rs as [|x rs IH]; [cbn; lia|].
  cbn [flat_map length]. unfold encode_arange at 1.
  rewrite !length_app, !leBytes_length, IH. lia.
Qed.

Lemma encode_arange_body_length (n : nat) (ver dio sdl : Z) (pad : list Z)
    (rs : list DwarfARange) :
  length (encode_arange_body n ver dio sdl pad rs)
  = (8 + length pad + 2 * n * (length rs + 1))%nat.
Proof.
  unfold encode_arange_body.
  rewrite !length_app, !leBytes_length, encode_arange_length, repeat_length.
  cbn [length]. lia.
Qed.

(** The constructor of [DwarfARangeSet] decodes the layout of the standard.
    For addresses of 4 or 8 bytes and a set laid out in the 32-bit format
    with its four bytes of padding, it returns the header fields and the
    tuples in their order, stops at the tuple of two zeros, and leaves the
    cursor behind the set. *)
Theorem newARangeSet_decodes (fuel n : nat) (ver dio sdl : Z) (pad : list Z)
    (rs : list DwarfARange) (r : DWARFReader) (rd : Reader) (o : Z)
    (post : list Z) :
  n = 4%nat \/ n = 8%nat -> length pad = 4%nat ->
  0 <= ver < 2^16 -> 0 <= dio < 2^32 -> 0 <= sdl < 256 ->
  Forall (fun x => 0 <= ar_start x < 2^(8 * Z.of_nat n)
                   /\ 0 <= ar_length x < 2^(8 * Z.of_nat n)
                   /\ ~ (ar_start x = 0 /\ ar_length x = 0)) rs ->
  (length rs < fuel)%nat ->
  Z.of_nat (length (encode_arange_body n ver dio sdl pad rs)) < 0xfffffff0 ->
  cursorAt r rd o (encode_arange_set n ver dio sdl pad rs ++ post) ->
  exists r',
    newARangeSet fuel r
    = Ok (mkARangeSet (Z.of_nat (length (encode_arange_body n ver dio sdl pad rs)))
                      ver dio (Z.of_nat n) sdl rs, r')
    /\ cursorAt r' rd
         (o + Z.of_nat (length (encode_arange_set n ver dio sdl pad rs))) post.
Proof.
  intros Hn Hpad Hver Hdio Hsdl Hrs Hfuel Hlen Hc.
  assert (Hn18 : (1 <= n <= 8)%nat) by lia.
  pose proof (encode_arange_body_length n ver dio sdl pad rs) as HL.
  rewrite Hpad in HL.
  set (L := Z.of_nat (length (encode_arange_body n ver dio sdl pad rs))) in *.
  assert (HLv : L = 12 + 2 * Z.of_nat n * (Z.of_nat (length rs) + 1))
    by (unfold L; rewrite HL; lia).
  assert (Htot : Z.of_nat (length (encode_arange_set n ver dio sdl pad rs)) = 4 + L).
  { unfold encode_arange_set. rewrite length_app, leBytes_length. unfold L. lia. }
  assert (Hfit0 : 0 <= o /\ o + 4 + L < 2^64).
  { destruct Hc as (_ & _ & Ho & H & _).
    rewrite length_app, Nat2Z.inj_add, Htot in H. lia. }
  rewrite Htot.
  unfold encode_arange_set in Hc. fold L in Hc.
  unfold encode_arange_body in Hc. rewrite <- !app_assoc in Hc.
  cbn [app] in Hc.
  assert (Hoff0 : off r = o) by (destruct Hc as (_ & H & _); exact H).
  (* the length *)
  destruct (cursorAt_getuint r rd o 4 L _ ltac:(lia)
              ltac:(change (2^(8 * Z.of_nat 4)) with 4294967296; lia) Hc)
    as [E1 Hc1].
  change (Z.of_nat 4) with 4 in E1, Hc1.
  rewrite <- getu32_getuint in E1.
  pose proof (getlength_eq _ _ _ E1) as Egl.
  destruct (Z.leb_spec 0xfffffff0 L) as [Hbig|_]; [lia|].
  (* the version *)
  destruct (cursorAt_getuint _ rd _ 2 ver _ ltac:(lia) Hver Hc1) as [E2 Hc2].
  change (Z.of_nat 2) with 2 in E2, Hc2.
  rewrite <- getu16_getuint in E2.
  apply (cursorAt_setVersion _ _ _ _ ver) in Hc2.
  (* the offset of the unit *)
  destruct (cursorAt_getuint _ rd _ 4 dio _ ltac:(lia) Hdio Hc2) as [E3 Hc3].
  change (Z.of_nat 4) with 4 in E3, Hc3.
  rewrite <- getu32_getuint in E3.
  (* the two sizes *)
  destruct (cursorAt_getu8 _ _ _ _ _ Hc3) as [E4 Hc4].
  apply (cursorAt_setAddrLen _ _ _ _ (Z.of_nat n)) in Hc4.
  destruct (cursorAt_getu8 _ _ _ _ _ Hc4) as [E5 Hc5].
  (* the padding *)
  pose proof (cursorAt_skip _ _ _ _ _ Hc5) as Hc6.
  rewrite Hpad in Hc6. change (Z.of_nat 4) with 4 in Hc6.
  (* the tuples *)
  destruct (arangeLoop_ok rd n post Hn18 rs fuel _ [] _ Hrs Hfuel Hc6)
    as (r' & E7 & Hc7).
  exists r'. split.
  - unfold newARangeSet.
    rewrite (bind_ok getOffset _ r r (off r) eq_refl). cbv beta zeta.
    rewrite (bind_ok getlength _ _ _ _ Egl). cbv beta zeta.
    rewrite (bind_ok getOffset _ _ _ _ eq_refl). cbv beta zeta.
    rewrite (bind_ok getu16 _ _ _ _ E2). cbv beta zeta.
    rewrite (bind_ok _ _ _ _ tt eq_refl). cbv beta zeta.
    rewrite (bind_ok getu32 _ _ _ _ E3). cbv beta zeta.
    rewrite (bind_ok getu8 _ _ _ _ E4). cbv beta zeta.
    rewrite (bind_ok _ _ _ _ tt eq_refl). cbv beta zeta.
    rewrite (bind_ok getu8 _ _ _ _ E5). cbv beta zeta.
    rewrite (bind_ok getOffset _ _ _ _ eq_refl). cbv beta zeta.
    destruct Hc5 as (_ & Hoff5 & _). rewrite Hoff5.
    destruct Hc1 as (_ & Hoff1 & _). rewrite Hoff1.
    rewrite Hoff0.
    replace (o + 4 + 2 + 4 + 1 + 1 - o) with 12 by lia.
    assert (Ha : u32 (u32 (Z.of_nat n * 2) - u64 12 mod u32 (Z.of_nat n * 2)) = 4)
      by (destruct Hn as [-> | ->]; reflexivity).
    assert (Ht : (u32 (Z.of_nat n * 2) =? 0) = false)
      by (destruct Hn as [-> | ->]; reflexivity).
    rewrite Ht, Ha.
    rewrite (bind_ok (skipM 4) _ _ _ tt eq_refl). cbv beta zeta.
    rewrite (u32_small L) by (pow2; lia).
    assert (Hnext : u64 (o + 4 + L)
                    = o + 4 + 2 + 4 + 1 + 1 + 4
                      + 2 * Z.of_nat n * (Z.of_nat (length rs) + 1)).
    { rewrite u64_small; lia. }
    rewrite Hnext.
    rewrite (bind_ok _ _ _ _ _ E7). reflexivity.
  - replace (o + (4 + L))
      with (o + 4 + 2 + 4 + 1 + 1 + 4 + 2 * Z.of_nat n * (Z.of_nat (length rs) + 1))
      by lia.
    exact Hc7.
Qed.

Lemma newARangeSet_decodes_witness :
  exists r',
    newARangeSet 2 (readerOver ix_aranges_bytes)
    = Ok (mkARangeSet 44 2 0 8 0 [mkARange 0x401000 0x1000], r')
    /\ cursorAt r' (bytesAt 0 ix_aranges_bytes) 48 [].
Proof.
  apply (newARangeSet_decodes 2 8 2 0 0 [0; 0; 0; 0] [mkARange 0x401000 0x1000]
           (readerOver ix_aranges_bytes) (bytesAt 0 ix_aranges_bytes) 0 []).
  - right. reflexivity.
  - reflexivity.
  - vm_compute. split; [intro; discriminate | reflexivity].
  - vm_compute. split; [intro; discriminate | reflexivity].
  - lia.
  - constructor; [|constructor]. cbn [ar_start ar_length].
    split; [vm_compute; split; [intro; discriminate | reflexivity]|].
    split; [vm_compute; split; [intro; discriminate | reflexivity]|].
    intros [H _]. discriminate H.
  - cbn. lia.
  - vm_compute. reflexivity.
  - split; [reflexivity|]. split; [reflexivity|]. split; [lia|].
    split; [vm_compute; reflexivity|].
    apply (holds_bytesAt 0 ix_aranges_bytes);
      [reflexivity | lia | vm_compute; discriminate].
Defined.

(** ** Addresses in frame entries *)

Lemma cursorAt_getint (r : DWARFReader) (rd : Reader) (o : Z) (n : nat) (v : Z)
    (post : list Z) :
  (1 <= n <= 8)%nat ->
  - 2^(8 * Z.of_nat n - 1) <= v < 2^(8 * Z.of_nat n - 1) ->
  cursorAt r rd o (leBytes n v ++ post) ->
  getint (Z.of_nat n) r = Ok (v, skip r (Z.of_nat n))
  /\ cursorAt (skip r (Z.of_nat n)) rd (o + Z.of_nat n) post.
Proof.
  intros Hn Hv Hc. split.
  - destruct Hc as (Hio & Hoff & Ho & Hfit & Hh).
    rewrite length_app, leBytes_length in Hfit.
    apply getint_holds; [rewrite Hoff; lia | exact Hn | exact Hv |].
    rewrite Hio, Hoff. apply (holds_app_l _ _ _ _ Hh).
  - pose proof (cursorAt_skip r rd o (leBytes n v) post Hc) as H.
    rewrite leBytes_length in H. exact H.
Qed.

Lemma decodeAddress_sdata (elfBase : Z) (r : DWARFReader) (rd : Reader)
    (o : Z) (n : nat) (v encoding : Z) (post : list Z) :
  (n = 2%nat /\ Z.land encoding 0xf = DW_EH_PE_sdata2)
  \/ (n = 4%nat /\ Z.land encoding 0xf = DW_EH_PE_sdata4)
  \/ (n = 8%nat /\ Z.land encoding 0xf = DW_EH_PE_sdata8) ->
  - 2^(8 * Z.of_nat n - 1) <= v < 2^(8 * Z.of_nat n - 1) ->
  cursorAt r rd o (leBytes n v ++ post) ->
  decodeAddress elfBase encoding r
  = Ok (if Z.land encoding 0xf0 =? DW_EH_PE_pcrel
        then s64 (v + o + elfBase) else v,
        skip r (Z.of_nat n))
  /\ cursorAt (skip r (Z.of_nat n)) rd (o + Z.of_nat n) post.
Proof.
  intros Hn Hv Hc.
  destruct (cursorAt_getint r rd o n v post ltac:(lia) Hv Hc) as [E Hc'].
  split; [|exact Hc'].
  unfold decodeAddress.
  rewrite (bind_ok getOffset _ r r (off r) eq_refl).
  destruct Hc as (_ & -> & _).
  assert (Eb : (let e := Z.land encoding 0xf in
                if e =? DW_EH_PE_sdata2 then getint 2
                else if e =? DW_EH_PE_sdata4 then getint 4
                else if e =? DW_EH_PE_sdata8 then getint 8
                else if e =? DW_EH_PE_udata2 then (let* v := getuint 2 in ret (s64 v))
                else if e =? DW_EH_PE_udata4 then (let* v := getuint 4 in ret (s64 v))
                else if e =? DW_EH_PE_udata8 then (let* v := getuint 8 in ret (s64 v))
                else if e =? DW_EH_PE_sleb128 then getsleb128
                else if e =? DW_EH_PE_uleb128
                     then (let* v := getuleb128 in ret (s64 v))
                     else fail Abort) r
               = Ok (v, skip r (Z.of_nat n))).
  { cbv zeta. destruct Hn as [[-> ->]|[[-> ->]|[-> ->]]]; exact E. }
  rewrite (bind_ok _ _ _ _ _ Eb).
  destruct (Z.land encoding 0xf0 =? DW_EH_PE_pcrel); reflexivity.
Qed.

(** [decodeAddress] on the formats of fixed size with sign: the value read
    is returned as it is, or, when the encoding says [DW_EH_PE_pcrel], with
    the offset at which it was read and the base of the file added
    (modulo 2^64, read with sign).  An encoding whose format is none of the
    eight the function knows, [DW_EH_PE_absptr] among them, ends in
    [abort()] before anything is read. *)
Theorem decodeAddress_formats (elfBase : Z) (r : DWARFReader) (encoding : Z) :
  (forall (rd : Reader) (o : Z) (n : nat) (v : Z) (post : list Z),
      (n = 2%nat /\ Z.land encoding 0xf = DW_EH_PE_sdata2)
      \/ (n = 4%nat /\ Z.land encoding 0xf = DW_EH_PE_sdata4)
      \/ (n = 8%nat /\ Z.land encoding 0xf = DW_EH_PE_sdata8) ->
      - 2^(8 * Z.of_nat n - 1) <= v < 2^(8 * Z.of_nat n - 1) ->
      cursorAt r rd o (leBytes n v ++ post) ->
      decodeAddress elfBase encoding r
      = Ok (if Z.land encoding 0xf0 =? DW_EH_PE_pcrel
            then s64 (v + o + elfBase) else v,
            skip r (Z.of_nat n)))
  /\ (~ In (Z.land encoding 0xf)
          [DW_EH_PE_uleb128; DW_EH_PE_udata2; DW_EH_PE_udata4; DW_EH_PE_udata8;
           DW_EH_PE_sleb128; DW_EH_PE_sdata2; DW_EH_PE_sdata4; DW_EH_PE_sdata8] ->
      decodeAddress elfBase encoding r = Abort).
Proof.
  split.
  - intros rd o n v post Hn Hv Hc.
    apply (decodeAddress_sdata elfBase r rd o n v encoding post Hn Hv Hc).
  - intros Hnot. unfold decodeAddress.
    rewrite (bind_ok getOffset _ r r (off r) eq_refl).
    unfold bind. cbv zeta.
    repeat match goal with
           | |- context [Z.land encoding 15 =? ?c] =>
               destruct (Z.eqb_spec (Z.land encoding 15) c) as [E|_];
               [exfalso; apply Hnot; rewrite E; cbn; tauto|]
           end.
    reflexivity.
Qed.

Lemma decodeAddress_formats_witness :
  decodeAddress 0x400000 0x1b
    (setOffset (newReader (bytesAt 0x1020 (leBytes 4 (-16))) 2 0x1000 0x100) 0x1020)
  = Ok (0x401010,
        skip (setOffset (newReader (bytesAt 0x1020 (leBytes 4 (-16))) 2 0x1000 0x100)
                        0x1020) 4)
  /\ decodeAddress 0x400000 DW_EH_PE_absptr (readerOver [1; 2; 3; 4; 5; 6; 7; 8])
     = Abort.
Proof.
  split.
  - apply (proj1 (decodeAddress_formats 0x400000
                    (setOffset (newReader (bytesAt 0x1020 (leBytes 4 (-16))) 2
                                          0x1000 0x100) 0x1020) 0x1b)
                 (bytesAt 0x1020 (leBytes 4 (-16))) 0x1020 4%nat (-16) []).
    + right. left. split; reflexivity.
    + vm_compute. split; [intro; discriminate | reflexivity].
    + split; [reflexivity|]. split; [reflexivity|]. split; [lia|].
      split; [vm_compute; reflexivity|].
      apply (holds_bytesAt 0x1020 (leBytes 4 (-16)));
        [reflexivity | lia | vm_compute; discriminate].
  - apply (proj2 (decodeAddress_formats 0x400000
                    (readerOver [1; 2; 3; 4; 5; 6; 7; 8]) DW_EH_PE_absptr)).
    vm_compute. intuition discriminate.
Defined.

Lemma cursorAt_setOffset (r : DWARFReader) (rd : Reader) (o : Z) (pre post : list Z) :
  cursorAt r rd o (pre ++ post) ->
  cursorAt (setOffset r (off r + Z.of_nat (length pre))) rd
           (o + Z.of_nat (length pre)) post.
Proof. apply cursorAt_skip. Qed.

Lemma cursorAt_getuleb128 (r : DWARFReader) (rd : Reader) (o v : Z) (post : list Z) :
  0 <= v < 2^31 ->
  cursorAt r rd o (encode_uleb128 v ++ post) ->
  exists r',
    getuleb128 r = Ok (v, r')
    /\ cursorAt r' rd (o + Z.of_nat (length (encode_uleb128 v))) post.
Proof.
  intros Hv Hc. eexists. split; [|apply (cursorAt_setOffset _ _ _ _ _ Hc)].
  destruct Hc as (Hio & Hoff & Ho & Hfit & Hh). rewrite length_app in Hfit.
  apply getuleb128_holds; [rewrite Hoff; lia | exact Hv |].
  rewrite Hio, Hoff. apply (holds_app_l _ _ _ _ Hh).
Qed.

Lemma cursorAt_getsleb128 (r : DWARFReader) (rd : Reader) (o v : Z) (post : list Z) :
  - 2^31 <= v < 2^31 ->
  cursorAt r rd o (encode_sleb128 v ++ post) ->
  exists r',
    getsleb128 r = Ok (v, r')
    /\ cursorAt r' rd (o + Z.of_nat (length (encode_sleb128 v))) post.
Proof.
  intros Hv Hc. eexists. split; [|apply (cursorAt_setOffset _ _ _ _ _ Hc)].
  destruct Hc as (Hio & Hoff & Ho & Hfit & Hh). rewrite length_app in Hfit.
  apply getsleb128_holds; [rewrite Hoff; lia | exact Hv |].
  rewrite Hio, Hoff. apply (holds_app_l _ _ _ _ Hh).
Qed.

Lemma cursorAt_augBytes (rd : Reader) (post : list Z) :
  forall (bs : list Z) (r : DWARFReader) (o : Z),
    cursorAt r rd o (bs ++ post) ->
    exists r',
      augBytes (length bs) r = Ok (bs, r')
      /\ cursorAt r' rd (o + Z.of_nat (length bs)) post.
Proof.
  induction bs as [|b bs IH]; intros r o Hc.
  - exists r. split; [reflexivity|]. cbn [length]. rewrite Z.add_0_r. exact Hc.
  - destruct (cursorAt_getu8 _ _ _ _ _ Hc) as [E Hc1].
    destruct (IH _ _ Hc1) as (r' & E' & Hc').
    exists r'. split.
    + cbn [length augBytes]. rewrite (bind_ok _ _ _ _ _ E), (bind_ok _ _ _ _ _ E').
      reflexivity.
    + cbn [length]. replace (o + Z.of_nat (S (length bs)))
        with (o + 1 + Z.of_nat (length bs)) by lia. exact Hc'.
Qed.

(** The constructor of [DwarfFDE] on an entry of a CIE whose augmentation
    starts with ['z'] and whose addresses have a fixed size with sign: the
    initial location is the first value, made relative to its own offset
    when the encoding says so; the range is the second value, never made
    relative; the augmentation bytes are collected, and the instructions
    start right behind them. *)
Theorem newFDE_decodes (elfBase : Z) (c : DwarfCIE) (encoding : Z)
    (letters : list Z) (end_ : Z) (r : DWARFReader) (rd : Reader) (o : Z)
    (n : nat) (loc range : Z) (aug post : list Z) :
  (n = 2%nat /\ Z.land encoding 0xf = DW_EH_PE_sdata2)
  \/ (n = 4%nat /\ Z.land encoding 0xf = DW_EH_PE_sdata4)
  \/ (n = 8%nat /\ Z.land encoding 0xf = DW_EH_PE_sdata8) ->
  - 2^(8 * Z.of_nat n - 1) <= loc < 2^(8 * Z.of_nat n - 1) ->
  - 2^(8 * Z.of_nat n - 1) <= range < 2^(8 * Z.of_nat n - 1) ->
  Z.of_nat (length aug) < 2^31 ->
  cursorAt r rd o (leBytes n loc ++ leBytes n range
                   ++ encode_uleb128 (Z.of_nat (length aug)) ++ aug ++ post) ->
  exists r',
    newFDE elfBase c encoding (122 :: letters) end_ r
    = Ok (mkFDE c
            (u64 (if Z.land encoding 0xf0 =? DW_EH_PE_pcrel
                  then s64 (loc + o + elfBase) else loc))
            (u64 range)
            (o + 2 * Z.of_nat n
             + Z.of_nat (length (encode_uleb128 (Z.of_nat (length aug))))
             + Z.of_nat (length aug))
            end_,
          aug, r')
    /\ cursorAt r' rd
         (o + 2 * Z.of_nat n
          + Z.of_nat (length (encode_uleb128 (Z.of_nat (length aug))))
          + Z.of_nat (length aug)) post.
Proof.
  intros Hn Hloc Hrange Haug Hc.
  destruct (decodeAddress_sdata elfBase _ _ _ _ _ encoding _ Hn Hloc Hc) as [E1 Hc1].
  assert (Hn' : (n = 2%nat /\ Z.land (Z.land encoding 0xf) 0xf = DW_EH_PE_sdata2)
                \/ (n = 4%nat /\ Z.land (Z.land encoding 0xf) 0xf = DW_EH_PE_sdata4)
                \/ (n = 8%nat /\ Z.land (Z.land encoding 0xf) 0xf = DW_EH_PE_sdata8)).
  { rewrite <- Z.land_assoc. exact Hn. }
  destruct (decodeAddress_sdata elfBase _ _ _ _ _ (Z.land encoding 0xf) _
              Hn' Hrange Hc1) as [E2 Hc2].
  assert (Hhi : (Z.land (Z.land encoding 0xf) 0xf0 =? DW_EH_PE_pcrel) = false).
  { rewrite <- Z.land_assoc. change (Z.land 15 240) with 0.
    rewrite Z.land_0_r. reflexivity. }
  rewrite Hhi in E2.
  assert (Hau : 0 <= Z.of_nat (length aug) < 2^31) by lia.
  destruct (cursorAt_getuleb128 _ _ _ _ _ Hau Hc2) as (r3 & E3 & Hc3).
  destruct (cursorAt_augBytes _ _ _ _ _ Hc3) as (r4 & E4 & Hc4).
  set (fin := o + 2 * Z.of_nat n
              + Z.of_nat (length (encode_uleb128 (Z.of_nat (length aug))))
              + Z.of_nat (length aug)).
  replace (o + Z.of_nat n + Z.of_nat n
           + Z.of_nat (length (encode_uleb128 (Z.of_nat (length aug))))
           + Z.of_nat (length aug)) with fin in Hc4 by (unfold fin; lia).
  exists r4. split; [|exact Hc4].
  unfold newFDE.
  rewrite (bind_ok _ _ _ _ _ E1), (bind_ok _ _ _ _ _ E2).
  change (122 =? 122) with true. cbv iota.
  assert (E34 : (let* alen := getuleb128 in augBytes (Z.to_nat alen))
                  (skip (skip r (Z.of_nat n)) (Z.of_nat n)) = Ok (aug, r4)).
  { rewrite (bind_ok _ _ _ _ _ E3), Nat2Z.id. exact E4. }
  rewrite (bind_ok _ _ _ _ _ E34).
  rewrite (bind_ok getOffset _ r4 r4 (off r4) eq_refl).
  destruct Hc4 as (_ & -> & _). reflexivity.
Qed.

Lemma newFDE_decodes_witness :
  exists r',
    newFDE 0 scn_cie 0x1b [122; 82] 0x1038
      (setOffset (newReader (bytesAt 0x1020 [0xe0; 0xff; 0x3f; 0; 0; 0x10; 0; 0; 0])
                            2 0x1000 0x100) 0x1020)
    = Ok (mkFDE scn_cie 0x401000 0x1000 0x1029 0x1038, [], r')
    /\ cursorAt r' (bytesAt 0x1020 [0xe0; 0xff; 0x3f; 0; 0; 0x10; 0; 0; 0]) 0x1029 [].
Proof.
  apply (newFDE_decodes 0 scn_cie 0x1b [82] 0x1038
           (setOffset (newReader (bytesAt 0x1020 [0xe0; 0xff; 0x3f; 0; 0; 0x10; 0; 0; 0])
                                 2 0x1000 0x100) 0x1020)
           (bytesAt 0x1020 [0xe0; 0xff; 0x3f; 0; 0; 0x10; 0; 0; 0]) 0x1020
           4 0x3fffe0 0x1000 [] []).
  - right. left. split; reflexivity.
  - vm_compute. split; [intro; discriminate | reflexivity].
  - vm_compute. split; [intro; discriminate | reflexivity].
  - reflexivity.
  - split; [reflexivity|]. split; [reflexivity|]. split; [lia|].
    split; [vm_compute; reflexivity|].
    apply (holds_bytesAt 0x1020 [0xe0; 0xff; 0x3f; 0; 0; 0x10; 0; 0; 0]);
      [reflexivity | lia | vm_compute; discriminate].
Defined.

Lemma cursorAt_getstring (r : DWARFReader) (rd : Reader) (o : Z) (s post : list Z) :
  Forall (fun b => b <> 0) s -> (length s <= 2001)%nat ->
  cursorAt r rd o (s ++ 0 :: post) ->
  exists r',
    getstring r = Ok (s, r')
    /\ cursorAt r' rd (o + Z.of_nat (length s) + 1) post.
Proof.
  intros Hnz Hlen Hc.
  pose proof (cursorAt_setOffset r rd o (s ++ [0]) post) as Hc'.
  rewrite <- app_assoc in Hc'. specialize (Hc' Hc).
  rewrite length_app in Hc'. cbn [length] in Hc'.
  destruct Hc as (Hio & Hoff & Ho & Hfit & Hh).
  rewrite length_app in Hfit. cbn [length] in Hfit.
  eexists. split.
  - unfold getstring.
    rewrite (getstring_loop_ok s 2001 (io r) (off r) []);
      [cbn [obind app]; reflexivity | rewrite Hoff; lia | | exact Hnz | exact Hlen].
    rewrite Hio, Hoff. apply holds_app_l with post.
    rewrite <- app_assoc. exact Hh.
  - unfold setOffset in *. rewrite u64_idem.
    replace (off r + Z.of_nat (length s) + 1)
      with (off r + Z.of_nat (length s + 1)) by lia.
    replace (o + Z.of_nat (length s) + 1)
      with (o + Z.of_nat (length s + 1)) by lia.
    exact Hc'.
Qed.

(** The constructor of [DwarfCIE] on a CIE with the augmentation "zR", as
    compilers emit it: it returns the version, the alignment factors, the
    return address register and the encoding of addresses that the
    augmentation data give; the instructions start where the augmentation
    data end, also when these hold more than the one byte that "R" reads;
    and the cursor is left at the end that was passed in. *)
Theorem newCIE_zR (elfBase end_ : Z) (r : DWARFReader) (rd : Reader) (o : Z)
    (ver ca da ra enc : Z) (extra post : list Z) :
  0 <= ca < 2^31 -> - 2^31 <= da < 2^31 ->
  Z.of_nat (length extra) + 1 < 2^31 ->
  0 <= end_ < 2^64 ->
  cursorAt r rd o
    ([ver; 122; 82; 0] ++ encode_uleb128 ca ++ encode_sleb128 da ++ [ra]
     ++ encode_uleb128 (Z.of_nat (length extra) + 1) ++ [enc] ++ extra ++ post) ->
  exists (r' : DWARFReader) (instructions : Z),
    newCIE elfBase end_ r
    = Ok (mkCIE ca da ra instructions end_,
          mkCIEAug ver [122; 82] (Z.of_nat (length extra) + 1) enc None None false,
          r')
    /\ instructions
       = o + 4 + Z.of_nat (length (encode_uleb128 ca))
         + Z.of_nat (length (encode_sleb128 da)) + 1
         + Z.of_nat (length (encode_uleb128 (Z.of_nat (length extra) + 1)))
         + (Z.of_nat (length extra) + 1)
    /\ holds rd instructions post
    /\ off r' = end_.
Proof.
  intros Hca Hda Hex Hend Hc.
  cbn [app] in Hc.
  destruct (cursorAt_getu8 _ _ _ _ _ Hc) as [E1 Hc1].
  apply (cursorAt_setVersion _ _ _ _ ver) in Hc1.
  destruct (cursorAt_getstring _ _ _ [122; 82] _
              ltac:(repeat constructor; discriminate) ltac:(cbn; lia) Hc1)
    as (r2 & E2 & Hc2).
  destruct (cursorAt_getuleb128 _ _ _ _ _ Hca Hc2) as (r3 & E3 & Hc3).
  destruct (cursorAt_getsleb128 _ _ _ _ _ Hda Hc3) as (r4 & E4 & Hc4).
  destruct (cursorAt_getu8 _ _ _ _ _ Hc4) as [E5 Hc5].
  assert (Hsz : 0 <= Z.of_nat (length extra) + 1 < 2^31) by lia.
  destruct (cursorAt_getuleb128 _ _ _ _ _ Hsz Hc5) as (r6 & E6 & Hc6).
  destruct (cursorAt_getu8 _ _ _ _ _ Hc6) as [E7 Hc7].
  pose proof (cursorAt_skip _ _ _ _ _ Hc7) as Hc8.
  set (o6 := o + 1 + Z.of_nat (length [122; 82]) + 1
             + Z.of_nat (length (encode_uleb128 ca))
             + Z.of_nat (length (encode_sleb128 da)) + 1
             + Z.of_nat (length (encode_uleb128 (Z.of_nat (length extra) + 1)))) in *.
  assert (Hoff6 : off r6 = o6) by (destruct Hc6 as (_ & H & _); exact H).
  assert (Hoff7 : off (skip r6 1) = o6 + 1) by (destruct Hc7 as (_ & H & _); exact H).
  assert (Hfit6 : 0 <= o6 /\ o6 + 1 + Z.of_nat (length extra) < 2^64).
  { destruct Hc6 as (_ & _ & H0 & H1 & _).
    cbn [length] in H1. rewrite length_app in H1. lia. }
  set (rfin := if o6 + 1 =? u64 (o6 + (Z.of_nat (length extra) + 1))
               then skip r6 1
               else setOffset (skip r6 1) (u64 (o6 + (Z.of_nat (length extra) + 1)))).
  assert (Hfin : cursorAt rfin rd (o6 + (Z.of_nat (length extra) + 1)) post).
  { unfold rfin. rewrite (u64_small (o6 + _)) by lia.
    destruct (Z.eqb_spec (o6 + 1) (o6 + (Z.of_nat (length extra) + 1))) as [Heq|Hne].
    - assert (extra = []) by (destruct extra; [reflexivity | cbn [length] in Heq; lia]).
      subst extra. cbn [length app] in *.
      replace (o6 + (Z.of_nat 0 + 1)) with (o6 + 1) by lia. exact Hc7.
    - replace (o6 + (Z.of_nat (length extra) + 1))
        with (o6 + 1 + Z.of_nat (length extra)) by lia.
      rewrite <- Hoff7 at 1. exact Hc8. }
  exists (setOffset rfin end_), (o6 + (Z.of_nat (length extra) + 1)).
  split; [|split; [unfold o6; cbn [length]; lia|split]].
  - unfold newCIE.
    rewrite (bind_ok getu8 _ _ _ _ E1). cbv beta.
    rewrite (bind_ok _ _ _ _ tt eq_refl). cbv beta.
    rewrite (bind_ok getstring _ _ _ _ E2). cbv beta.
    rewrite (bind_ok getuleb128 _ _ _ _ E3). cbv beta.
    rewrite (bind_ok getsleb128 _ _ _ _ E4). cbv beta.
    rewrite (bind_ok getu8 _ _ _ _ E5). cbv beta zeta.
    change (122 =? 122) with true. cbv iota.
    assert (Eaug : (let* sz := getuleb128 in
                    let* o := getOffset in
                    let endaugdata := u64 (o + sz) in
                    let* a := augLetters elfBase [82]
                                (mkCIEAug ver [122; 82] sz DW_EH_PE_udata4 None None
                                          false) in
                    let* o' := getOffset in
                    let* _ := (fun r => Ok (tt, if o' =? endaugdata then r
                                                else setOffset r endaugdata)) in
                    ret a) (skip r4 1)
                   = Ok (mkCIEAug ver [122; 82] (Z.of_nat (length extra) + 1) enc
                                  None None false, rfin)).
    { rewrite (bind_ok getuleb128 _ _ _ _ E6). cbv beta.
      rewrite (bind_ok getOffset _ r6 r6 (off r6) eq_refl). cbv beta zeta.
      assert (El : augLetters elfBase [82]
                     (mkCIEAug ver [122; 82] (Z.of_nat (length extra) + 1)
                               DW_EH_PE_udata4 None None false) r6
                   = Ok (mkCIEAug ver [122; 82] (Z.of_nat (length extra) + 1) enc
                                  None None false, skip r6 1)).
      { cbn [augLetters]. change (82 =? 80) with false. change (82 =? 76) with false.
        change (82 =? 82) with true. cbv iota.
        rewrite (bind_ok getu8 _ _ _ _ E7). reflexivity. }
      rewrite (bind_ok _ _ _ _ _ El). cbv beta.
      rewrite (bind_ok getOffset _ _ _ _ eq_refl). cbv beta.
      rewrite Hoff7, Hoff6. reflexivity. }
    rewrite (bind_ok _ _ _ _ _ Eaug). cbv beta.
    rewrite (bind_ok getOffset _ rfin rfin (off rfin) eq_refl). cbv beta.
    rewrite (bind_ok _ _ _ _ tt eq_refl). cbv beta.
    destruct Hfin as (_ & -> & _).
    rewrite u32_small by (pow2; change (2^31) with 2147483648 in Hca; lia).
    rewrite s32_small by exact Hda. reflexivity.
  - destruct Hfin as (_ & _ & _ & _ & H). exact H.
  - cbn [off setOffset]. apply u64_small. exact Hend.
Qed.

Lemma newCIE_zR_witness :
  exists (r' : DWARFReader) (instructions : Z),
    newCIE 0 12 (readerOver [1; 122; 82; 0; 1; 0x78; 16; 1; 0x1b; 0x0c; 7; 8])
    = Ok (mkCIE 1 (-8) 16 instructions 12,
          mkCIEAug 1 [122; 82] 1 0x1b None None false, r')
    /\ instructions = 9
    /\ holds (bytesAt 0 [1; 122; 82; 0; 1; 0x78; 16; 1; 0x1b; 0x0c; 7; 8]) instructions
             [0x0c; 7; 8]
    /\ off r' = 12.
Proof.
  apply (newCIE_zR 0 12 (readerOver [1; 122; 82; 0; 1; 0x78; 16; 1; 0x1b; 0x0c; 7; 8])
           (bytesAt 0 [1; 122; 82; 0; 1; 0x78; 16; 1; 0x1b; 0x0c; 7; 8]) 0
           1 1 (-8) 16 0x1b [] [0x0c; 7; 8]).
  - vm_compute. split; [intro; discriminate | reflexivity].
  - vm_compute. split; [intro; discriminate | reflexivity].
  - reflexivity.
  - vm_compute. split; [intro; discriminate | reflexivity].
  - split; [reflexivity|]. split; [reflexivity|]. split; [lia|].
    split; [vm_compute; reflexivity|].
    apply (holds_bytesAt 0 [1; 122; 82; 0; 1; 0x78; 16; 1; 0x1b; 0x0c; 7; 8]);
      [reflexivity | lia | vm_compute; discriminate].
Defined.

(** ** Registers are unwound one by one *)

Lemma arraySet_lookup {A : Type} (a a' : list A) (i : Z) (v : A) :
  arraySet a i v = Ok a' ->
  a' !! Z.to_nat i = Some v
  /\ forall j : nat, j <> Z.to_nat i -> a' !! j = a !! j.
Proof.
  unfold arraySet.
  destruct ((0 <=? i) && (i <? MAXREG) && (Z.to_nat i <? length a)%nat) eqn:E;
    [|discriminate].
  intros [= <-].
  apply andb_prop in E. destruct E as [_ E]. apply Nat.ltb_lt in E.
  split.
  - apply list_lookup_insert_eq. exact E.
  - intros j Hj. apply list_lookup_insert_ne. congruence.
Qed.

Lemma unwindReg_spec (isArchReg : Z -> bool) (fuel : nat) (p : Process)
    (o : LoadedObject) (fr : DwarfCallFrame) (regs : DwarfRegisters) (cfa : Z)
    (newRegs new' : DwarfRegisters) (i : Z) :
  unwindReg isArchReg fuel p o fr regs cfa newRegs i = Ok new' ->
  unwoundAs isArchReg fuel p o fr regs cfa i
            (newRegs !! Z.to_nat i) (new' !! Z.to_nat i)
  /\ forall j : nat, j <> Z.to_nat i -> new' !! j = newRegs !! j.
Proof.
  unfold unwindReg, unwoundAs.
  destruct (negb (isArchReg i)); [intros [= <-]; split; reflexivity|].
  destruct (arrayGet (registers fr) i) as [unwind| | | |]; try discriminate.
  cbn [obind]. unfold dwarfSetReg.
  destruct (type unwind) eqn:Et; try discriminate.
  - destruct (dwarfGetReg regs i) as [v| | | |]; try discriminate. cbn [obind].
    intros H. destruct (arraySet_lookup _ _ _ _ H) as [H1 H2].
    split; [|exact H2]. exists unwind. rewrite Et. eauto.
  - destruct (dwarfGetReg regs i) as [v| | | |]; try discriminate. cbn [obind].
    intros H. destruct (arraySet_lookup _ _ _ _ H) as [H1 H2].
    split; [|exact H2]. exists unwind. rewrite Et. eauto.
  - destruct (readWord _ _) as [w| | | |] eqn:Ew; try discriminate. cbn [obind].
    intros H. destruct (arraySet_lookup _ _ _ _ H) as [H1 H2].
    split; [|exact H2]. exists unwind. rewrite Et. eauto.
  - destruct (dwarfEvalExpr _ _ _ _ _) as [[rv [|val rest]]| | | |] eqn:Ee;
      try discriminate. cbn [obind].
    destruct (if bool_decide (EXPRESSION = EXPRESSION)
              then readWord (pio p) val else Ok val) as [x| | | |];
      try discriminate.
    cbn [obind].
    intros H. destruct (arraySet_lookup _ _ _ _ H) as [H1 H2].
    split; [|exact H2]. exists unwind. rewrite Et. eauto 6.
  - destruct (dwarfEvalExpr _ _ _ _ _) as [[rv [|val rest]]| | | |] eqn:Ee;
      try discriminate. cbn [obind].
    intros H. destruct (arraySet_lookup _ _ _ _ H) as [H1 H2].
    split; [|exact H2]. exists unwind. rewrite Et. eauto 6.
  - destruct (dwarfGetReg regs _) as [v| | | |] eqn:Eg; try discriminate. cbn [obind].
    intros H. destruct (arraySet_lookup _ _ _ _ H) as [H1 H2].
    split; [|exact H2]. exists unwind. rewrite Et. eauto.
Qed.

Lemma unwindRegs_other (isArchReg : Z -> bool) (fuel : nat) (p : Process)
    (o : LoadedObject) (fr : DwarfCallFrame) (regs : DwarfRegisters) (cfa : Z) :
  forall (idx : list Z) (newRegs new : DwarfRegisters) (j : nat),
    unwindRegs isArchReg fuel p o fr regs cfa newRegs idx = Ok new ->
    Forall (fun i => Z.to_nat i <> j) idx ->
    new !! j = newRegs !! j.
Proof.
  induction idx as [|i idx IH]; intros newRegs new j; cbn [unwindRegs].
  - intros [= <-] _. reflexivity.
  - destruct (unwindReg isArchReg fuel p o fr regs cfa newRegs i) as [mid| | | |] eqn:E;
      try discriminate.
    cbn [obind]. intros H Hall. inversion Hall as [|? ? Hi Hrest]; subst.
    rewrite (IH _ _ _ H Hrest).
    destruct (unwindReg_spec _ _ _ _ _ _ _ _ _ _ E) as [_ H2].
    apply H2. congruence.
Qed.

Lemma unwindRegs_slot (isArchReg : Z -> bool) (fuel : nat) (p : Process)
    (o : LoadedObject) (fr : DwarfCallFrame) (regs : DwarfRegisters) (cfa : Z)
    (newRegs new : DwarfRegisters) (i : nat) :
  unwindRegs isArchReg fuel p o fr regs cfa newRegs
             (map Z.of_nat (seq 0 (Z.to_nat MAXREG))) = Ok new ->
  (i < Z.to_nat MAXREG)%nat ->
  unwoundAs isArchReg fuel p o fr regs cfa (Z.of_nat i) (newRegs !! i) (new !! i).
Proof.
  intros H Hi.
  assert (Hsplit : map Z.of_nat (seq 0 (Z.to_nat MAXREG))
                   = map Z.of_nat (seq 0 i) ++ Z.of_nat i
                     :: map Z.of_nat (seq (S i) (Z.to_nat MAXREG - S i))).
  { replace (Z.to_nat MAXREG) with (i + S (Z.to_nat MAXREG - S i))%nat at 1 by lia.
    rewrite seq_app, map_app. cbn [seq map]. reflexivity. }
  rewrite Hsplit in H. clear Hsplit.
  revert H. generalize (Z.to_nat MAXREG - S i)%nat as k. intros k.
  assert (Hpre : forall (l1 l2 : list Z) (a b : DwarfRegisters),
             unwindRegs isArchReg fuel p o fr regs cfa a (l1 ++ l2) = Ok b ->
             exists mid, unwindRegs isArchReg fuel p o fr regs cfa a l1 = Ok mid
                         /\ unwindRegs isArchReg fuel p o fr regs cfa mid l2 = Ok b).
  { induction l1 as [|x l1 IH]; intros l2 a b; cbn [app unwindRegs].
    - intros Hb. exists a. split; [reflexivity | exact Hb].
    - destruct (unwindReg isArchReg fuel p o fr regs cfa a x) as [a'| | | |];
        try discriminate.
      cbn [obind]. apply IH. }
  intros H. destruct (Hpre _ _ _ _ H) as (mid & H1 & H2).
  cbn [unwindRegs] in H2.
  destruct (unwindReg isArchReg fuel p o fr regs cfa mid (Z.of_nat i))
    as [mid'| | | |] eqn:E; try discriminate.
  cbn [obind] in H2.
  destruct (unwindReg_spec _ _ _ _ _ _ _ _ _ _ E) as [Hs _].
  rewrite Nat2Z.id in Hs.
  assert (Hb : mid !! i = newRegs !! i).
  { apply (unwindRegs_other _ _ _ _ _ _ _ _ _ _ _ H1).
    apply List.Forall_forall. intros x Hx. apply in_map_iff in Hx.
    destruct Hx as (y & <- & Hy). apply in_seq in Hy. rewrite Nat2Z.id. lia. }
  assert (Ha : new !! i = mid' !! i).
  { apply (unwindRegs_other _ _ _ _ _ _ _ _ _ _ _ H2).
    apply List.Forall_forall. intros x Hx. apply in_map_iff in Hx.
    destruct Hx as (y & <- & Hy). apply in_seq in Hy. rewrite Nat2Z.id. lia. }
  rewrite Ha, <- Hb. exact Hs.
Qed.


(** ** Decoding a unit of public names *)

Lemma cursorAt_getu32 (r : DWARFReader) (rd : Reader) (o v : Z) (post : list Z) :
  0 <= v < 2^32 ->
  cursorAt r rd o (leBytes 4 v ++ post) ->
  getu32 r = Ok (v, skip r 4) /\ cursorAt (skip r 4) rd (o + 4) post.
Proof.
  intros Hv Hc. rewrite getu32_getuint.
  apply (cursorAt_getuint r rd o 4 v post ltac:(lia) Hv Hc).
Qed.

Lemma cursorAt_getu16 (r : DWARFReader) (rd : Reader) (o v : Z) (post : list Z) :
  0 <= v < 2^16 ->
  cursorAt r rd o (leBytes 2 v ++ post) ->
  getu16 r = Ok (v, skip r 2) /\ cursorAt (skip r 2) rd (o + 2) post.
Proof.
  intros Hv Hc. rewrite getu16_getuint.
  apply (cursorAt_getuint r rd o 2 v post ltac:(lia) Hv Hc).
Qed.

Lemma encode_pubnames_length (ps : list DwarfPubname) :
  Z.of_nat (length (flat_map encode_pubname ps))
  = fold_right (fun x acc => 5 + Z.of_nat (length (pn_name x)) + acc) 0 ps.
Proof.
  induction ps as [|x ps IH]; [reflexivity|].
  cbn [flat_map fold_right]. unfold encode_pubname at 1.
  rewrite !length_app, leBytes_length. cbn [length]. lia.
Qed.

Lemma pubnameLoop_ok (rd : Reader) (post : list Z) :
  forall (ps : list DwarfPubname) (fuel : nat) (r : DWARFReader)
         (acc : list DwarfPubname) (o : Z),
    Forall (fun x => 0 < pn_offset x < 2^32
                     /\ Forall (fun b => b <> 0) (pn_name x)
                     /\ (length (pn_name x) <= 2001)%nat) ps ->
    (length ps < fuel)%nat ->
    cursorAt r rd o (flat_map encode_pubname ps ++ leBytes 4 0 ++ post) ->
    exists r',
      pubnameLoop fuel (o + Z.of_nat (length (flat_map encode_pubname ps)) + 4) acc r
      = Ok (acc ++ ps, r')
      /\ cursorAt r' rd (o + Z.of_nat (length (flat_map encode_pubname ps)) + 4) post.
Proof.
  induction ps as [|x ps IH]; intros fuel r acc o Hps Hfuel Hc;
    (destruct fuel as [|fuel]; [cbn [length] in Hfuel; lia|]).
  - cbn [flat_map app length] in *.
    assert (H0 : 0 <= 0 < 2^32) by (split; [lia | reflexivity]).
    destruct (cursorAt_getu32 _ _ _ _ _ H0 Hc) as [E1 Hc1].
    exists (skip r 4). split.
    + cbn [pubnameLoop]. destruct Hc as (_ & -> & _).
      destruct (Z.ltb_spec o (o + Z.of_nat 0 + 4)); [|lia].
      rewrite (bind_ok _ _ _ _ _ E1). cbn. rewrite app_nil_r. reflexivity.
    + replace (o + Z.of_nat 0 + 4) with (o + 4) by lia. exact Hc1.
  - inversion Hps as [|? ? (Ho & Hnz & Hl) Hps']; subst.
    cbn [flat_map] in Hc. unfold encode_pubname at 1 in Hc.
    rewrite <- !app_assoc in Hc. cbn [app] in Hc.
    assert (Ho' : 0 <= pn_offset x < 2^32) by lia.
    destruct (cursorAt_getu32 _ _ _ _ _ Ho' Hc) as [E1 Hc1].
    destruct (cursorAt_getstring _ _ _ _ _ Hnz Hl Hc1) as (r2 & E2 & Hc2).
    cbn [length] in Hfuel.
    destruct (IH fuel _ (acc ++ [x]) _ Hps' ltac:(lia) Hc2) as (r' & E & Hc').
    assert (Hlen : o + Z.of_nat (length (flat_map encode_pubname (x :: ps))) + 4
                   = o + 4 + Z.of_nat (length (pn_name x)) + 1
                     + Z.of_nat (length (flat_map encode_pubname ps)) + 4).
    { cbn [flat_map]. unfold encode_pubname at 1.
      rewrite !length_app, leBytes_length. cbn [length]. lia. }
    rewrite Hlen.
    exists r'. split; [|exact Hc'].
    cbn [pubnameLoop]. destruct Hc as (_ & -> & _).
    destruct (Z.ltb_spec o (o + 4 + Z.of_nat (length (pn_name x)) + 1
                            + Z.of_nat (length (flat_map encode_pubname ps)) + 4));
      [|lia].
    rewrite (bind_ok _ _ _ _ _ E1).
    destruct (Z.eqb_spec (pn_offset x) 0); [lia|].
    rewrite (bind_ok _ _ _ _ _ E2).
    replace (mkPubname (pn_offset x) (pn_name x)) with x by (destruct x; reflexivity).
    rewrite E, <- app_assoc. reflexivity.
Qed.

(** The constructor of [DwarfPubnameUnit] decodes the layout of the
    standard, as long as the length of the unit is below 2^16 (the member
    that keeps it has 16 bits): it returns the header fields and the names
    with their offsets, in their order, stops at the offset of zero, and
    leaves the cursor behind the unit. *)
Theorem newPubnameUnit_decodes (fuel : nat) (ver io_ il : Z)
    (ps : list DwarfPubname) (r : DWARFReader) (rd : Reader) (o : Z)
    (post : list Z) :
  0 <= ver < 2^16 -> 0 <= io_ < 2^32 -> 0 <= il < 2^32 ->
  Forall (fun x => 0 < pn_offset x < 2^32
                   /\ Forall (fun b => b <> 0) (pn_name x)
                   /\ (length (pn_name x) <= 2001)%nat) ps ->
  (length ps < fuel)%nat ->
  Z.of_nat (length (encode_pubname_body ver io_ il ps)) < 2^16 ->
  cursorAt r rd o (encode_pubname_unit ver io_ il ps ++ post) ->
  exists r',
    newPubnameUnit fuel r
    = Ok (mkPubnameUnit (Z.of_nat (length (encode_pubname_body ver io_ il ps)))
                        ver io_ il ps, r')
    /\ cursorAt r' rd
         (o + Z.of_nat (length (encode_pubname_unit ver io_ il ps))) post.
Proof.
  intros Hver Hio Hil Hps Hfuel Hlen Hc.
  set (L := Z.of_nat (length (encode_pubname_body ver io_ il ps))) in *.
  assert (HLv : L = 10 + Z.of_nat (length (flat_map encode_pubname ps)) + 4).
  { unfold L, encode_pubname_body. rewrite !length_app, !leBytes_length. lia. }
  assert (Htot : Z.of_nat (length (encode_pubname_unit ver io_ il ps)) = 4 + L).
  { unfold encode_pubname_unit. rewrite length_app, leBytes_length. unfold L. lia. }
  assert (Hfit0 : 0 <= o /\ o + 4 + L < 2^64).
  { destruct Hc as (_ & _ & Ho & H & _).
    rewrite length_app, Nat2Z.inj_add, Htot in H. lia. }
  rewrite Htot.
  unfold encode_pubname_unit in Hc. fold L in Hc.
  unfold encode_pubname_body in Hc. rewrite <- !app_assoc in Hc.
  change (2^16) with 65536 in Hlen.
  assert (HL32 : 0 <= L < 2^32) by (pow2; lia).
  destruct (cursorAt_getu32 _ _ _ _ _ HL32 Hc) as [E1 Hc1].
  destruct (cursorAt_getu16 _ _ _ _ _ Hver Hc1) as [E2 Hc2].
  apply (cursorAt_setVersion _ _ _ _ ver) in Hc2.
  destruct (cursorAt_getu32 _ _ _ _ _ Hio Hc2) as [E3 Hc3].
  destruct (cursorAt_getu32 _ _ _ _ _ Hil Hc3) as [E4 Hc4].
  destruct (pubnameLoop_ok rd post ps fuel _ [] _ Hps Hfuel Hc4)
    as (r' & E5 & Hc5).
  exists r'. split.
  - unfold newPubnameUnit.
    rewrite (bind_ok getu32 _ _ _ _ E1). cbv beta zeta.
    rewrite (bind_ok getOffset _ _ _ _ eq_refl). cbv beta zeta.
    rewrite (bind_ok getu16 _ _ _ _ E2). cbv beta zeta.
    rewrite (bind_ok _ _ _ _ tt eq_refl). cbv beta zeta.
    rewrite (bind_ok getu32 _ _ _ _ E3). cbv beta zeta.
    rewrite (bind_ok getu32 _ _ _ _ E4). cbv beta zeta.
    destruct Hc1 as (_ & -> & _).
    assert (Hu16 : u16 L = L) by (unfold u16; apply Z.mod_small; pow2; lia).
    rewrite Hu16.
    assert (Hnext : u64 (o + 4 + L)
                    = o + 4 + 2 + 4 + 4
                      + Z.of_nat (length (flat_map encode_pubname ps)) + 4)
      by (rewrite u64_small; lia).
    rewrite Hnext, (bind_ok _ _ _ _ _ E5). reflexivity.
  - replace (o + (4 + L))
      with (o + 4 + 2 + 4 + 4 + Z.of_nat (length (flat_map encode_pubname ps)) + 4)
      by lia.
    exact Hc5.
Qed.

Lemma newPubnameUnit_decodes_witness :
  exists r',
    newPubnameUnit 2 (readerOver ix_pubnames_bytes)
    = Ok (mkPubnameUnit 23 2 0 0x50 [mkPubname 0x2d [109; 97; 105; 110]], r')
    /\ cursorAt r' (bytesAt 0 ix_pubnames_bytes) 27 [].
Proof.
  apply (newPubnameUnit_decodes 2 2 0 0x50 [mkPubname 0x2d [109; 97; 105; 110]]
           (readerOver ix_pubnames_bytes) (bytesAt 0 ix_pubnames_bytes) 0 []).
  - vm_compute. split; [intro; discriminate | reflexivity].
  - vm_compute. split; [intro; discriminate | reflexivity].
  - vm_compute. split; [intro; discriminate | reflexivity].
  - constructor; [|constructor]. cbn [pn_offset pn_name].
    split; [vm_compute; split; reflexivity|].
    split; [repeat constructor; discriminate | cbn; lia].
  - cbn. lia.
  - vm_compute. reflexivity.
  - split; [reflexivity|]. split; [reflexivity|]. split; [lia|].
    split; [vm_compute; reflexivity|].
    apply (holds_bytesAt 0 ix_pubnames_bytes);
      [reflexivity | lia | vm_compute; discriminate].
Defined.

(** ** The line number program ends *)

Lemma adv_ret {A : Type} (h : Z) (a : A) : 0 <= h -> advances h (ret a).
Proof.
  intros Hh r Hr. split; [discriminate|].
  intros a' r' [= _ <-]. exists 0. split; [lia|].
  rewrite Z.add_0_r, u64_small by exact Hr. reflexivity.
Qed.

Lemma adv_fail {A : Type} (h : Z) (o : outcome (A * DWARFReader)) :
  o = Undef \/ o = Abort -> advances h (fail o).
Proof.
  intros [-> | ->] r Hr; (split; [discriminate|]); discriminate.
Qed.

Lemma adv_bind {A B : Type} (h1 h2 h : Z) (m : M A) (k : A -> M B) :
  advances h1 m -> (forall a, advances h2 (k a)) -> h1 + h2 <= h ->
  advances h (bind m k).
Proof.
  intros Hm Hk Hh r Hr. destruct (Hm r Hr) as [Hm1 Hm2]. unfold bind.
  destruct (m r) as [[a r1]| | | |] eqn:E; cbn [obind];
    try (split; [discriminate|]; discriminate); [|contradiction].
  destruct (Hm2 a r1 eq_refl) as (d1 & Hd1 & Ho1).
  assert (Hr1 : 0 <= off r1 < 2^64) by (rewrite Ho1; apply u64_range).
  destruct (Hk a r1 Hr1) as [Hk1 Hk2]. split; [exact Hk1|].
  intros b r' Hb. destruct (Hk2 b r' Hb) as (d2 & Hd2 & Ho2).
  exists (d1 + d2). split; [lia|].
  rewrite Ho2, Ho1, u64_add_l, Z.add_assoc. reflexivity.
Qed.

Lemma readObj_fuel (n : nat) : forall rd o, readObj rd o n <> OutOfFuel.
Proof.
  induction n as [|n IH]; intros rd o; cbn [readObj]; [discriminate|].
  destruct (rd o); [|discriminate].
  specialize (IH rd (u64 (o + 1))).
  destruct (readObj rd (u64 (o + 1)) n); cbn; try discriminate. contradiction.
Qed.

Lemma adv_getuint (n : Z) : advances 16 (getuint n).
Proof.
  intros r Hr. split.
  - unfold getuint. destruct (16 <? n); [discriminate|].
    destruct (n <? 0); [discriminate|].
    unfold bind, take.
    pose proof (readObj_fuel (Z.to_nat n) (io r) (off r)) as Hf.
    destruct (readObj (io r) (off r) (Z.to_nat n)); cbn; try discriminate.
    contradiction.
  - intros a r' H. destruct (getuint_inv _ _ _ _ H) as [Hn ->].
    exists n. split; [lia | reflexivity].
Qed.

Lemma adv_getu8 : advances 1 getu8.
Proof.
  intros r Hr. split.
  - rewrite getu8_eq. destruct (io r (off r)); discriminate.
  - intros a r' H. destruct (getu8_inv _ _ _ H) as [_ ->].
    exists 1. split; [lia | reflexivity].
Qed.

Lemma adv_getu16 : advances 2 getu16.
Proof.
  intros r Hr. rewrite getu16_getuint. destruct (adv_getuint 2 r Hr) as [H1 H2].
  split; [exact H1|].
  intros a r' H. destruct (getuint_inv _ _ _ _ H) as [_ ->].
  exists 2. split; [lia | reflexivity].
Qed.

Lemma uleb_loop_advance (k : nat) : forall rd o result shift,
  getuleb128shift_loop k rd o result shift <> OutOfFuel
  /\ forall v o', getuleb128shift_loop k rd o result shift = Ok (v, o') ->
       exists d, 1 <= d <= Z.of_nat k /\ o' = u64 (o + d).
Proof.
  induction k as [|k IH]; intros rd o result shift; cbn [getuleb128shift_loop];
    destruct (rd o) as [b|]; try (split; [discriminate|]; discriminate).
  destruct (Z.land (byteZ b) 128 =? 0).
  - split; [discriminate|]. intros v o' [= _ <-]. exists 1. split; [lia | reflexivity].
  - destruct (IH rd (u64 (o + 1))
                 (Z.lor result (u64 (s32 (Z.shiftl (Z.land (byteZ b) 127) shift))))
                 (shift + 7)) as [H1 H2].
    split; [exact H1|].
    intros v o' H. destruct (H2 v o' H) as (d & Hd & ->).
    exists (1 + d). split; [lia|]. rewrite u64_add_l, Z.add_assoc. reflexivity.
Qed.

Lemma adv_getuleb128shift : advances 5 getuleb128shift.
Proof.
  intros r Hr. unfold getuleb128shift.
  destruct (uleb_loop_advance 5 (io r) (off r) 0 0) as [H1 H2].
  destruct (getuleb128shift_loop 5 (io r) (off r) 0 0) as [[v o']| | | |];
    cbn [obind]; try (split; [discriminate|]; discriminate); [|contradiction].
  split; [discriminate|].
  intros a r' [= <- <-]. destruct (H2 v o' eq_refl) as (d & Hd & ->).
  exists d. split; [lia|]. cbn [off setOffset]. apply u64_idem.
Qed.

Lemma adv_getuleb128 : advances 5 getuleb128.
Proof.
  unfold getuleb128. apply (adv_bind 5 0 5); [apply adv_getuleb128shift | | lia].
  intros [[result sh] sg]. apply adv_ret. lia.
Qed.

Lemma adv_getsleb128 : advances 5 getsleb128.
Proof.
  unfold getsleb128. apply (adv_bind 5 0 5); [apply adv_getuleb128shift | | lia].
  intros [[result sh] sg]. apply adv_ret. lia.
Qed.

Lemma adv_bind_sub {A B : Type} (h1 h : Z) (m : M A) (k : A -> M B) :
  advances h1 m -> (forall a, advances (h - h1) (k a)) -> advances h (bind m k).
Proof. intros Hm Hk. apply (adv_bind h1 (h - h1) h m k Hm Hk). lia. Qed.

Ltac adv :=
  repeat first
    [ apply adv_ret; lia
    | apply adv_fail; tauto
    | apply (adv_bind_sub 1); [apply adv_getu8 | intros ?]
    | apply (adv_bind_sub 2); [apply adv_getu16 | intros ?]
    | apply (adv_bind_sub 5); [apply adv_getuleb128 | intros ?]
    | apply (adv_bind_sub 5); [apply adv_getsleb128 | intros ?]
    | apply (adv_bind_sub 16); [apply adv_getuint | intros ?]
    | match goal with
      | |- advances _ (if ?c then _ else _) => destruct c
      end ].

Lemma lineStep_advance (li : DwarfLineInfo) (vm vm' : LineVM) (r r' : DWARFReader) :
  0 <= off r < 2^64 ->
  lineStep li vm r <> OutOfFuel
  /\ (lineStep li vm r = Ok (vm', r') ->
      exists d, 1 <= d <= 23 /\ off r' = u64 (off r + d)).
Proof.
  intros Hr. destruct vm as [state matrix]. unfold lineStep.
  match goal with
  | |- bind getu8 ?k r <> _ /\ _ =>
      assert (Hk : forall c, advances 22 (k c)) by (intros c; cbn; adv);
      set (K := k) in *
  end.
  destruct (adv_getu8 r Hr) as [H1 _]. unfold bind.
  destruct (getu8 r) as [[c r1]| | | |] eqn:E; cbn [obind];
    try (split; [discriminate|]; discriminate); [|contradiction].
  destruct (getu8_inv _ _ _ E) as [_ ->].
  destruct (Hk c (skip r 1) (u64_range _)) as [Hk1 Hk2].
  split; [exact Hk1|].
  intros H. destruct (Hk2 _ _ H) as (d & Hd & Ho).
  exists (1 + d). split; [lia|].
  rewrite Ho. cbn [off skip setOffset]. rewrite u64_add_l, Z.add_assoc. reflexivity.
Qed.

(** The opcode loop of [DwarfLineInfo::build] ends: every trip moves the
    cursor forward by at least one byte and at most 23, so that, from a
    cursor at or after the start of the store and an end at least 22 bytes
    below 2^64, the loop is through after at most one trip for each byte
    between the cursor and the end. *)
Theorem lineLoop_terminates (li : DwarfLineInfo) (endoff : Z) :
  forall (fuel : nat) (vm : LineVM) (r : DWARFReader),
    0 <= off r -> endoff + 22 < 2^64 ->
    (Z.to_nat (endoff - off r) <= fuel)%nat ->
    lineLoop fuel li endoff vm r <> OutOfFuel.
Proof.
  induction fuel as [|fuel IH]; intros vm r Hr Hend Hfuel; cbn [lineLoop];
    destruct (Z.ltb_spec (off r) endoff) as [Hlt|Hge]; try discriminate.
  - lia.
  - unfold bind.
    destruct (lineStep li vm r) as [[vm' r']| | | |] eqn:E; cbn [obind];
      try discriminate.
    + destruct (lineStep_advance li vm vm' r r' ltac:(lia)) as [_ H].
      destruct (H E) as (d & Hd & Ho).
      rewrite u64_small in Ho by lia.
      apply IH; [lia | exact Hend | lia].
    + destruct (lineStep_advance li vm vm r r ltac:(lia)) as [H _].
      contradiction.
Qed.

Lemma lineLoop_terminates_witness :
  lineLoop 3 (mkLineInfo 1 13 1 (-3) 12 8) 3 (reset (mkLineInfo 1 13 1 (-3) 12 8), [])
           (readerOver [0x4e; 0x01; 0x4e])
  <> OutOfFuel.
Proof.
  apply (lineLoop_terminates (mkLineInfo 1 13 1 (-3) 12 8) 3 3
           (reset (mkLineInfo 1 13 1 (-3) 12 8), [])
           (readerOver [0x4e; 0x01; 0x4e])).
  - vm_compute. discriminate.
  - vm_compute. reflexivity.
  - vm_compute. lia.
Defined.

(** One step of [dwarfUnwind] that returns.  The address lies in an
    object.  If neither frame table of that object has an FDE for it, the
    step returns 0 and leaves the registers alone.  Otherwise the row for
    the address and its CFA were computed, the value returned is the
    caller's value of the return address register of the CIE, and each
    register of the architecture was unwound on its own: the register named
    by [CFA_RESTORE_REGNO] holds the CFA if its rule is [UNDEF], and every
    other one holds what its own rule says. *)
Theorem dwarfUnwind_step (isArchReg : Z -> bool) (restore : option Z)
    (fuel : nat) (p : Process) (regs regs' : DwarfRegisters) (a ra : Z) :
  dwarfUnwind isArchReg restore fuel p regs a = Ok (ra, regs') ->
  exists o,
    findObject p a = Some o
    /\ match match match debugFrame (dwarf o) with
                   | Some fi => findFDE fi (u64 (a - reloc o))
                   | None => None
                   end with
             | Some fde => Some fde
             | None =>
                 match ehFrame (dwarf o) with
                 | None => None
                 | Some fi => findFDE fi (u64 (a - reloc o))
                 end
             end with
       | None => ra = 0 /\ regs' = regs
       | Some fde =>
           exists fr r' cfa,
             execInsns fuel (cie fde)
               (newReader (elfio o) (di_version (dwarf o)) (fde_instructions fde)
                          (fde_end fde - fde_instructions fde))
               (di_version (dwarf o)) (iloc fde) (u64 (u64 (a - reloc o) - 1))
             = Ok (fr, r')
             /\ getCFA fuel (elfio o) (pio p) (di_version (dwarf o)) fr regs = Ok cfa
             /\ dwarfGetReg regs' (rar (cie fde)) = Ok ra
             /\ forall i : nat,
                  (i < Z.to_nat MAXREG)%nat -> isArchReg (Z.of_nat i) = true ->
                  (forall u, restore = Some (Z.of_nat i) ->
                             arrayGet (registers fr) (Z.of_nat i) = Ok u ->
                             type u = UNDEF -> regs' !! i = Some cfa)
                  /\ (restore <> Some (Z.of_nat i)
                      \/ (exists u, arrayGet (registers fr) (Z.of_nat i) = Ok u
                                    /\ type u <> UNDEF) ->
                      unwoundAs isArchReg fuel p o fr regs cfa (Z.of_nat i)
                                (Some 0) (regs' !! i))
       end.
Proof.
  unfold dwarfUnwind.
  destruct (findObject p a) as [o|]; [|discriminate].
  intros H. exists o. split; [reflexivity|].
  destruct (match match debugFrame (dwarf o) with
                  | Some fi => findFDE fi (u64 (a - reloc o))
                  | None => None
                  end with
            | Some fde => Some fde
            | None =>
                match ehFrame (dwarf o) with
                | None => None
                | Some fi => findFDE fi (u64 (a - reloc o))
                end
            end) as [fde|].
  2: { injection H as <- <-. split; reflexivity. }
  destruct (execInsns _ _ _ _ _ _) as [[fr r']| | | |] eqn:Ee; try discriminate.
  cbn [obind] in H.
  destruct (getCFA _ _ _ _ _ _) as [cfa| | | |] eqn:Ec; try discriminate.
  cbn [obind] in H.
  destruct (unwindRegs _ _ _ _ _ _ _ _ _) as [new| | | |] eqn:Eu; try discriminate.
  cbn [obind] in H.
  exists fr, r', cfa. split; [reflexivity|]. split; [exact Ec|].
  assert (Hslot : forall i : nat,
             (i < Z.to_nat MAXREG)%nat ->
             unwoundAs isArchReg fuel p o fr regs cfa (Z.of_nat i) (Some 0) (new !! i)).
  { intros i Hi.
    pose proof (unwindRegs_slot _ _ _ _ _ _ _ _ _ i Eu Hi) as Hs.
    replace (replicate (Z.to_nat DWARF_MAXREG) 0 !! i) with (Some 0) in Hs; [exact Hs|].
    symmetry. apply lookup_replicate_2. exact Hi. }
  destruct restore as [n|].
  - destruct (arrayGet (registers fr) n) as [unwind| | | |] eqn:Eg; try discriminate.
    cbn [obind] in H.
    destruct (bool_decide_reflect (type unwind = UNDEF)) as [Ht|Ht].
    + destruct (dwarfSetReg new n cfa) as [new2| | | |] eqn:Es; try discriminate.
      cbn [obind] in H.
      destruct (dwarfGetReg new2 (rar (cie fde))) as [v| | | |] eqn:Er;
        try discriminate.
      injection H as <- <-. split; [exact Er|].
      destruct (arraySet_lookup _ _ _ _ Es) as [Hn Hother].
      intros i Hi Harch. split.
      * intros u [= ->] _ _. rewrite Nat2Z.id in Hn. exact Hn.
      * intros Hc. rewrite Hother; [apply Hslot; exact Hi|].
        intros ->. destruct Hc as [Hc|(u & Hu & Hne)].
        -- apply Hc. f_equal.
           unfold dwarfSetReg, arraySet in Es.
           destruct (Z.leb_spec 0 n); [symmetry; apply Z2Nat.id; assumption|].
           discriminate.
        -- assert (Hn0 : 0 <= n).
           { unfold dwarfSetReg, arraySet in Es.
             destruct (Z.leb_spec 0 n); [assumption | discriminate]. }
           rewrite Z2Nat.id in Hu by exact Hn0. rewrite Hu in Eg.
           injection Eg as ->. contradiction.
    + cbn [obind] in H.
      destruct (dwarfGetReg new (rar (cie fde))) as [v| | | |] eqn:Er;
        try discriminate.
      injection H as <- <-. split; [exact Er|].
      intros i Hi Harch. split.
      * intros u [= ->] Hu Hun. rewrite Hu in Eg. injection Eg as ->. contradiction.
      * intros _. apply Hslot. exact Hi.
  - cbn [obind] in H.
    destruct (dwarfGetReg new (rar (cie fde))) as [v| | | |] eqn:Er;
      try discriminate.
    injection H as <- <-. split; [exact Er|].
    intros i Hi Harch. split; [discriminate|]. intros _. apply Hslot. exact Hi.
Qed.

Lemma dwarfUnwind_step_witness :
  exists o,
    findObject (scn_process (wordAt 0x7fffdff8 0x402000)) 0x401234 = Some o
    /\ dwarfGetReg (<[7%nat := 0x7fffe000]> (<[16%nat := 0x402000]> scn_regs))
                   (rar scn_cie) = Ok 0x402000.
Proof.
  destruct (dwarfUnwind_step x86_64_isArchReg x86_64_CFA_RESTORE_REGNO 2
              (scn_process (wordAt 0x7fffdff8 0x402000)) scn_regs
              (<[7%nat := 0x7fffe000]> (<[16%nat := 0x402000]> scn_regs))
              0x401234 0x402000) as (o & Ho & _).
  - vm_compute. reflexivity.
  - exists o. split; [exact Ho | vm_compute; reflexivity].
Defined.

(** ** Building the frame tables *)


(** The projection of [decodeCIEFDEHdrFull] to what the unwinder keeps of a
    CIE is [decodeCIEFDEHdr] on the projected frame information. *)
Lemma decodeCIEFDEHdrFull_project (ty0 : FIType) (m : CIEMap) (ver : Z)
    (ty : FIType) (want : bool) (r : DWARFReader) :
  decodeCIEFDEHdr (frameInfoOf ty0 m []) ver ty want r
  = obind (decodeCIEFDEHdrFull ty0 m ver ty want r)
          (fun '(next, id, found, r1) =>
             Ok (mkHdr next id (option_map (option_map fst) found), r1)).
Proof.
  unfold decodeCIEFDEHdr, decodeCIEFDEHdrFull, bind.
  destruct (getlength r) as [[len r0]| | | |]; try reflexivity. cbn [obind].
  destruct (len =? 0); [reflexivity|].
  unfold getOffset. cbn [obind].
  destruct (getuint _ r0) as [[id' r2]| | | |]; try reflexivity. cbn [obind].
  unfold ret. cbn [obind].
  destruct (negb (isCIE (frameInfoOf ty0 m []) id') && want); [|reflexivity].
  cbn [option_map cies frameInfoOf].
  rewrite lookup_fmap. reflexivity.
Qed.




(** The section [ehsec_bytes] is decoded into its CIE and its FDE, and one
    step of unwinding through the tables built from it gives the caller's
    PC and stack pointer of the scenario. *)
Lemma ehsec_unwinds :
  obind (newFrameInfo 0 2 FI_EH_FRAME 5 ehsec_reader)
        (fun '(m, fdes, _) =>
           obind (dwarfUnwind x86_64_isArchReg x86_64_CFA_RESTORE_REGNO 5
                    (mkProcess [mkObject 0 [(0x400000, 0x10000)]
                                  (bytesAt 0x1000 ehsec_bytes)
                                  (mkDwarfInfo 2 None
                                     (Some (frameInfoOf FI_EH_FRAME m fdes)))]
                               (wordAt 0x7fffdff8 0x402000))
                    scn_regs 0x401234)
                 (fun '(ra, regs') =>
                    Ok (fst <$> map_to_list m, fdes, ra, regs' !! 7%nat)))
  = Ok ([0x1000], [mkFDE (mkCIE 1 (-8) 16 0x1011 0x1016) 0x401000 0x1000 0x1027 0x1027],
        0x402000, Some 0x7fffe000).
Proof. vm_compute. reflexivity. Qed.

(** ** A reader over a window *)

(** [readObj] through an [OffsetReader] over an upstream reader that
    never delivers more than it is asked for.  An object that lies within
    the window is read from the upstream reader at its place, exactly as a
    direct [readObj] there would; an object that starts within the window
    and reaches beyond its end is never returned. *)
Theorem offsetReader_window (upstream : RawRead) (offset length off size count : Z) :
  (forall o c bs, 0 <= c -> upstream o c = Ok bs -> Z.of_nat (List.length bs) <= c) ->
  0 <= offset < 2^62 -> 0 <= length < 2^62 -> 0 <= off ->
  0 < count -> 0 < size -> count * size < 2^62 ->
  (off + count * size <= length ->
   readObjRaw (offsetRead upstream offset length) off size count
   = readObjRaw upstream (off + offset) size count)
  /\ (length < off + count * size ->
      forall bs, readObjRaw (offsetRead upstream offset length) off size count
                 <> Ok bs).
Proof.
  intros Hup Hoffset Hlength Hoff Hcount Hsize Htotal.
  assert (Hu : u64 (count * size) = count * size)
    by (apply u64_small; change (2^62) with 4611686018427387904 in *; pow2; nia).
  assert (Hs : s64 (count * size) = count * size)
    by (apply s64_small; change (2^62) with 4611686018427387904 in *;
        change (2^63) with 9223372036854775808; nia).
  assert (Hfit : forall x, - 2^63 <= x < 2^63 ->
                           ((- 2^63 <=? x) && (x <? 2^63)) = true).
  { intros x Hx. apply andb_true_intro.
    split; [apply Z.leb_le | apply Z.ltb_lt]; lia. }
  assert (H63 : 2^63 = 2 * 2^62) by reflexivity.
  unfold readObjRaw.
  destruct (Z.eqb_spec count 0); [lia|].
  rewrite Hu. unfold offsetRead. rewrite Hs.
  split.
  - intros Hin.
    destruct (Z.ltb_spec length off); [nia|].
    rewrite !Hfit by nia. cbn [negb].
    destruct (Z.ltb_spec length (off + count * size)); [lia|].
    reflexivity.
  - intros Hout bs.
    destruct (Z.ltb_spec length off); [discriminate|].
    rewrite !Hfit by nia. cbn [negb].
    destruct (Z.ltb_spec length (off + count * size)); [|lia].
    rewrite u64_small
      by (change (2^62) with 4611686018427387904 in *; pow2; lia).
    destruct (upstream (off + offset) (length - off)) as [got| | | |] eqn:E;
      cbn [obind]; try discriminate.
    specialize (Hup (off + offset) (length - off) got ltac:(lia) E).
    destruct (Z.eqb_spec (Z.of_nat (List.length got)) (count * size));
      [lia | discriminate].
Qed.

Lemma offsetReader_window_witness :
  readObjRaw (offsetRead (fun o c => Ok (List.repeat 0 (Z.to_nat c))) 100 16) 8 8 1
  = readObjRaw (fun o c => Ok (List.repeat 0 (Z.to_nat c))) 108 8 1
  /\ forall bs,
       readObjRaw (offsetRead (fun o c => Ok (List.repeat 0 (Z.to_nat c))) 100 16) 12 8 1
       <> Ok bs.
Proof.
  split.
  - apply (offsetReader_window (fun o c => Ok (List.repeat 0 (Z.to_nat c)))
             100 16 8 8 1);
      try lia; try (vm_compute; split; [intro; discriminate | reflexivity]);
      try reflexivity.
    intros o c bs Hc [= <-]. rewrite List.repeat_length. lia.
  - apply (offsetReader_window (fun o c => Ok (List.repeat 0 (Z.to_nat c)))
             100 16 12 8 1);
      try lia; try (vm_compute; split; [intro; discriminate | reflexivity]);
      try reflexivity.
    intros o c bs Hc [= <-]. rewrite List.repeat_length. lia.
Defined.
